(** * CrewSplit ledger verification: share normalisation and debt settlement

    A shallow embedding of [scripts/verify-math.py]: the share normaliser
    ([normalize_shares] and its four strategies), the greedy settlement
    resolver ([resolve_debts]) and, towards the end of the file, the loop
    over the expenses of [verify_and_calculate_trip] that feeds the one
    into the other, with the properties of the specification stated and
    proved about them, and further properties of the code after those.

    Modelling conventions.
    - Python [int] is [Z]; [total // count] is [Z.div] (both floor).
    - Python [float] is the kernel's binary64 ([PrimFloat.float]); [+ - * /]
      and the comparisons are the IEEE 754 operations Python uses.  A
      [share] read from JSON is taken as a float (an integral JSON number of
      magnitude below 2^53 converts exactly and behaves the same).
    - An exception is a value of [exn]; a computation that may raise
      returns [res A].
    - The functions are modelled twice: on values, where the lists they
      build are passed along, and on a store of objects, where the
      arguments and the lists and dicts the functions create are objects
      reached through references and updated in place.  The second model
      is what the claim about mutation is stated on; it is shown to compute
      what the first computes.
    - A split is a record; its optional keys [share] and [amount] are
      [option]s ([None]: the key is absent).
    - A participant identifier is a string, compared as Python compares
      [str] (lexicographically, by code unit).
    - [sum] over floats is left-to-right addition starting from 0. *)

From Stdlib Require Import ZArith Floats.
From stdpp Require Import gmap strings list sorting.

Set Default Proof Using "Type".
Set Warnings "-inexact-float".
Local Open Scope Z_scope.

(** ** Exceptions *)

Inductive value_error :=
  | MixedShareType
  | PercentagesNotHundred (got : float)
  | WeightNotPositive
  | MissingAmounts (count : nat)
  | AmountsNotTotal (expected got : Z)
  | UnknownShareType (tag : string)
  | FloatNaNToInteger.

Inductive exn :=
  | ValueError (why : value_error)
  | KeyError (key : string)
  | IndexError
  | OverflowError
  | TypeError.

Inductive res (A : Type) :=
  | Ok (a : A)
  | Raise (e : exn).
Arguments Ok {A} a.
Arguments Raise {A} e.

#[global] Instance res_ret : MRet res := @Ok.
#[global] Instance res_bind : MBind res := λ A B f m,
  match m with Ok a => f a | Raise e => Raise e end.

(** [for x in xs: s = body x s], stopping at the first exception. *)
Fixpoint for_each {A S} (body : A → S → res S) (xs : list A) (s : S) : res S :=
  match xs with
  | [] => Ok s
  | x :: xs' => s' ← body x s; for_each body xs' s'
  end.

(** A list comprehension [[f x for x in xs]] whose body may raise. *)
Fixpoint comprehension {A B} (f : A → res B) (xs : list A) : res (list B) :=
  match xs with
  | [] => Ok []
  | x :: xs' => y ← f x; ys ← comprehension f xs'; Ok (y :: ys)
  end.

(** [range(n)]: empty when [n <= 0]. *)
Definition range (n : Z) : list nat := seq 0 (Z.to_nat n).

(** [enumerate(xs)]. *)
Definition enumerate {A} (xs : list A) : list (nat * A) := zip (seq 0 (length xs)) xs.

(** [l[i]] for reading, raising [IndexError] out of range. *)
Definition getitem {A} (l : list A) (i : nat) : res A :=
  match l !! i with Some x => Ok x | None => Raise IndexError end.

(** [l[i] = x], raising [IndexError] out of range. *)
Definition setitem {A} (l : list A) (i : nat) (x : A) : res (list A) :=
  if decide (i < length l)%nat then Ok (<[i:=x]> l) else Raise IndexError.

(** [l[i] += 1]. *)
Definition incr_item (i : nat) (l : list Z) : res (list Z) :=
  v ← getitem l i; setitem l i (v + 1).

(** [sum] of a list of ints. *)
Definition sum_int (l : list Z) : Z := foldl Z.add 0 l.

(** ** Sorting

    [sorted(xs, key=key)] and [xs.sort(key=key)]: a stable sort that
    compares keys with [<] only. *)
Section sorted.
Context {A K : Type} (key : A → K) (lt : K → K → bool).

Fixpoint insert_sorted (x : A) (l : list A) : list A :=
  match l with
  | [] => [x]
  | y :: l' => if lt (key y) (key x) then y :: insert_sorted x l' else x :: l
  end.

Definition sorted (l : list A) : list A := foldr insert_sorted [] l.

End sorted.

(** ** Floating point *)

(** Conversion of an [int] operand in mixed arithmetic. *)
Definition float_of_int (z : Z) : res float :=
  let f := SF2Prim (binary_normalize prec emax z 0 false) in
  if PrimFloat.is_infinity f then Raise OverflowError else Ok f.

(** [math.floor]. *)
Definition math_floor (x : float) : res Z :=
  match Prim2SF x with
  | S754_nan => Raise (ValueError FloatNaNToInteger)
  | S754_infinity _ => Raise OverflowError
  | S754_zero _ => Ok 0
  | S754_finite s m e => Ok (Z.shiftl (cond_Zopp s (Z.pos m)) e)
  end.

(** [sum] of floats. *)
Definition sum_float (l : list float) : float := foldl PrimFloat.add 0%float l.

(** [0.01 + (math.ulp(1.0) * 100)] *)
Definition tolerance : float :=
  PrimFloat.add 0x1.47ae147ae147bp-7%float (PrimFloat.mul 0x1p-52%float 100%float).

(** ** Splits *)

Record Split := {
  participantId : string;
  shareType : string;
  share : option float;
  amount : option Z;
}.

(** [s["share"]] *)
Definition get_share (s : Split) : res float :=
  match share s with Some x => Ok x | None => Raise (KeyError "share") end.

(** Python's [<] on the key tuples [(str, int)] and [(float, int)]. *)
Definition str_int_lt (a b : string * nat) : bool :=
  if String.eqb a.1 b.1 then Nat.ltb a.2 b.2 else String.ltb a.1 b.1.

Definition float_int_lt (a b : float * nat) : bool :=
  if PrimFloat.eqb a.1 b.1 then Nat.ltb a.2 b.2 else PrimFloat.ltb a.1 b.1.

(** ** The four strategies *)

Definition _normalize_equal (count : nat) (total : Z) : res (list Z) :=
  let base := total `div` Z.of_nat count in
  let remainder := total - base * Z.of_nat count in
  let result := replicate count base in
  for_each incr_item (range remainder) result.

(** The part [_normalize_percentage] and [_normalize_weight] share, from
    [base_amounts] on. *)
Definition fraction_key (x : nat * float) : float * nat := (PrimFloat.opp x.2, x.1).

(** [fractional_parts], before it is sorted: [(index, fraction)] for
    every position. *)
Definition fractions (exact_amounts : list float) (base_amounts : list Z)
    : res (list (nat * float)) :=
  comprehension
    (λ i, e ← getitem exact_amounts i; b ← getitem base_amounts i;
          fb ← float_of_int b; Ok (i, PrimFloat.sub e fb))
    (seq 0 (length exact_amounts)).

Definition largest_remainder (exact_amounts : list float) (total : Z) : res (list Z) :=
  base_amounts ← comprehension math_floor exact_amounts;
  let base_total := sum_int base_amounts in
  let remainder := total - base_total in
  fractional_parts ← fractions exact_amounts base_amounts;
  let fractional_parts := sorted fraction_key float_int_lt fractional_parts in
  let result := base_amounts in
  for_each (λ i result, x ← getitem fractional_parts i; incr_item x.1 result)
    (range remainder) result.

(** [[(s["share"] / 100) * total for s in stable_splits]] *)
Definition percentage_exact_amounts (stable_splits : list Split) (total : Z)
    : res (list float) :=
  comprehension
    (λ s, x ← get_share s; t ← float_of_int total;
          Ok (PrimFloat.mul (PrimFloat.div x 100%float) t)) stable_splits.

(** [[(s["share"] / total_weight) * total for s in stable_splits]] *)
Definition weight_exact_amounts (stable_splits : list Split) (total_weight : float)
    (total : Z) : res (list float) :=
  comprehension
    (λ s, x ← get_share s; t ← float_of_int total;
          Ok (PrimFloat.mul (PrimFloat.div x total_weight) t)) stable_splits.

(** [abs(total_percentage - 100) > tolerance] *)
Definition out_of_tolerance (total_percentage : float) : bool :=
  PrimFloat.ltb tolerance (PrimFloat.abs (PrimFloat.sub total_percentage 100%float)).

Definition _normalize_percentage (stable_splits : list Split) (total : Z) : res (list Z) :=
  shares ← comprehension get_share stable_splits;
  let total_percentage := sum_float shares in
  if out_of_tolerance total_percentage
  then Raise (ValueError (PercentagesNotHundred total_percentage))
  else
    exact_amounts ← percentage_exact_amounts stable_splits total;
    largest_remainder exact_amounts total.

Definition _normalize_weight (stable_splits : list Split) (total : Z) : res (list Z) :=
  shares ← comprehension get_share stable_splits;
  let total_weight := sum_float shares in
  if PrimFloat.leb total_weight 0%float
  then Raise (ValueError WeightNotPositive)
  else
    exact_amounts ← weight_exact_amounts stable_splits total_weight total;
    largest_remainder exact_amounts total.

Definition _normalize_amount (stable_splits : list Split) (total : Z) : res (list Z) :=
  let missing_amounts := filter (λ s, amount s = None) stable_splits in
  if decide (missing_amounts ≠ [])
  then Raise (ValueError (MissingAmounts (length missing_amounts)))
  else
    amounts ← comprehension
      (λ s, match amount s with Some a => Ok a | None => Raise (KeyError "amount") end)
      stable_splits;
    let sum_amounts := sum_int amounts in
    if decide (sum_amounts ≠ total)
    then Raise (ValueError (AmountsNotTotal total sum_amounts))
    else Ok amounts.

(** ** [normalize_shares] *)

(** The canonical order: the splits paired with their input positions,
    sorted by [(participantId, originalIndex)]. *)
Definition stable_order (splits : list Split) : list (nat * Split) :=
  sorted (λ x : nat * Split, (participantId x.2, x.1)) str_int_lt (enumerate splits).

(** The [if]/[elif] chain on [share_type]. *)
Definition normalize_by_type (share_type : string) (stable_splits : list Split)
    (expense_amount : Z) : res (list Z) :=
  if String.eqb share_type "equal"
  then _normalize_equal (length stable_splits) expense_amount
  else if String.eqb share_type "percentage"
  then _normalize_percentage stable_splits expense_amount
  else if String.eqb share_type "weight"
  then _normalize_weight stable_splits expense_amount
  else if String.eqb share_type "amount"
  then _normalize_amount stable_splits expense_amount
  else Raise (ValueError (UnknownShareType share_type)).

(** The final loop: [normalized[stable[stable_index]["originalIndex"]] = amount]
    for every [(stable_index, amount)] of [enumerate(stable_normalized)]. *)
Definition scatter {B} (stable : list (nat * B)) (stable_normalized : list Z)
    (normalized : list Z) : res (list Z) :=
  for_each
    (λ '(stable_index, amount) normalized,
       x ← getitem stable stable_index; setitem normalized x.1 amount)
    (enumerate stable_normalized) normalized.

Definition normalize_shares (splits : list Split) (expense_amount : Z) : res (list Z) :=
  match splits with
  | [] => Ok []
  | first :: _ =>
    if decide (expense_amount = 0) then Ok (replicate (length splits) 0)
    else
      let share_type := shareType first in
      if negb (forallb (λ s, String.eqb (shareType s) share_type) splits)
      then Raise (ValueError MixedShareType)
      else
        let stable := stable_order splits in
        let stable_splits := stable.*2 in
        stable_normalized ← normalize_by_type share_type stable_splits expense_amount;
        let normalized := replicate (length splits) 0 in
        scatter stable stable_normalized normalized
  end.

(** ** [resolve_debts]

    [balances] is a dict from participant identifier to a signed integer,
    given by its items in iteration (insertion) order; [participants] is
    the dict of display names.  The entries of [debtors] and [creditors]
    are the dicts [{'id': p_id, 'amount': amount}], as pairs. *)

Record Settlement := {
  s_from : string;
  s_to : string;
  s_amount : Z;
}.

Record state := {
  debtors : list (string * Z);
  creditors : list (string * Z);
  d_idx : nat;
  c_idx : nat;
  settlements : list Settlement;
}.

(** [participants.get(p_id, "Unknown")] *)
Definition display (participants : gmap string string) (p_id : string) : string :=
  default "Unknown" (participants !! p_id).

(** One turn of the [while] loop: [None] when the loop condition
    [d_idx < len(debtors) and c_idx < len(creditors)] is false, the state
    after the body otherwise. *)
Definition step (participants : gmap string string) (st : state) : option state :=
  match debtors st !! d_idx st, creditors st !! c_idx st with
  | Some debtor, Some creditor =>
    let amount := Z.min (Z.abs debtor.2) creditor.2 in
    let from_name := display participants debtor.1 in
    let to_name := display participants creditor.1 in
    let settlements :=
      settlements st ++ [{| s_from := from_name; s_to := to_name; s_amount := amount |}] in
    let debtor := (debtor.1, debtor.2 + amount) in
    let creditor := (creditor.1, creditor.2 - amount) in
    Some {|
      debtors := <[d_idx st := debtor]> (debtors st);
      creditors := <[c_idx st := creditor]> (creditors st);
      d_idx := if decide (Z.abs debtor.2 < 1) then S (d_idx st) else d_idx st;
      c_idx := if decide (creditor.2 < 1) then S (c_idx st) else c_idx st;
      settlements := settlements;
    |}
  | _, _ => None
  end.

(** The [while] loop, run for at most [fuel] evaluations of its
    condition; [None] when that is not enough. *)
Fixpoint resolve_loop (fuel : nat) (participants : gmap string string) (st : state)
    : option state :=
  match fuel with
  | O => None
  | S fuel' =>
    match step participants st with
    | Some st' => resolve_loop fuel' participants st'
    | None => Some st
    end
  end.

(** The state before the loop: the entries split by sign and sorted,
    debtors ascending (most negative first), creditors descending. *)
Definition initial_state (balances : list (string * Z)) : state :=
  let debtors := filter (λ e, e.2 < 0) balances in
  let creditors := filter (λ e, 0 < e.2) balances in
  {| debtors := sorted snd Z.ltb debtors;
     creditors := sorted snd (λ a b, Z.ltb b a) creditors;
     d_idx := 0; c_idx := 0; settlements := [] |}.

Definition resolve_debts_fuel (fuel : nat) (balances : list (string * Z))
    (participants : gmap string string) : option (list Settlement) :=
  settlements <$> resolve_loop fuel participants (initial_state balances).

(** [resolve_debts], with as much fuel as the loop can need (see
    [resolve_debts_fuel_enough]). *)
Definition resolve_debts (balances : list (string * Z))
    (participants : gmap string string) : option (list Settlement) :=
  let st := initial_state balances in
  resolve_debts_fuel (S (length (debtors st) + length (creditors st))) balances participants.

(** Carrying out a settlement on a balances mapping: the balance of the
    participant displayed as the payer rises by the amount (the debt
    shrinks), the balance of the one displayed as the payee falls by it --
    the update the loop itself makes to its entries. *)
Definition apply_settlement (participants : gmap string string) (s : Settlement)
    (e : string * Z) : string * Z :=
  (e.1, e.2 + (if decide (display participants e.1 = s_from s) then s_amount s else 0)
            - (if decide (display participants e.1 = s_to s) then s_amount s else 0)).

Definition apply_settlements (participants : gmap string string)
    (ss : list Settlement) (balances : list (string * Z)) : list (string * Z) :=
  foldl (λ b s, apply_settlement participants s <$> b) balances ss.

(** ** The store

    Objects live in a store and are reached through references.  The
    objects are the arguments (the list of splits and the split dicts it
    refers to, the balances and names dicts) and everything mutable the
    two functions create: lists of ints, the list [fractional_parts], the
    lists [debtors] and [creditors] of references to entry dicts, the
    entry dicts and the list [settlements]. *)

Abbreviation loc := nat (only parsing).

Inductive obj :=
  | ORefs (items : list loc)
  | OSplit (s : Split)
  | OInts (items : list Z)
  | OFractions (items : list (nat * float))
  | OBalances (items : list (string * Z))
  | ONames (names : gmap string string)
  | OEntry (e : string * Z)
  | OSettlements (items : list Settlement).

(** A computation on the store: it returns or raises, and leaves a store. *)
Definition M (A : Type) : Type := gmap loc obj → res A * gmap loc obj.

#[global] Instance M_ret : MRet M := λ A a h, (Ok a, h).
#[global] Instance M_bind : MBind M := λ A B k m h,
  match m h with
  | (Ok a, h') => k a h'
  | (Raise e, h') => (Raise e, h')
  end.

Definition lift {A} (r : res A) : M A := λ h, (r, h).

(** A new object, at a reference that is not in use. *)
Definition alloc (o : obj) : M loc := λ h,
  let l := fresh (dom h) in (Ok l, <[l:=o]> h).

Definition store (l : loc) (o : obj) : M unit := λ h, (Ok tt, <[l:=o]> h).

Definition load (l : loc) : M obj := λ h,
  match h !! l with Some o => (Ok o, h) | None => (Raise TypeError, h) end.

Definition load_refs (l : loc) : M (list loc) :=
  o ← load l; match o with ORefs x => mret x | _ => lift (Raise TypeError) end.
Definition load_split (l : loc) : M Split :=
  o ← load l; match o with OSplit x => mret x | _ => lift (Raise TypeError) end.
Definition load_ints (l : loc) : M (list Z) :=
  o ← load l; match o with OInts x => mret x | _ => lift (Raise TypeError) end.
Definition load_fractions (l : loc) : M (list (nat * float)) :=
  o ← load l; match o with OFractions x => mret x | _ => lift (Raise TypeError) end.
Definition load_balances (l : loc) : M (list (string * Z)) :=
  o ← load l; match o with OBalances x => mret x | _ => lift (Raise TypeError) end.
Definition load_names (l : loc) : M (gmap string string) :=
  o ← load l; match o with ONames x => mret x | _ => lift (Raise TypeError) end.
Definition load_entry (l : loc) : M (string * Z) :=
  o ← load l; match o with OEntry x => mret x | _ => lift (Raise TypeError) end.
Definition load_settlements (l : loc) : M (list Settlement) :=
  o ← load l; match o with OSettlements x => mret x | _ => lift (Raise TypeError) end.

Fixpoint for_each_h {A} (body : A → M unit) (xs : list A) : M unit :=
  match xs with
  | [] => mret tt
  | x :: xs' => _ ← body x; for_each_h body xs'
  end.

Fixpoint comprehension_h {A B} (f : A → M B) (xs : list A) : M (list B) :=
  match xs with
  | [] => mret []
  | x :: xs' => y ← f x; ys ← comprehension_h f xs'; mret (y :: ys)
  end.

(** *** [normalize_shares] on the store *)

(** [result[i] += 1] and [normalized[i] = x] on a list object. *)
Definition incr_item_h (result : loc) (i : nat) : M unit :=
  items ← load_ints result;
  items ← lift (incr_item i items);
  store result (OInts items).

Definition setitem_h (normalized : loc) (i : nat) (x : Z) : M unit :=
  items ← load_ints normalized;
  items ← lift (setitem items i x);
  store normalized (OInts items).

Definition _normalize_equal_h (count : nat) (total : Z) : M loc :=
  let base := total `div` Z.of_nat count in
  let remainder := total - base * Z.of_nat count in
  result ← alloc (OInts (replicate count base));
  _ ← for_each_h (incr_item_h result) (range remainder);
  mret result.

Definition largest_remainder_h (exact_amounts : list float) (total : Z) : M loc :=
  base_amounts ← lift (comprehension math_floor exact_amounts);
  let base_total := sum_int base_amounts in
  let remainder := total - base_total in
  fps ← lift (fractions exact_amounts base_amounts);
  fractional_parts ← alloc (OFractions fps);
  _ ← (fps ← load_fractions fractional_parts;
       store fractional_parts (OFractions (sorted fraction_key float_int_lt fps)));
  result ← alloc (OInts base_amounts);
  _ ← for_each_h
        (λ i, fps ← load_fractions fractional_parts;
              x ← lift (getitem fps i);
              incr_item_h result x.1)
        (range remainder);
  mret result.

Definition _normalize_percentage_h (stable_splits : list loc) (total : Z) : M loc :=
  ss ← comprehension_h load_split stable_splits;
  shares ← lift (comprehension get_share ss);
  let total_percentage := sum_float shares in
  if out_of_tolerance total_percentage
  then lift (Raise (ValueError (PercentagesNotHundred total_percentage)))
  else
    exact_amounts ← lift (percentage_exact_amounts ss total);
    largest_remainder_h exact_amounts total.

Definition _normalize_weight_h (stable_splits : list loc) (total : Z) : M loc :=
  ss ← comprehension_h load_split stable_splits;
  shares ← lift (comprehension get_share ss);
  let total_weight := sum_float shares in
  if PrimFloat.leb total_weight 0%float
  then lift (Raise (ValueError WeightNotPositive))
  else
    exact_amounts ← lift (weight_exact_amounts ss total_weight total);
    largest_remainder_h exact_amounts total.

Definition _normalize_amount_h (stable_splits : list loc) (total : Z) : M loc :=
  ss ← comprehension_h load_split stable_splits;
  amounts ← lift (_normalize_amount ss total);
  alloc (OInts amounts).

Definition normalize_by_type_h (share_type : string) (stable_splits : list loc)
    (expense_amount : Z) : M loc :=
  if String.eqb share_type "equal"
  then _normalize_equal_h (length stable_splits) expense_amount
  else if String.eqb share_type "percentage"
  then _normalize_percentage_h stable_splits expense_amount
  else if String.eqb share_type "weight"
  then _normalize_weight_h stable_splits expense_amount
  else if String.eqb share_type "amount"
  then _normalize_amount_h stable_splits expense_amount
  else lift (Raise (ValueError (UnknownShareType share_type))).

(** [stable]: the wrappers [{"split": s, "originalIndex": i}], each holding
    a reference to its split, sorted by the [participantId] read through
    the reference. *)
Definition stable_order_h (refs : list loc) (ss : list Split) : list (nat * (loc * Split)) :=
  sorted (λ x : nat * (loc * Split), (participantId x.2.2, x.1)) str_int_lt
    (enumerate (zip refs ss)).

Definition normalize_shares_h (splits : loc) (expense_amount : Z) : M loc :=
  refs ← load_refs splits;
  match refs with
  | [] => alloc (OInts [])
  | first :: _ =>
    if decide (expense_amount = 0) then alloc (OInts (replicate (length refs) 0))
    else
      first ← load_split first;
      let share_type := shareType first in
      ss ← comprehension_h load_split refs;
      if negb (forallb (λ s, String.eqb (shareType s) share_type) ss)
      then lift (Raise (ValueError MixedShareType))
      else
        let stable := stable_order_h refs ss in
        let stable_splits := (λ x : nat * (loc * Split), x.2.1) <$> stable in
        stable_normalized ← normalize_by_type_h share_type stable_splits expense_amount;
        normalized ← alloc (OInts (replicate (length refs) 0));
        amounts ← load_ints stable_normalized;
        _ ← for_each_h
              (λ '(stable_index, amount),
                 x ← lift (getitem stable stable_index);
                 setitem_h normalized x.1 amount)
              (enumerate amounts);
        mret normalized
  end.

(** *** [resolve_debts] on the store *)

(** [l.append(r)] *)
Definition append_ref (l : loc) (r : loc) : M unit :=
  items ← load_refs l; store l (ORefs (items ++ [r])).

(** [l.sort(key=lambda x: x['amount'])], with [lt] the order of the keys. *)
Definition sort_entries (l : loc) (lt : Z → Z → bool) : M unit :=
  refs ← load_refs l;
  es ← comprehension_h load_entry refs;
  store l (ORefs (sorted (λ x : loc * (string * Z), x.2.2) lt (zip refs es)).*1).

(** One turn of the loop: [None] when the condition is false, the new
    [d_idx] and [c_idx] otherwise. *)
Definition step_h (debtors creditors settlements participants : loc)
    (d_idx c_idx : nat) : M (option (nat * nat)) :=
  ds ← load_refs debtors;
  cs ← load_refs creditors;
  match ds !! d_idx, cs !! c_idx with
  | Some debtor, Some creditor =>
    d ← load_entry debtor;
    c ← load_entry creditor;
    let amount := Z.min (Z.abs d.2) c.2 in
    names ← load_names participants;
    let from_name := display names d.1 in
    let to_name := display names c.1 in
    ss ← load_settlements settlements;
    _ ← store settlements
          (OSettlements (ss ++ [{| s_from := from_name; s_to := to_name;
                                   s_amount := amount |}]));
    d ← load_entry debtor;
    _ ← store debtor (OEntry (d.1, d.2 + amount));
    c ← load_entry creditor;
    _ ← store creditor (OEntry (c.1, c.2 - amount));
    d ← load_entry debtor;
    c ← load_entry creditor;
    mret (Some (if decide (Z.abs d.2 < 1) then S d_idx else d_idx,
                if decide (c.2 < 1) then S c_idx else c_idx))
  | _, _ => mret None
  end.

(** The loop; it returns whether it ended within the fuel. *)
Fixpoint resolve_loop_h (fuel : nat) (debtors creditors settlements participants : loc)
    (d_idx c_idx : nat) : M bool :=
  match fuel with
  | O => mret false
  | S fuel' =>
    next ← step_h debtors creditors settlements participants d_idx c_idx;
    match next with
    | Some (d_idx', c_idx') =>
        resolve_loop_h fuel' debtors creditors settlements participants d_idx' c_idx'
    | None => mret true
    end
  end.

Definition resolve_debts_h (fuel : nat) (balances participants : loc) : M (option loc) :=
  debtors ← alloc (ORefs []);
  creditors ← alloc (ORefs []);
  items ← load_balances balances;
  _ ← for_each_h
        (λ '(p_id, amount),
           if decide (amount < 0)
           then e ← alloc (OEntry (p_id, amount)); append_ref debtors e
           else if decide (0 < amount)
           then e ← alloc (OEntry (p_id, amount)); append_ref creditors e
           else mret tt)
        items;
  _ ← sort_entries debtors Z.ltb;
  _ ← sort_entries creditors (λ a b, Z.ltb b a);
  settlements ← alloc (OSettlements []);
  finished ← resolve_loop_h fuel debtors creditors settlements participants 0 0;
  mret (if finished : bool then Some settlements else None).

(** ** Worked examples *)

Definition pct (p : string) (x : float) : Split :=
  {| participantId := p; shareType := "percentage"; share := Some x; amount := None |}.
Definition wgt (p : string) (x : float) : Split :=
  {| participantId := p; shareType := "weight"; share := Some x; amount := None |}.
Definition eql (p : string) : Split :=
  {| participantId := p; shareType := "equal"; share := None; amount := None |}.
Definition amt (p : string) (a : Z) : Split :=
  {| participantId := p; shareType := "amount"; share := None; amount := Some a |}.

(** * Properties *)

(** ** The exception monad and the loop combinators *)

Lemma bind_Ok {A B} (m : res A) (k : A → res B) (b : B) :
  (x ← m; k x) = Ok b ↔ ∃ a, m = Ok a ∧ k a = Ok b.
Proof.
  destruct m as [a|e]; simpl; split.
  - intros H. by exists a.
  - by intros (a' & [= <-] & H).
  - intros [=].
  - by intros (a' & [=] & _).
Qed.

Lemma bind_Raise {A B} (m : res A) (k : A → res B) (e : exn) :
  (x ← m; k x) = Raise e ↔ m = Raise e ∨ ∃ a, m = Ok a ∧ k a = Raise e.
Proof.
  destruct m as [a|e']; simpl; split.
  - intros H. right. by exists a.
  - intros [[=]|(a' & [= <-] & H)]. done.
  - intros [= <-]. by left.
  - intros [[= <-]|(a' & [=] & _)]. done.
Qed.

Ltac inv_res :=
  repeat match goal with
  | H : Ok _ = Ok _ |- _ => injection H as H; try subst
  | H : Raise _ = Ok _ |- _ => discriminate H
  | H : Ok _ = Raise _ |- _ => discriminate H
  | H : Raise _ = Raise _ |- _ => injection H as H; try subst
  | H : mbind _ _ = Ok _ |- _ =>
      apply bind_Ok in H; destruct H as (? & ? & H)
  end.

Lemma getitem_Ok {A} (l : list A) i x : getitem l i = Ok x ↔ l !! i = Some x.
Proof. unfold getitem. destruct (l !! i); naive_solver. Qed.

Lemma setitem_Ok {A} (l : list A) i x l' :
  setitem l i x = Ok l' ↔ (i < length l)%nat ∧ l' = <[i:=x]> l.
Proof.
  unfold setitem. case_decide; split; try done.
  - by intros [= <-].
  - by intros [_ ->].
  - by intros [? _].
Qed.

Lemma incr_item_Ok i l l' :
  incr_item i l = Ok l' ↔ ∃ v, l !! i = Some v ∧ l' = <[i:=v + 1]> l.
Proof.
  unfold incr_item. rewrite bind_Ok. setoid_rewrite getitem_Ok.
  setoid_rewrite setitem_Ok. split.
  - intros (v & Hv & _ & ->). eauto.
  - intros (v & Hv & ->). exists v. eauto using lookup_lt_Some.
Qed.

Lemma comprehension_Ok {A B} (f : A → res B) xs ys :
  comprehension f xs = Ok ys ↔ Forall2 (λ x y, f x = Ok y) xs ys.
Proof.
  revert ys. induction xs as [|x xs IH]; intros ys; simpl.
  - split; [intros [= <-]; constructor | by inversion 1].
  - rewrite bind_Ok. split.
    + intros (y & Hy & H). apply bind_Ok in H as (ys' & Hys & [= <-]).
      constructor; [done | by apply IH].
    + intros H. apply Forall2_cons_inv_l in H as (y & ys' & Hy & Hys & ->).
      exists y. split; [done|].
      apply bind_Ok. exists ys'. split; [by apply IH | done].
Qed.

Lemma comprehension_length {A B} (f : A → res B) xs ys :
  comprehension f xs = Ok ys → length ys = length xs.
Proof. rewrite comprehension_Ok. intros H. symmetry. by eapply Forall2_length. Qed.


(** ** Sums of integer lists *)

Lemma sum_int_shift (a : Z) l : foldl Z.add a l = a + sum_int l.
Proof.
  unfold sum_int. revert a. induction l as [|x l IH]; intros a; simpl; [lia|].
  rewrite (IH (a + x)), (IH (0 + x)). lia.
Qed.

Lemma sum_int_nil : sum_int [] = 0.
Proof. done. Qed.

Lemma sum_int_cons x l : sum_int (x :: l) = x + sum_int l.
Proof. unfold sum_int at 1. simpl. apply sum_int_shift. Qed.

Lemma sum_int_app l1 l2 : sum_int (l1 ++ l2) = sum_int l1 + sum_int l2.
Proof.
  induction l1 as [|x l1 IH]; simpl; [by rewrite sum_int_nil|].
  rewrite !sum_int_cons, IH. lia.
Qed.

Lemma sum_int_perm l1 l2 : l1 ≡ₚ l2 → sum_int l1 = sum_int l2.
Proof.
  induction 1; rewrite ?sum_int_cons in *; lia.
Qed.

#[global] Instance sum_int_Proper : Proper ((≡ₚ) ==> (=)) sum_int.
Proof. intros l1 l2. apply sum_int_perm. Qed.

Lemma sum_int_replicate n x : sum_int (replicate n x) = Z.of_nat n * x.
Proof.
  induction n as [|n IH]; simpl; [done|]. rewrite sum_int_cons, IH. lia.
Qed.

Lemma sum_int_insert l i v x :
  l !! i = Some v → sum_int (<[i:=x]> l) = sum_int l - v + x.
Proof.
  revert i. induction l as [|y l IH]; intros [|i] Hi; simplify_eq/=.
  - rewrite !sum_int_cons. lia.
  - rewrite !sum_int_cons, (IH i) by done. lia.
Qed.

(** ** Unit increments *)

Lemma for_each_incr_sum js l l' :
  for_each incr_item js l = Ok l' →
  sum_int l' = sum_int l + Z.of_nat (length js) ∧ length l' = length l.
Proof.
  revert l. induction js as [|j js IH]; intros l; simpl.
  - intros [= <-]. split; [lia | done].
  - rewrite bind_Ok. intros (l1 & H1 & H2).
    apply incr_item_Ok in H1 as (v & Hv & ->).
    apply IH in H2 as [-> ->]. rewrite (sum_int_insert _ _ v), length_insert by done.
    split; [lia | done].
Qed.

Lemma for_each_incr_lookup js l l' :
  NoDup js → for_each incr_item js l = Ok l' →
  ∀ j v, l !! j = Some v → l' !! j = Some (v + (if decide (j ∈ js) then 1 else 0)).
Proof.
  revert l. induction js as [|j0 js IH]; intros l Hnd; simpl.
  - intros [= <-] j v Hv. rewrite Hv. f_equal.
    destruct (decide (j ∈ [])) as [Hin|_]; [by apply elem_of_nil in Hin | lia].
  - rewrite bind_Ok. intros (l1 & H1 & H2) j v Hv.
    apply NoDup_cons in Hnd as [Hj0 Hnd].
    apply incr_item_Ok in H1 as (v0 & Hv0 & ->).
    destruct (decide (j = j0)) as [->|Hne].
    + assert (v0 = v) as -> by congruence.
      rewrite (IH _ Hnd H2 j0 (v + 1)); last first.
      { apply list_lookup_insert_eq. by eapply lookup_lt_Some. }
      f_equal. destruct (decide (j0 ∈ js)) as [|_]; [done|].
      destruct (decide (j0 ∈ j0 :: js)) as [_|Hn]; [lia | set_solver].
    + rewrite (IH _ Hnd H2 j v); last first.
      { by rewrite list_lookup_insert_ne. }
      f_equal. f_equal.
      destruct (decide (j ∈ js)), (decide (j ∈ j0 :: js)); set_solver.
Qed.

Lemma for_each_incr_Ok js l :
  (∀ j, j ∈ js → (j < length l)%nat) → ∃ l', for_each incr_item js l = Ok l'.
Proof.
  revert l. induction js as [|j js IH]; intros l Hjs; simpl; [eauto|].
  destruct (lookup_lt_is_Some_2 l j) as [v Hv]; [apply Hjs; set_solver|].
  destruct (IH (<[j:=v + 1]> l)) as [l' Hl'].
  { intros j' Hj'. rewrite length_insert. apply Hjs. set_solver. }
  exists l'. apply bind_Ok. exists (<[j:=v + 1]> l). split; [|done].
  apply incr_item_Ok. eauto.
Qed.

(** ** The stable sort *)

Section sorted_facts.
Context {A K : Type} (key : A → K) (lt : K → K → bool).

Lemma insert_sorted_perm x l : insert_sorted key lt x l ≡ₚ x :: l.
Proof.
  induction l as [|y l IH]; simpl; [done|].
  destruct (lt (key y) (key x)); [|done]. rewrite IH. apply Permutation_swap.
Qed.

Lemma sorted_perm l : sorted key lt l ≡ₚ l.
Proof.
  induction l as [|x l IH]; simpl; [done|]. by rewrite insert_sorted_perm, IH.
Qed.

Lemma sorted_length l : length (sorted key lt l) = length l.
Proof. by rewrite sorted_perm. Qed.

(** When [<] is asymmetric and its complement transitive on the keys that
    occur (a strict weak order), the result is ordered: no element is
    followed by one with a smaller key. *)
Definition not_after (x y : A) : Prop := lt (key y) (key x) = false.

Context (P : K → Prop).
Hypothesis lt_asym : ∀ a b, P a → P b → lt a b = true → lt b a = false.
Hypothesis ge_trans :
  ∀ a b c, P a → P b → P c → lt b a = false → lt c b = false → lt c a = false.

Lemma insert_sorted_sorted x l :
  P (key x) → Forall (λ y, P (key y)) l →
  StronglySorted not_after l → StronglySorted not_after (insert_sorted key lt x l).
Proof using lt_asym ge_trans.
  intros Hx HP. induction 1 as [|y l Hl IH Hy]; simpl.
  - repeat constructor.
  - apply Forall_cons in HP as [HPy HP]. destruct (lt (key y) (key x)) eqn:Hlt.
    + constructor; [by apply IH|]. rewrite insert_sorted_perm. constructor; [|done].
      by apply lt_asym.
    + constructor; [by constructor|]. constructor; [done|].
      rewrite Forall_forall in Hy, HP. apply Forall_forall. intros z Hz.
      unfold not_after in *. eauto.
Qed.

Lemma sorted_sorted l :
  Forall (λ y, P (key y)) l → StronglySorted not_after (sorted key lt l).
Proof using lt_asym ge_trans.
  induction 1 as [|x l Hx HP IH]; simpl; [constructor|].
  apply insert_sorted_sorted; [done | by rewrite sorted_perm | done].
Qed.

End sorted_facts.

(** ** [enumerate] and the canonical order *)

Lemma enumerate_fst {A} (l : list A) : (enumerate l).*1 = seq 0 (length l).
Proof. unfold enumerate. apply fst_zip. by rewrite length_seq. Qed.

Lemma enumerate_snd {A} (l : list A) : (enumerate l).*2 = l.
Proof. unfold enumerate. apply snd_zip. by rewrite length_seq. Qed.

Lemma enumerate_length {A} (l : list A) : length (enumerate l) = length l.
Proof. by rewrite <-(length_fmap fst), enumerate_fst, length_seq. Qed.

Lemma enumerate_lookup {A} (l : list A) i j x :
  enumerate l !! i = Some (j, x) ↔ j = i ∧ l !! i = Some x.
Proof.
  unfold enumerate. rewrite lookup_zip_with_Some. split.
  - intros (j' & x' & [= <- <-] & Hj & Hx).
    apply lookup_seq in Hj as [-> _]. done.
  - intros [-> Hx]. exists i, x. split; [done|]. split; [|done].
    apply lookup_seq. split; [done|]. by eapply lookup_lt_Some.
Qed.

Lemma stable_order_perm splits : stable_order splits ≡ₚ enumerate splits.
Proof. apply sorted_perm. Qed.

Lemma stable_order_fst splits : (stable_order splits).*1 ≡ₚ seq 0 (length splits).
Proof. by rewrite stable_order_perm, enumerate_fst. Qed.

Lemma stable_order_snd splits : (stable_order splits).*2 ≡ₚ splits.
Proof. by rewrite stable_order_perm, enumerate_snd. Qed.

Lemma stable_order_length splits : length (stable_order splits) = length splits.
Proof. by rewrite stable_order_perm, enumerate_length. Qed.

Lemma stable_order_NoDup splits : NoDup (stable_order splits).*1.
Proof. rewrite stable_order_fst. apply NoDup_seq. Qed.

Lemma stable_order_lookup splits k i s :
  stable_order splits !! k = Some (i, s) → splits !! i = Some s.
Proof.
  intros Hk. apply list_elem_of_lookup_2 in Hk. rewrite stable_order_perm in Hk.
  apply list_elem_of_lookup in Hk as [j Hj]. by apply enumerate_lookup in Hj as [-> ?].
Qed.

(** ** Scattering back to input positions *)

Lemma scatter_aux {B} (stable : list (nat * B)) vs offset nz :
  NoDup stable.*1 →
  (∀ k, (k < length vs)%nat →
        ∃ i, stable.*1 !! (offset + k)%nat = Some i ∧ nz !! i = Some 0) →
  ∃ nz',
    for_each (λ '(stable_index, amount) normalized,
                x ← getitem stable stable_index; setitem normalized x.1 amount)
      (zip (seq offset (length vs)) vs) nz = Ok nz'
    ∧ length nz' = length nz
    ∧ sum_int nz' = sum_int nz + sum_int vs
    ∧ (∀ k i v, vs !! k = Some v → stable.*1 !! (offset + k)%nat = Some i →
                nz' !! i = Some v)
    ∧ (∀ i, (∀ k, (k < length vs)%nat → stable.*1 !! (offset + k)%nat ≠ Some i) →
            nz' !! i = nz !! i).
Proof.
  intros Hnd. revert offset nz. induction vs as [|v vs IH]; intros offset nz Hvs.
  - exists nz. simpl. rewrite sum_int_nil. split_and!; [done|done|lia| |done].
    intros k i v Hk. by rewrite lookup_nil in Hk.
  - destruct (Hvs 0%nat) as (i0 & Hi0 & Hz0); [simpl; lia|].
    rewrite Nat.add_0_r in Hi0.
    assert (∃ b, stable !! offset = Some (i0, b)) as [b Hb].
    { rewrite list_lookup_fmap in Hi0. destruct (stable !! offset) as [[i b]|]; simplify_eq/=.
      eauto. }
    destruct (IH (S offset) (<[i0:=v]> nz)) as (nz' & Hrun & Hlen & Hsum & Hget & Hframe).
    { intros k Hk. destruct (Hvs (S k)) as (i & Hi & Hz); [simpl; lia|].
      rewrite Nat.add_succ_r in Hi. exists i. split; [done|].
      rewrite list_lookup_insert_ne; [done|]. intros ->.
      pose proof (NoDup_lookup _ _ _ _ Hnd Hi0 Hi). lia. }
    exists nz'. split_and!.
    + simpl. apply bind_Ok. exists (<[i0:=v]> nz). split; [|done].
      apply bind_Ok. exists (i0, b). split; [by apply getitem_Ok|].
      apply setitem_Ok. split; [|done]. by eapply lookup_lt_Some.
    + by rewrite Hlen, length_insert.
    + rewrite Hsum, (sum_int_insert _ _ 0), sum_int_cons by done. lia.
    + intros [|k] i v' Hv' Hi; simplify_eq/=.
      * rewrite Nat.add_0_r in Hi. simplify_eq. rewrite Hframe.
        { apply list_lookup_insert_eq. by eapply lookup_lt_Some. }
        intros k _ Hk. pose proof (NoDup_lookup _ _ _ _ Hnd Hi0 Hk). lia.
      * eapply Hget; [done|]. by rewrite Nat.add_succ_r in Hi.
    + intros i Hi. rewrite Hframe.
      * apply list_lookup_insert_ne. intros ->. apply (Hi 0%nat); [simpl; lia|].
        by rewrite Nat.add_0_r.
      * intros k Hk. specialize (Hi (S k)). rewrite Nat.add_succ_r in Hi.
        apply Hi. simpl. lia.
Qed.

Lemma scatter_spec {B} (stable : list (nat * B)) vs n :
  stable.*1 ≡ₚ seq 0 n → length vs = n →
  ∃ normalized,
    scatter stable vs (replicate n 0) = Ok normalized
    ∧ length normalized = n
    ∧ sum_int normalized = sum_int vs
    ∧ (∀ k i v, vs !! k = Some v → stable.*1 !! k = Some i → normalized !! i = Some v).
Proof.
  intros Hperm Hlen.
  assert (NoDup stable.*1) as Hnd by (rewrite Hperm; apply NoDup_seq).
  destruct (scatter_aux stable vs 0 (replicate n 0) Hnd)
    as (nz & Hrun & Hl & Hsum & Hget & _).
  { intros k Hk. destruct (lookup_lt_is_Some_2 stable.*1 k) as [i Hi].
    { rewrite Hperm, length_seq. lia. }
    exists i. split; [done|]. apply lookup_replicate_2.
    apply list_elem_of_lookup_2 in Hi. rewrite Hperm in Hi.
    apply elem_of_seq in Hi. lia. }
  exists nz. split_and!; [done | by rewrite Hl, length_replicate | | done].
  rewrite Hsum, sum_int_replicate. lia.
Qed.

(** ** The order on [(participantId, originalIndex)] keys *)

(** [a] is not after [b]: the mathematical reading of the key order. *)
Definition key_le (a b : string * nat) : Prop :=
  String.le a.1 b.1 ∧ (a.1 = b.1 → (a.2 ≤ b.2)%nat).

Lemma string_ltb_false s1 s2 : s1 ≠ s2 → String.ltb s1 s2 = false ↔ String.le s2 s1.
Proof.
  intros Hne. unfold String.le, String.leb, String.ltb.
  rewrite (String.compare_antisym s1 s2).
  destruct (String.compare s2 s1) eqn:Hc; simpl.
  - apply String.compare_eq_iff in Hc. congruence.
  - done.
  - split; [done|]. intros [].
Qed.

Lemma str_int_lt_false a b : str_int_lt b a = false ↔ key_le a b.
Proof.
  unfold str_int_lt, key_le. destruct (String.eqb_spec b.1 a.1) as [Heq|Hne].
  - rewrite Heq, Nat.ltb_ge. split; [|naive_solver]. intros H. split; [done|]. done.
  - rewrite string_ltb_false by done. split; [|naive_solver].
    intros H. split; [done|]. intros Heq. by symmetry in Heq.
Qed.

Lemma str_int_lt_true a b : str_int_lt a b = true ↔ key_le a b ∧ a ≠ b.
Proof.
  destruct (str_int_lt a b) eqn:Hab.
  - split; [intros _|done].
    assert (a ≠ b) as Hne.
    { intros ->. unfold str_int_lt in Hab. rewrite String.eqb_refl in Hab.
      apply Nat.ltb_lt in Hab. lia. }
    split; [|done]. unfold str_int_lt, key_le in *.
    destruct (String.eqb_spec a.1 b.1) as [Heq|Hne1].
    + apply Nat.ltb_lt in Hab. rewrite Heq. split; [done|]. lia.
    + split; [|done]. unfold String.le, String.leb, String.ltb in *.
      by destruct (String.compare a.1 b.1).
  - split; [done|]. intros [Hle Hne]. apply str_int_lt_false in Hab.
    destruct Hle as [Hle1 Hle2], Hab as [Hab1 Hab2].
    assert (a.1 = b.1) as Heq by (by apply (anti_symm String.le)).
    destruct Hne. destruct a, b; simpl in *. f_equal; [done|].
    specialize (Hle2 Heq). symmetry in Heq. specialize (Hab2 Heq). lia.
Qed.

Lemma key_le_trans a b c : key_le a b → key_le b c → key_le a c.
Proof.
  intros [H1 H2] [H3 H4]. split; [by etrans|]. intros Heq.
  assert (a.1 = b.1) as Hab.
  { apply (anti_symm String.le); [done|]. by rewrite Heq. }
  specialize (H2 Hab). rewrite <-Hab in H4. specialize (H4 Heq). lia.
Qed.

Lemma str_int_lt_asym a b : str_int_lt a b = true → str_int_lt b a = false.
Proof. rewrite str_int_lt_true, str_int_lt_false. by intros [? _]. Qed.

Lemma str_int_ge_trans a b c :
  str_int_lt b a = false → str_int_lt c b = false → str_int_lt c a = false.
Proof. rewrite !str_int_lt_false. apply key_le_trans. Qed.

(** The canonical order is ordered by participant identifier, then by
    input position. *)
Definition canonical_le (x y : nat * Split) : Prop :=
  key_le (participantId x.2, x.1) (participantId y.2, y.1).

Lemma stable_order_sorted splits : StronglySorted canonical_le (stable_order splits).
Proof.
  unfold stable_order.
  pose proof (sorted_sorted (λ x : nat * Split, (participantId x.2, x.1)) str_int_lt
                (λ _, True) (λ a b _ _, str_int_lt_asym a b)
                (λ a b c _ _ _, str_int_ge_trans a b c) (enumerate splits)) as H.
  specialize (H ltac:(by apply Forall_true)).
  induction H as [|x l Hl IH Hx]; constructor; [done|].
  eapply Forall_impl; [exact Hx|]. intros y Hy. by apply str_int_lt_false.
Qed.

(** ** [normalize_shares]: structure *)

Lemma same_type_check ty splits :
  forallb (λ s, String.eqb (shareType s) ty) splits = true
  ↔ Forall (λ s, shareType s = ty) splits.
Proof.
  rewrite forallb_forall, Forall_forall. split; intros H s Hs.
  - apply String.eqb_eq, H. by apply list_elem_of_In.
  - apply String.eqb_eq, H. by apply list_elem_of_In.
Qed.

Lemma normalize_shares_unfold first rest T :
  T ≠ 0 → Forall (λ s, shareType s = shareType first) (first :: rest) →
  normalize_shares (first :: rest) T =
    (stable_normalized ←
       normalize_by_type (shareType first) (stable_order (first :: rest)).*2 T;
     scatter (stable_order (first :: rest)) stable_normalized
       (replicate (length (first :: rest)) 0)).
Proof.
  intros HT Hty. unfold normalize_shares. rewrite decide_False by done.
  apply same_type_check in Hty. by rewrite Hty.
Qed.

Lemma normalize_shares_mixed first rest T :
  T ≠ 0 → ¬ Forall (λ s, shareType s = shareType first) (first :: rest) →
  normalize_shares (first :: rest) T = Raise (ValueError MixedShareType).
Proof.
  intros HT Hty. unfold normalize_shares. rewrite decide_False by done.
  rewrite <-same_type_check in Hty. apply not_true_is_false in Hty. by rewrite Hty.
Qed.

(** Once the strategy has returned one amount per split, the scatter
    succeeds, keeps the sum and puts each amount at its split's position. *)
Lemma normalize_shares_scatter first rest T sn :
  T ≠ 0 → Forall (λ s, shareType s = shareType first) (first :: rest) →
  normalize_by_type (shareType first) (stable_order (first :: rest)).*2 T = Ok sn →
  length sn = length (first :: rest) →
  ∃ res, normalize_shares (first :: rest) T = Ok res
    ∧ length res = length (first :: rest)
    ∧ sum_int res = sum_int sn
    ∧ ∀ k i s, stable_order (first :: rest) !! k = Some (i, s) → res !! i = sn !! k.
Proof.
  intros HT Hty Hsn Hlen. rewrite normalize_shares_unfold, Hsn by done. simpl mbind.
  destruct (scatter_spec (stable_order (first :: rest)) sn (length (first :: rest)))
    as (res & Hres & Hl & Hsum & Hget); [apply stable_order_fst | done |].
  exists res. split_and!; [done..|].
  intros k i s Hk. destruct (lookup_lt_is_Some_2 sn k) as [v Hv].
  { rewrite Hlen, <-stable_order_length. by eapply lookup_lt_Some. }
  rewrite Hv. eapply Hget; [done|]. by rewrite list_lookup_fmap, Hk.
Qed.

(** ** The [equal] strategy *)

Lemma _normalize_equal_spec count T :
  (0 < count)%nat →
  let base := T `div` Z.of_nat count in
  let remainder := T - base * Z.of_nat count in
  ∃ sn, _normalize_equal count T = Ok sn
    ∧ length sn = count
    ∧ sum_int sn = T
    ∧ ∀ k, (k < count)%nat →
        sn !! k = Some (base + (if decide (Z.of_nat k < remainder) then 1 else 0)).
Proof.
  intros Hc base remainder. unfold _normalize_equal. fold base. fold remainder.
  assert (0 ≤ remainder < Z.of_nat count) as Hr.
  { unfold remainder, base.
    pose proof (Z.mod_pos_bound T (Z.of_nat count) ltac:(lia)) as Hm.
    rewrite Z.mod_eq in Hm by lia. lia. }
  destruct (for_each_incr_Ok (range remainder) (replicate count base)) as [sn Hsn].
  { intros j Hj. apply elem_of_seq in Hj. rewrite length_replicate. lia. }
  exists sn. split; [done|].
  pose proof (for_each_incr_sum _ _ _ Hsn) as [Hsum Hlen].
  rewrite length_replicate in Hlen. split; [done|]. split.
  - rewrite Hsum, sum_int_replicate. unfold range. rewrite length_seq.
    unfold remainder. lia.
  - intros k Hk.
    rewrite (for_each_incr_lookup _ _ _ (NoDup_seq _ _) Hsn k base)
      by (by apply lookup_replicate_2).
    f_equal. f_equal. unfold range.
    destruct (decide (k ∈ seq 0 (Z.to_nat remainder))) as [Hin|Hin];
      rewrite elem_of_seq in Hin; case_decide; lia.
Qed.

(** C4. For a non-empty list of [equal] splits of length [n] and a total
    [T ≠ 0], [normalize_shares] returns one share per split; the split at
    canonical position [k] (the canonical order being the splits sorted by
    participant identifier, then input position) receives
    [base = T div n], plus one unit exactly when [k < T - base * n]. *)
Theorem equal_split_shares (splits : list Split) (T : Z) :
  splits ≠ [] → T ≠ 0 → Forall (λ s, shareType s = "equal") splits →
  let n := Z.of_nat (length splits) in
  let base := T `div` n in
  ∃ res, normalize_shares splits T = Ok res
    ∧ length res = length splits
    ∧ stable_order splits ≡ₚ enumerate splits
    ∧ StronglySorted canonical_le (stable_order splits)
    ∧ ∀ k i s, stable_order splits !! k = Some (i, s) →
        res !! i = Some (base + (if decide (Z.of_nat k < T - base * n) then 1 else 0)).
Proof.
  intros Hne HT Hty n base. destruct splits as [|first rest]; [done|].
  assert (shareType first = "equal") as Hfirst by (by inversion Hty).
  destruct (_normalize_equal_spec (length (stable_order (first :: rest)).*2) T)
    as (sn & Hsn & Hlen & _ & Hget).
  { rewrite length_fmap, stable_order_length. simpl. lia. }
  rewrite length_fmap, stable_order_length in Hlen, Hget.
  destruct (normalize_shares_scatter first rest T sn) as (res & Hres & Hl & _ & Hpos);
    [done | by rewrite Hfirst | by rewrite Hfirst | done |].
  exists res. split_and!;
    [done | done | apply stable_order_perm | apply stable_order_sorted |].
  intros k i s Hk. rewrite (Hpos k i s Hk). apply Hget.
  rewrite <-stable_order_length. by eapply lookup_lt_Some.
Qed.

Lemma equal_split_shares_applied :
  ∃ res, normalize_shares [eql "c"; eql "a"; eql "b"] 100 = Ok res
    ∧ length res = 3%nat
    ∧ stable_order [eql "c"; eql "a"; eql "b"] ≡ₚ enumerate [eql "c"; eql "a"; eql "b"]
    ∧ StronglySorted canonical_le (stable_order [eql "c"; eql "a"; eql "b"])
    ∧ ∀ k i s, stable_order [eql "c"; eql "a"; eql "b"] !! k = Some (i, s) →
        res !! i = Some (33 + (if decide (Z.of_nat k < 1) then 1 else 0)).
Proof.
  apply (equal_split_shares [eql "c"; eql "a"; eql "b"] 100);
    [done | lia | repeat constructor].
Defined.

(** ** The [amount] strategy *)

Lemma filter_eq_nil {A} (P : A → Prop) `{∀ x, Decision (P x)} (l : list A) :
  filter P l = [] ↔ Forall (λ x, ¬ P x) l.
Proof.
  induction l as [|x l IH]; [by rewrite filter_nil|].
  rewrite filter_cons, Forall_cons. destruct (decide (P x)); [|by rewrite IH; naive_solver].
  split; [done | by intros [? _]].
Qed.

Lemma amounts_present ss :
  filter (λ s, amount s = None) ss = [] ↔ ∃ amounts, Forall2 (λ s a, amount s = Some a) ss amounts.
Proof.
  rewrite filter_eq_nil. induction ss as [|s ss IH].
  - split; [exists []; constructor | constructor].
  - rewrite Forall_cons, IH. split.
    + intros [Hs [amounts Ha]]. destruct (amount s) as [a|] eqn:Hs'; [|done].
      exists (a :: amounts). by constructor.
    + intros [amounts Ha]. apply Forall2_cons_inv_l in Ha as (a & amounts' & Ha & Has & ->).
      split; [by rewrite Ha | by exists amounts'].
Qed.

Lemma _normalize_amount_Ok ss T sn :
  _normalize_amount ss T = Ok sn ↔
    Forall2 (λ s a, amount s = Some a) ss sn ∧ sum_int sn = T.
Proof.
  unfold _normalize_amount. split.
  - case_decide as Hmiss; [done|]. intros H. apply bind_Ok in H as (amounts & Ham & H).
    case_decide as Hsum; [done|]. injection H as <-.
    split; [|done]. apply comprehension_Ok in Ham.
    eapply Forall2_impl; [exact Ham|]. intros s a. simpl.
    destruct (amount s); [by intros [= ->] | done].
  - intros [Hall Hsum]. rewrite decide_False; last first.
    { intros Hmiss. apply Hmiss, amounts_present. eauto. }
    apply bind_Ok. exists sn. split.
    + apply comprehension_Ok. eapply Forall2_impl; [exact Hall|].
      intros s a Ha. simpl. by rewrite Ha.
    + by rewrite decide_False by (by intros []).
Qed.

(** ** Largest remainder: the sum *)

Lemma for_each_award (fp : list (nat * float)) js l l' :
  for_each (λ i result, x ← getitem fp i; incr_item x.1 result) js l = Ok l' ↔
  ∃ xs, Forall2 (λ i x, fp !! i = Some x) js xs ∧ for_each incr_item xs.*1 l = Ok l'.
Proof.
  revert l. induction js as [|j js IH]; intros l; simpl.
  - split.
    + intros [= <-]. exists []. split; [constructor | done].
    + intros (xs & Hxs & H). apply Forall2_nil_inv_l in Hxs as ->. done.
  - rewrite bind_Ok. split.
    + intros (l1 & H1 & H2). apply bind_Ok in H1 as (x & Hx & H1).
      apply getitem_Ok in Hx. apply IH in H2 as (xs & Hxs & H2).
      exists (x :: xs). split; [by constructor|]. simpl. apply bind_Ok. eauto.
    + intros (xs & Hxs & H). apply Forall2_cons_inv_l in Hxs as (x & xs' & Hx & Hxs & ->).
      simpl in H. apply bind_Ok in H as (l1 & H1 & H2). exists l1. split.
      * apply bind_Ok. exists x. split; [by apply getitem_Ok | done].
      * apply IH. eauto.
Qed.

Lemma lookup_range_take {A} (fp xs : list A) r :
  Forall2 (λ i x, fp !! i = Some x) (seq 0 r) xs ↔ (r ≤ length fp)%nat ∧ xs = take r fp.
Proof.
  split.
  - intros H. assert (length xs = r) as Hlen.
    { apply Forall2_length in H. by rewrite length_seq in H. }
    assert (r ≤ length fp)%nat as Hr.
    { destruct r as [|r]; [lia|]. destruct (lookup_lt_is_Some_2 xs r) as [x Hx]; [lia|].
      eapply Forall2_lookup_r in H as (i & Hi & Hfp); [|done].
      apply lookup_seq in Hi as [-> _]. apply lookup_lt_Some in Hfp. simpl in Hfp. lia. }
    split; [done|]. apply list_eq. intros i.
    destruct (decide (i < r)%nat) as [Hi|Hi].
    + rewrite lookup_take_lt by done.
      destruct (lookup_lt_is_Some_2 xs i) as [x Hx]; [lia|].
      eapply Forall2_lookup_r in H as (i' & Hi' & Hfp); [|done].
      apply lookup_seq in Hi' as [-> _]. by rewrite Hx.
    + rewrite lookup_take_ge by lia. apply lookup_ge_None. lia.
  - intros [Hr ->]. apply Forall2_same_length_lookup. split.
    + rewrite length_seq, length_take. lia.
    + intros i j x Hj Hx. apply lookup_seq in Hj as [-> Hi].
      by rewrite lookup_take_lt in Hx.
Qed.

Lemma largest_remainder_Ok exact T sn :
  largest_remainder exact T = Ok sn ↔
  ∃ bases fp,
    comprehension math_floor exact = Ok bases
    ∧ fractions exact bases = Ok fp
    ∧ (Z.to_nat (T - sum_int bases) ≤ length fp)%nat
    ∧ for_each incr_item
        (take (Z.to_nat (T - sum_int bases)) (sorted fraction_key float_int_lt fp)).*1
        bases = Ok sn.
Proof.
  unfold largest_remainder. rewrite bind_Ok. split.
  - intros (bases & Hb & H). apply bind_Ok in H as (fp & Hfp & H).
    apply for_each_award in H as (xs & Hxs & H). unfold range in Hxs.
    apply lookup_range_take in Hxs as [Hr ->]. rewrite sorted_length in Hr.
    exists bases, fp. done.
  - intros (bases & fp & Hb & Hfp & Hr & H). exists bases. split; [done|].
    apply bind_Ok. exists fp. split; [done|]. apply for_each_award.
    eexists. split; [|exact H]. apply lookup_range_take. by rewrite sorted_length.
Qed.

Lemma largest_remainder_sum exact T sn :
  largest_remainder exact T = Ok sn →
  ∃ bases, comprehension math_floor exact = Ok bases
    ∧ length sn = length exact
    ∧ (sum_int bases ≤ T → sum_int sn = T)
    ∧ (T < sum_int bases → sn = bases).
Proof.
  rewrite largest_remainder_Ok. intros (bases & fp & Hb & Hfp & Hr & H).
  exists bases. split; [done|]. pose proof (for_each_incr_sum _ _ _ H) as [Hsum Hlen].
  split_and!.
  - rewrite Hlen. by eapply comprehension_length.
  - intros Hle. rewrite Hsum, length_fmap, length_take, sorted_length. lia.
  - intros Hlt. replace (Z.to_nat (T - sum_int bases)) with 0%nat in H by lia.
    simpl in H. by injection H.
Qed.

(** ** The sum of the shares *)

(** The exact real-valued amounts the [percentage] and [weight]
    strategies floor, in canonical order. *)
Definition exact_amounts (splits : list Split) (T : Z) : res (list float) :=
  let stable_splits := (stable_order splits).*2 in
  match splits with
  | [] => Ok []
  | first :: _ =>
    if String.eqb (shareType first) "percentage"
    then percentage_exact_amounts stable_splits T
    else shares ← comprehension get_share stable_splits;
         weight_exact_amounts stable_splits (sum_float shares) T
  end.

Lemma normalize_by_type_sum ty ss T sn :
  ss ≠ [] → normalize_by_type ty ss T = Ok sn →
  length sn = length ss ∧
  (sum_int sn = T ∨
   ∃ exact bases,
     (if String.eqb ty "percentage" then percentage_exact_amounts ss T
      else shares ← comprehension get_share ss;
           weight_exact_amounts ss (sum_float shares) T) = Ok exact
     ∧ (ty = "percentage" ∨ ty = "weight")
     ∧ comprehension math_floor exact = Ok bases
     ∧ T < sum_int bases ∧ sn = bases).
Proof.
  intros Hne. unfold normalize_by_type.
  destruct (String.eqb_spec ty "equal") as [->|Hequal].
  { intros H. destruct (_normalize_equal_spec (length ss) T) as (sn' & Hsn' & Hl & Hs & _).
    { destruct ss; [done | simpl; lia]. }
    rewrite Hsn' in H. injection H as <-. eauto. }
  destruct (String.eqb_spec ty "percentage") as [->|Hpct].
  { unfold _normalize_percentage. intros H. apply bind_Ok in H as (shares & Hsh & H).
    destruct (out_of_tolerance _); [done|]. apply bind_Ok in H as (exact & Hex & H).
    apply largest_remainder_sum in H as (bases & Hb & Hl & Hle & Hgt).
    split; [rewrite Hl; by eapply comprehension_length|].
    destruct (decide (sum_int bases ≤ T)); [left; auto | right].
    exists exact, bases. split_and!; [done | by left | done | lia | apply Hgt; lia]. }
  destruct (String.eqb_spec ty "weight") as [->|Hwgt].
  { unfold _normalize_weight. intros H. apply bind_Ok in H as (shares & Hsh & H).
    destruct (PrimFloat.leb _ _); [done|]. apply bind_Ok in H as (exact & Hex & H).
    apply largest_remainder_sum in H as (bases & Hb & Hl & Hle & Hgt).
    split; [rewrite Hl; by eapply comprehension_length|].
    destruct (decide (sum_int bases ≤ T)); [left; auto | right].
    exists exact, bases. rewrite Hsh. simpl mbind.
    split_and!; [done | by right | done | lia | apply Hgt; lia]. }
  destruct (String.eqb_spec ty "amount") as [->|Hamt]; [|done].
  intros H. apply _normalize_amount_Ok in H as [Hall Hsum].
  split; [symmetry; by eapply Forall2_length | by left].
Qed.




(** ** Binary64 facts

    What is used of IEEE 754 arithmetic: rounding never produces a NaN,
    and [<], [==] order the floats that are not NaN. *)
















Definition lex_compare (a b : Z * Z * Z) : comparison :=
  match a.1.1 ?= b.1.1 with
  | Eq => match a.1.2 ?= b.1.2 with Eq => a.2 ?= b.2 | c => c end
  | c => c
  end.


Lemma lex_compare_spec a b :
  match lex_compare a b with
  | Lt => a.1.1 < b.1.1 ∨ (a.1.1 = b.1.1 ∧ (a.1.2 < b.1.2 ∨ (a.1.2 = b.1.2 ∧ a.2 < b.2)))
  | Eq => a = b
  | Gt => b.1.1 < a.1.1 ∨ (a.1.1 = b.1.1 ∧ (b.1.2 < a.1.2 ∨ (a.1.2 = b.1.2 ∧ b.2 < a.2)))
  end.
Proof.
  destruct a as [[a1 a2] a3], b as [[b1 b2] b3]. unfold lex_compare. simpl.
  destruct (Z.compare_spec a1 b1); [|lia..].
  destruct (Z.compare_spec a2 b2); [|lia..].
  destruct (Z.compare_spec a3 b3); [congruence|lia..].
Qed.


Lemma lex_compare_antisym a b : lex_compare b a = CompOpp (lex_compare a b).
Proof.
  unfold lex_compare. rewrite (Z.compare_antisym a.1.1), (Z.compare_antisym a.1.2),
    (Z.compare_antisym a.2).
  destruct (a.1.1 ?= b.1.1); simpl; [|done..].
  destruct (a.1.2 ?= b.1.2); simpl; done.
Qed.


Lemma lex_lt_trans a b c :
  lex_compare a b = Lt → lex_compare b c = Lt → lex_compare a c = Lt.
Proof.
  intros Hab Hbc. pose proof (lex_compare_spec a b) as H1.
  pose proof (lex_compare_spec b c) as H2. pose proof (lex_compare_spec a c) as H3.
  rewrite Hab in H1. rewrite Hbc in H2.
  destruct (lex_compare a c); [subst; lia | done | lia].
Qed.
















(** ** Largest remainder: who receives the extra units *)





(** ** The [percentage] strategy *)



(** C5 (a defect of the code). [normalize_shares] is to floor the exact
    amounts and hand out the remainder one unit at a time, by largest
    fractional part.  On three percentage splits of 33.33 it does not:
    the list passes the tolerance check (the percentages sum to 99.99),
    on a total of 100000 the floors sum to 99990 or less, so that the
    remainder exceeds the three splits there are, and the loop that hands
    it out runs past the end of [fractional_parts]: the call ends in an
    [IndexError], with no shares returned. *)
Lemma percentage_remainder_overrun :
  out_of_tolerance (sum_float [33.33; 33.33; 33.33]%float) = false
  ∧ (∃ exact bases,
       percentage_exact_amounts [pct "a" 33.33; pct "b" 33.33; pct "c" 33.33] 100000
         = Ok exact
       ∧ comprehension math_floor exact = Ok bases
       ∧ 3 < 100000 - sum_int bases)
  ∧ normalize_shares [pct "a" 33.33; pct "b" 33.33; pct "c" 33.33] 100000
      = Raise IndexError.
Proof.
  split; [by vm_compute|]. split; [|by vm_compute].
  eexists _, _. split; [by vm_compute|]. split; [by vm_compute|]. by vm_compute.
Qed.

(** ** Validation errors *)

(** The validation errors: the six [raise ValueError] statements of
    [normalize_shares] and its strategies.  In Python they are all of the
    one class [ValueError], and so is the error [math.floor] raises when
    it is given a NaN; that seventh [ValueError] is raised by the library
    and reports no condition on the splits.  [is_validation_error] tells
    the six from the seventh by the place that raises, which the model
    keeps in the argument of [ValueError]. *)
Definition is_validation_error (e : exn) : bool :=
  match e with
  | ValueError FloatNaNToInteger => false
  | ValueError _ => true
  | _ => false
  end.

Definition raises_validation {A} (r : res A) : bool :=
  match r with Raise e => is_validation_error e | Ok _ => false end.

(** What is wrong with a list [splits] of splits that all have type [ty],
    for the total [T]; [ss] is the list in canonical order, the order in
    which the floating-point sums are taken. *)
Definition type_invalid (ty : string) (splits ss : list Split) (T : Z) : Prop :=
  (ty = "amount" ∧
     ((∃ s, s ∈ splits ∧ amount s = None) ∨ sum_int (omap amount splits) ≠ T))
  ∨ (ty = "percentage" ∧
     ∃ shares, Forall2 (λ s x, share s = Some x) ss shares
       ∧ out_of_tolerance (sum_float shares) = true)
  ∨ (ty = "weight" ∧
     ∃ shares, Forall2 (λ s x, share s = Some x) ss shares
       ∧ PrimFloat.leb (sum_float shares) 0 = true)
  ∨ (ty ≠ "equal" ∧ ty ≠ "percentage" ∧ ty ≠ "weight" ∧ ty ≠ "amount").

(** The inputs on which validation fails. *)
Definition invalid (splits : list Split) (T : Z) : Prop :=
  ∃ first, head splits = Some first ∧ T ≠ 0 ∧
    ((∃ s, s ∈ splits ∧ shareType s ≠ shareType first)
     ∨ ((∀ s, s ∈ splits → shareType s = shareType first)
        ∧ type_invalid (shareType first) splits (stable_order splits).*2 T)).

Lemma raises_validation_bind {A B} (m : res A) (k : A → res B) :
  raises_validation (x ← m; k x) =
    match m with Ok a => raises_validation (k a) | Raise e => is_validation_error e end.
Proof. by destruct m. Qed.

Lemma comprehension_Raise {A B} (f : A → res B) xs e :
  comprehension f xs = Raise e → ∃ x, x ∈ xs ∧ f x = Raise e.
Proof.
  induction xs as [|x xs IH]; simpl; [done|].
  destruct (f x) as [y|e'] eqn:Hx; simpl.
  - destruct (comprehension f xs) as [ys|e'']; simpl; [done|].
    intros [= ->]. destruct IH as (x' & Hin & Hx'); [done|]. exists x'. set_solver.
  - intros [= ->]. exists x. set_solver.
Qed.

Lemma for_each_Raise {A S} (body : A → S → res S) xs s e :
  for_each body xs s = Raise e → ∃ x s', body x s' = Raise e.
Proof.
  revert s. induction xs as [|x xs IH]; intros s; simpl; [done|].
  destruct (body x s) as [s'|e'] eqn:Hx; simpl; [apply IH|].
  intros [= ->]. eauto.
Qed.

Lemma getitem_Raise {A} (l : list A) i e : getitem l i = Raise e → e = IndexError.
Proof. unfold getitem. destruct (l !! i); naive_solver. Qed.

Lemma setitem_Raise {A} (l : list A) i x e : setitem l i x = Raise e → e = IndexError.
Proof. unfold setitem. case_decide; naive_solver. Qed.

Lemma incr_item_Raise i l e : incr_item i l = Raise e → e = IndexError.
Proof.
  unfold incr_item. destruct (getitem l i) eqn:H; simpl.
  - apply setitem_Raise.
  - intros [= <-]. by eapply getitem_Raise.
Qed.

Lemma float_of_int_Raise z e : float_of_int z = Raise e → e = OverflowError.
Proof. unfold float_of_int. case_match; naive_solver. Qed.

Lemma math_floor_Raise x e :
  math_floor x = Raise e → is_validation_error e = false.
Proof. unfold math_floor. destruct (Prim2SF x); naive_solver. Qed.

Lemma get_share_Raise s e : get_share s = Raise e → e = KeyError "share".
Proof. unfold get_share. destruct (share s); naive_solver. Qed.

Lemma get_shares_Ok ss shares :
  comprehension get_share ss = Ok shares ↔ Forall2 (λ s x, share s = Some x) ss shares.
Proof.
  rewrite comprehension_Ok. split; intros H; (eapply Forall2_impl; [exact H|]);
    intros s x; unfold get_share; destruct (share s); naive_solver.
Qed.

Lemma scatter_Raise {B} (stable : list (nat * B)) sn nz e :
  scatter stable sn nz = Raise e → is_validation_error e = false.
Proof.
  intros H. apply for_each_Raise in H as ([k a] & nz' & H).
  destruct (getitem stable k) eqn:Hg; simpl in H.
  - by apply setitem_Raise in H as ->.
  - injection H as <-. by apply getitem_Raise in Hg as ->.
Qed.

Lemma _normalize_equal_Raise count T e :
  _normalize_equal count T = Raise e → is_validation_error e = false.
Proof.
  intros H. apply for_each_Raise in H as (i & l & H). by apply incr_item_Raise in H as ->.
Qed.

Lemma largest_remainder_Raise exact T e :
  largest_remainder exact T = Raise e → is_validation_error e = false.
Proof.
  unfold largest_remainder. destruct (comprehension math_floor exact) as [bases|e'] eqn:Hb.
  2:{ simpl. intros [= <-]. apply comprehension_Raise in Hb as (x & _ & Hx).
      by eapply math_floor_Raise. }
  simpl. destruct (fractions exact bases) as [fp|e'] eqn:Hfp; simpl.
  - intros H. apply for_each_Raise in H as (i & l & H).
    destruct (getitem _ i) eqn:Hg; simpl in H.
    + by apply incr_item_Raise in H as ->.
    + injection H as <-. by apply getitem_Raise in Hg as ->.
  - intros [= <-]. apply comprehension_Raise in Hfp as (i & _ & H).
    destruct (getitem exact i) eqn:Hg1; simpl in H;
      [|injection H as <-; by apply getitem_Raise in Hg1 as ->].
    destruct (getitem bases i) eqn:Hg2; simpl in H;
      [|injection H as <-; by apply getitem_Raise in Hg2 as ->].
    destruct (float_of_int _) eqn:Hf; simpl in H; [done|].
    injection H as <-. by apply float_of_int_Raise in Hf as ->.
Qed.

Lemma exact_amounts_Raise ss (d : float) T e :
  comprehension
    (λ s, x ← get_share s; t ← float_of_int T;
          Ok (PrimFloat.mul (PrimFloat.div x d) t)) ss = Raise e →
  is_validation_error e = false.
Proof.
  intros H. apply comprehension_Raise in H as (s & _ & H).
  destruct (get_share s) eqn:Hs; simpl in H.
  - destruct (float_of_int T) eqn:Hf; simpl in H; [done|].
    injection H as <-. by apply float_of_int_Raise in Hf as ->.
  - injection H as <-. by apply get_share_Raise in Hs as ->.
Qed.

Lemma Forall2_share_functional ss (xs ys : list float) :
  Forall2 (λ s x, share s = Some x) ss xs → Forall2 (λ s x, share s = Some x) ss ys →
  xs = ys.
Proof.
  intros H. revert ys. induction H as [|s x ss xs Hx H IH]; intros ys Hys.
  - by apply Forall2_nil_inv_l in Hys.
  - apply Forall2_cons_inv_l in Hys as (y & ys' & Hy & Hys & ->).
    f_equal; [congruence | by apply IH].
Qed.

Lemma omap_amount_all ss amounts :
  Forall2 (λ s a, amount s = Some a) ss amounts → omap amount ss = amounts.
Proof.
  induction 1 as [|s a ss amounts Ha H IH]; [done|].
  cbn [omap list_omap]. by rewrite Ha, IH.
Qed.

Lemma _normalize_percentage_validation ss T :
  raises_validation (_normalize_percentage ss T) = true ↔
  ∃ shares, Forall2 (λ s x, share s = Some x) ss shares
    ∧ out_of_tolerance (sum_float shares) = true.
Proof.
  unfold _normalize_percentage. rewrite raises_validation_bind.
  destruct (comprehension get_share ss) as [shares|e] eqn:Hsh.
  - apply get_shares_Ok in Hsh. destruct (out_of_tolerance (sum_float shares)) eqn:Htol.
    + split; [eauto | done].
    + rewrite raises_validation_bind. split.
      * destruct (percentage_exact_amounts ss T) as [exact|e] eqn:Hex.
        -- destruct (largest_remainder exact T) as [sn|e] eqn:Hlr; [done|].
           simpl. by rewrite (largest_remainder_Raise _ _ _ Hlr).
        -- by rewrite (exact_amounts_Raise _ _ _ _ Hex).
      * intros (shares' & Hsh' & Htol').
        rewrite (Forall2_share_functional _ _ _ Hsh Hsh') in Htol. congruence.
  - split.
    + apply comprehension_Raise in Hsh as (s & _ & Hs).
      by apply get_share_Raise in Hs as ->.
    + intros (shares & Hsh' & _). apply get_shares_Ok in Hsh'. congruence.
Qed.

Lemma _normalize_weight_validation ss T :
  raises_validation (_normalize_weight ss T) = true ↔
  ∃ shares, Forall2 (λ s x, share s = Some x) ss shares
    ∧ PrimFloat.leb (sum_float shares) 0 = true.
Proof.
  unfold _normalize_weight. rewrite raises_validation_bind.
  destruct (comprehension get_share ss) as [shares|e] eqn:Hsh.
  - apply get_shares_Ok in Hsh. destruct (PrimFloat.leb (sum_float shares) 0) eqn:Hpos.
    + split; [eauto | done].
    + rewrite raises_validation_bind. split.
      * destruct (weight_exact_amounts ss _ T) as [exact|e] eqn:Hex.
        -- destruct (largest_remainder exact T) as [sn|e] eqn:Hlr; [done|].
           simpl. by rewrite (largest_remainder_Raise _ _ _ Hlr).
        -- by rewrite (exact_amounts_Raise _ _ _ _ Hex).
      * intros (shares' & Hsh' & Hpos').
        rewrite (Forall2_share_functional _ _ _ Hsh Hsh') in Hpos. congruence.
  - split.
    + apply comprehension_Raise in Hsh as (s & _ & Hs).
      by apply get_share_Raise in Hs as ->.
    + intros (shares & Hsh' & _). apply get_shares_Ok in Hsh'. congruence.
Qed.

Lemma _normalize_amount_validation ss T :
  raises_validation (_normalize_amount ss T) = true ↔
  (∃ s, s ∈ ss ∧ amount s = None) ∨ sum_int (omap amount ss) ≠ T.
Proof.
  unfold _normalize_amount.
  destruct (decide (filter (λ s, amount s = None) ss ≠ [])) as [Hmiss|Hmiss].
  - split; [intros _|done]. left.
    destruct (filter _ ss) as [|s l] eqn:Hf; [done|].
    assert (s ∈ filter (λ s, amount s = None) ss) as Hs by (rewrite Hf; left).
    apply list_elem_of_filter in Hs as [? ?]. eauto.
  - apply dec_stable in Hmiss. pose proof Hmiss as Hall.
    apply amounts_present in Hall as [amounts Hall].
    rewrite (omap_amount_all _ _ Hall).
    assert (comprehension
      (λ s, match amount s with Some a => Ok a | None => Raise (KeyError "amount") end)
      ss = Ok amounts) as ->.
    { apply comprehension_Ok. eapply Forall2_impl; [exact Hall|].
      intros s a Ha. simpl. by rewrite Ha. }
    simpl. case_decide as Hsum.
    + split; [by right | done].
    + split; [done|]. intros [(s & Hs & Hnone)|?]; [|done].
      apply list_elem_of_lookup in Hs as [i Hi].
      eapply Forall2_lookup_l in Hall as (a & _ & Ha); [|done]. congruence.
Qed.

Lemma normalize_by_type_validation ty splits ss T :
  ss ≡ₚ splits →
  raises_validation (normalize_by_type ty ss T) = true ↔ type_invalid ty splits ss T.
Proof.
  intros Hperm. unfold normalize_by_type, type_invalid.
  assert (((∃ s, s ∈ splits ∧ amount s = None) ∨ sum_int (omap amount splits) ≠ T)
          ↔ ((∃ s, s ∈ ss ∧ amount s = None) ∨ sum_int (omap amount ss) ≠ T)) as Hamount.
  { rewrite (sum_int_perm (omap amount ss) (omap amount splits)) by (by rewrite Hperm).
    split; (intros [(s & Hs & Hn)|?]; [left; exists s; split; [|done] | by right]).
    - by rewrite Hperm.
    - by rewrite <-Hperm. }
  destruct (String.eqb_spec ty "equal") as [->|Hequal].
  { split; [|naive_solver]. destruct (_normalize_equal _ T) eqn:H; [done|].
    simpl. by rewrite (_normalize_equal_Raise _ _ _ H). }
  destruct (String.eqb_spec ty "percentage") as [->|Hpct].
  { rewrite _normalize_percentage_validation. naive_solver. }
  destruct (String.eqb_spec ty "weight") as [->|Hwgt].
  { rewrite _normalize_weight_validation. naive_solver. }
  destruct (String.eqb_spec ty "amount") as [->|Hamt].
  { rewrite _normalize_amount_validation, <-Hamount. naive_solver. }
  simpl. naive_solver.
Qed.

(** C6 (as amended). [normalize_shares] raises one of its six validation
    errors (a [ValueError] of its own, not the one of [math.floor])
    exactly on the invalid inputs: a non-empty list and a total [T ≠ 0]
    where the splits disagree on [shareType], or agree on it and: for
    [amount], a split has no explicit amount or the explicit amounts do
    not sum to [T]; for [percentage], the declared shares (summed in
    canonical order) are out of tolerance; for [weight], they sum to at
    most 0; or the tag is none of the four.  With [T = 0] it returns
    zeros whatever the splits are, and an empty list gives an empty
    list. *)
Theorem normalize_shares_validation (splits : list Split) (T : Z) :
  (raises_validation (normalize_shares splits T) = true ↔ invalid splits T)
  ∧ (T = 0 → normalize_shares splits T = Ok (replicate (length splits) 0))
  ∧ normalize_shares [] T = Ok [].
Proof.
  split_and!; [|by intros ->; destruct splits|done].
  destruct splits as [|first rest].
  { split; [done|]. by intros (first & [=] & _). }
  destruct (decide (T = 0)) as [->|HT].
  { split; [done|]. by intros (? & _ & ? & _). }
  destruct (decide (Forall (λ s, shareType s = shareType first) (first :: rest)))
    as [Hty|Hty].
  - rewrite normalize_shares_unfold, raises_validation_bind by done.
    pose proof (normalize_by_type_validation (shareType first) (first :: rest)
                  (stable_order (first :: rest)).*2 T (stable_order_snd _)) as Hv.
    rewrite Forall_forall in Hty. split.
    + intros H. exists first. split_and!; [done..|]. right. split; [done|].
      apply Hv. destruct (normalize_by_type _ _ T) as [sn|e]; [|done].
      destruct (scatter _ sn _) eqn:Hsc; [done|].
      simpl in H. by rewrite (scatter_Raise _ _ _ _ Hsc) in H.
    + intros (first' & [= <-] & _ & [(s & Hs & Hne)|[_ Hinv]]).
      { destruct Hne. by apply Hty. }
      apply Hv in Hinv. by destruct (normalize_by_type _ _ T).
  - rewrite normalize_shares_mixed by done. split; [intros _|done].
    exists first. split_and!; [done..|]. left.
    apply not_Forall_Exists in Hty; [|apply _].
    apply Exists_exists in Hty as (s & Hs & Hne). eauto.
Qed.

(** C6, read on the class of the exception, fails: a [ValueError] is also
    what [math.floor] raises on a NaN.  Two percentage splits of 50 and
    NaN, on a total of 100, are invalid in none of the listed ways (one
    [shareType], and the sum of the percentages, a NaN, is not out of
    tolerance: the comparison is false), and the call raises a
    [ValueError]. *)
Lemma normalize_shares_nan_value_error :
  normalize_shares [pct "a" 50; pct "b" PrimFloat.nan] 100
    = Raise (ValueError FloatNaNToInteger)
  ∧ ¬ invalid [pct "a" 50; pct "b" PrimFloat.nan] 100.
Proof.
  split; [by vm_compute|].
  intros (first & Hfirst & _ & [(s & Hs & Hne)|[_ Hinv]]); injection Hfirst as <-.
  - apply Hne. repeat (apply elem_of_cons in Hs as [->|Hs]; [done|]).
    by apply elem_of_nil in Hs.
  - destruct Hinv as [[? _]|[[_ (shares & Hsh & Htol)]|[[? _]|(_ & ? & _)]]]; try done.
    assert ((stable_order [pct "a" 50; pct "b" PrimFloat.nan]).*2
            = [pct "a" 50; pct "b" PrimFloat.nan]) as Hss by (by vm_compute).
    rewrite Hss in Hsh.
    apply Forall2_cons_inv_l in Hsh as (x & shares1 & Hx & Hsh & ->).
    apply Forall2_cons_inv_l in Hsh as (y & shares2 & Hy & Hsh & ->).
    apply Forall2_nil_inv_l in Hsh as ->.
    simpl in Hx, Hy. injection Hx as <-. injection Hy as <-.
    by vm_compute in Htol.
Qed.

(** ** Order invariance *)

Lemma StronglySorted_mono {A} (R1 R2 : relation A) l :
  (∀ x y, R1 x y → R2 x y) → StronglySorted R1 l → StronglySorted R2 l.
Proof.
  intros HR. induction 1 as [|x l Hl IH Hx]; constructor; [done|].
  eapply Forall_impl; [exact Hx | auto].
Qed.

Lemma elem_of_key_unique {A K} (f : A → K) (l : list A) x y :
  NoDup (f <$> l) → x ∈ l → y ∈ l → f x = f y → x = y.
Proof.
  intros Hnd Hx Hy Heq. apply list_elem_of_lookup in Hx as [i Hi].
  apply list_elem_of_lookup in Hy as [j Hj].
  assert (i = j) as ->; [|congruence].
  eapply NoDup_lookup; [exact Hnd| |]; rewrite list_lookup_fmap.
  - by rewrite Hi.
  - by rewrite Hj, Heq.
Qed.

(** With pairwise distinct participant identifiers, the canonical list of
    splits is the same for every arrangement of the input. *)
Lemma stable_order_unique splits splits' :
  NoDup (participantId <$> splits) → splits ≡ₚ splits' →
  (stable_order splits).*2 = (stable_order splits').*2.
Proof.
  intros Hnd Hperm.
  apply (StronglySorted_unique_strong
           (λ s s', String.le (participantId s) (participantId s'))).
  - intros x1 x2 Hx1 Hx2 H12 H21. rewrite stable_order_snd in Hx1, Hx2.
    rewrite <-Hperm in Hx2. apply (elem_of_key_unique participantId splits); [done..|].
    by apply (anti_symm String.le).
  - eapply StronglySorted_fmap; [|apply stable_order_sorted]. by intros x y [? _].
  - eapply StronglySorted_fmap; [|apply stable_order_sorted]. by intros x y [? _].
  - by rewrite !stable_order_snd.
Qed.

Lemma stable_order_position splits i s :
  splits !! i = Some s → ∃ k, stable_order splits !! k = Some (i, s).
Proof.
  intros Hi. apply list_elem_of_lookup. rewrite stable_order_perm.
  apply list_elem_of_lookup. exists i. by apply enumerate_lookup.
Qed.

(** C3 (as amended). For a list of splits with pairwise distinct
    participant identifiers and any rearrangement of it,
    [normalize_shares] raises the same exception on both or returns on
    both, and then every split is assigned the same share in both results,
    at the position the split has in the respective input. *)
Theorem normalize_shares_order_invariant (splits splits' : list Split) (T : Z) :
  NoDup (participantId <$> splits) → splits ≡ₚ splits' →
  match normalize_shares splits T, normalize_shares splits' T with
  | Ok res, Ok res' =>
      length res = length splits ∧ length res' = length splits'
      ∧ ∀ i j s, splits !! i = Some s → splits' !! j = Some s → res !! i = res' !! j
  | Raise e, Raise e' => e = e'
  | _, _ => False
  end.
Proof.
  intros Hnd Hperm.
  destruct splits as [|first rest].
  { apply Permutation_nil in Hperm as ->. simpl. split_and!; [done..|]. by intros i j s. }
  destruct splits' as [|first' rest'].
  { by apply Permutation_nil_r in Hperm. }
  destruct (decide (T = 0)) as [->|HT].
  { unfold normalize_shares. destruct (decide (0 = 0)) as [_|?]; [|done].
    rewrite !length_replicate. split_and!; [done..|].
    intros i j s Hi Hj. apply lookup_lt_Some in Hi, Hj.
    by rewrite !lookup_replicate_2. }
  destruct (decide (Forall (λ s, shareType s = shareType first) (first :: rest)))
    as [Hty|Hty].
  - assert (shareType first' = shareType first) as Hfirst.
    { rewrite Forall_forall in Hty. apply Hty. rewrite Hperm. left. }
    assert (Forall (λ s, shareType s = shareType first') (first' :: rest')) as Hty'.
    { rewrite <-Hperm, Hfirst. done. }
    pose proof (stable_order_unique _ _ Hnd Hperm) as Hss.
    rewrite (normalize_shares_unfold first rest), (normalize_shares_unfold first' rest')
      by done.
    rewrite Hfirst, <-Hss.
    destruct (normalize_by_type (shareType first) (stable_order (first :: rest)).*2 T)
      as [sn|e] eqn:Hsn; [|done].
    apply normalize_by_type_sum in Hsn as Hlen; last first.
    { intros Hnil. apply (f_equal length) in Hnil.
      by rewrite length_fmap, stable_order_length in Hnil. }
    destruct Hlen as [Hlen _]. rewrite length_fmap, stable_order_length in Hlen.
    destruct (normalize_shares_scatter first rest T sn) as (res & Hres & Hl & _ & Hpos);
      [done..|].
    destruct (normalize_shares_scatter first' rest' T sn)
      as (res' & Hres' & Hl' & _ & Hpos').
    { done. } { done. } { by rewrite Hfirst, <-Hss. } { by rewrite <-Hperm. }
    rewrite normalize_shares_unfold in Hres, Hres' by done.
    rewrite Hsn in Hres. rewrite Hfirst, <-Hss, Hsn in Hres'.
    simpl mbind in *. rewrite Hres, Hres'. split_and!; [done..|].
    intros i j s Hi Hj.
    destruct (stable_order_position _ _ _ Hi) as [k Hk].
    destruct (stable_order_position _ _ _ Hj) as [k' Hk'].
    rewrite (Hpos _ _ _ Hk), (Hpos' _ _ _ Hk'). f_equal.
    assert (NoDup (stable_order (first :: rest)).*2) as Hnd2.
    { rewrite stable_order_snd. by eapply NoDup_fmap_1. }
    eapply NoDup_lookup; [exact Hnd2| |].
    + by rewrite list_lookup_fmap, Hk.
    + by rewrite Hss, list_lookup_fmap, Hk'.
  - assert (¬ Forall (λ s, shareType s = shareType first') (first' :: rest')) as Hty'.
    { intros Hall. apply Hty. rewrite Forall_forall in Hall.
      assert (shareType first = shareType first') as ->.
      { apply Hall. rewrite <-Hperm. left. }
      rewrite Hperm. by apply Forall_forall. }
    by rewrite !normalize_shares_mixed.
Qed.

Lemma normalize_shares_order_invariant_applied :
  match normalize_shares [eql "c"; eql "a"; eql "b"] 100,
        normalize_shares [eql "a"; eql "b"; eql "c"] 100 with
  | Ok res, Ok res' =>
      length res = length [eql "c"; eql "a"; eql "b"]
      ∧ length res' = length [eql "a"; eql "b"; eql "c"]
      ∧ ∀ i j s, [eql "c"; eql "a"; eql "b"] !! i = Some s →
                 [eql "a"; eql "b"; eql "c"] !! j = Some s → res !! i = res' !! j
  | Raise e, Raise e' => e = e'
  | _, _ => False
  end.
Proof.
  apply (normalize_shares_order_invariant [eql "c"; eql "a"; eql "b"]
           [eql "a"; eql "b"; eql "c"] 100).
  - apply (bool_decide_unpack _). by vm_compute.
  - apply (Permutation_cons_append [eql "a"; eql "b"] (eql "c")).
Defined.

(** C3, as stated, fails when a participant identifier repeats: the tie
    between two splits of participant "a" is broken by input position, so
    the unit goes to whichever of them comes first.  The split [eql "a"]
    receives 1 at position 0 of the first list and 0 at position 1 of the
    second. *)
Lemma normalize_shares_order_dependent :
  let x := eql "a" in
  let y := {| participantId := "a"; shareType := "equal";
              share := Some 1%float; amount := None |} in
  [x; y] ≡ₚ [y; x]
  ∧ normalize_shares [x; y] 1 = Ok [1; 0]
  ∧ normalize_shares [y; x] 1 = Ok [1; 0]
  ∧ [x; y] !! 0%nat = Some x ∧ [y; x] !! 1%nat = Some x
  ∧ [1; 0] !! 0%nat ≠ [1; 0] !! 1%nat.
Proof.
  intros x y. split; [apply Permutation_swap|]. by vm_compute.
Qed.

(** * The settlement resolver *)

(** ** The loop invariant

    From the pointers on, every debtor entry is negative and every
    creditor entry positive. *)
Definition wf_state (st : state) : Prop :=
  Forall (λ e, e.2 < 0) (drop (d_idx st) (debtors st))
  ∧ Forall (λ e, 0 < e.2) (drop (c_idx st) (creditors st)).

(** The entries still to be settled. *)
Definition pending (st : state) : nat :=
  (length (debtors st) - d_idx st) + (length (creditors st) - c_idx st).

Lemma drop_insert_here {A} (l : list A) i x y :
  l !! i = Some y → drop i (<[i:=x]> l) = x :: drop (S i) l.
Proof.
  revert i. induction l as [|z l IH]; intros [|i] Hi; simplify_eq/=; [done|].
  by apply IH.
Qed.

Lemma drop_S_insert {A} (l : list A) i x : drop (S i) (<[i:=x]> l) = drop (S i) l.
Proof. apply drop_insert_lt. lia. Qed.

Lemma drop_lookup_head {A} (l : list A) i y :
  l !! i = Some y → drop i l = y :: drop (S i) l.
Proof.
  revert i. induction l as [|z l IH]; intros [|i] Hi; simplify_eq/=; [done|].
  by apply IH.
Qed.

Lemma sorted_filter_Forall {A K} (key : A → K) (lt : K → K → bool) (P : A → Prop)
    `{∀ x, Decision (P x)} (l : list A) :
  Forall P (sorted key lt (filter P l)).
Proof.
  rewrite sorted_perm. apply Forall_forall. intros x Hx.
  by apply list_elem_of_filter in Hx as [? _].
Qed.

Lemma initial_state_wf balances : wf_state (initial_state balances).
Proof.
  split; simpl; rewrite drop_0.
  - apply (sorted_filter_Forall snd Z.ltb (λ e, e.2 < 0)).
  - apply (sorted_filter_Forall snd (λ a b, Z.ltb b a) (λ e, 0 < e.2)).
Qed.

(** What one turn does, under the invariant: it settles a positive
    amount, brings at least one of the two entries to zero and moves past
    it, and keeps the invariant. *)
Lemma step_spec names st st' :
  wf_state st → step names st = Some st' →
  ∃ debtor creditor,
    debtors st !! d_idx st = Some debtor
    ∧ creditors st !! c_idx st = Some creditor
    ∧ debtor.2 < 0 ∧ 0 < creditor.2
    ∧ let amount := Z.min (- debtor.2) creditor.2 in
      settlements st' = settlements st ++
        [{| s_from := display names debtor.1; s_to := display names creditor.1;
            s_amount := amount |}]
      ∧ debtors st' = <[d_idx st := (debtor.1, debtor.2 + amount)]> (debtors st)
      ∧ creditors st' = <[c_idx st := (creditor.1, creditor.2 - amount)]> (creditors st)
      ∧ d_idx st' = (if decide (debtor.2 + amount = 0) then S (d_idx st) else d_idx st)
      ∧ c_idx st' = (if decide (creditor.2 - amount = 0) then S (c_idx st) else c_idx st)
      ∧ (debtor.2 + amount = 0 ∨ creditor.2 - amount = 0)
      ∧ wf_state st'.
Proof.
  intros [Hd Hc]. unfold step.
  destruct (debtors st !! d_idx st) as [debtor|] eqn:Hdeb; [|done].
  destruct (creditors st !! c_idx st) as [creditor|] eqn:Hcre; [|done].
  intros [= <-]. exists debtor, creditor.
  rewrite (drop_lookup_head _ _ _ Hdeb) in Hd. rewrite (drop_lookup_head _ _ _ Hcre) in Hc.
  apply Forall_cons in Hd as [Hneg Hd]. apply Forall_cons in Hc as [Hpos Hc].
  rewrite (Z.abs_neq debtor.2) by lia. cbn [settlements debtors creditors d_idx c_idx fst snd].
  split_and!; [done..| | |lia|].
  - repeat case_decide; lia.
  - repeat case_decide; lia.
  - split; simpl.
    + case_decide.
      * by rewrite drop_S_insert.
      * rewrite (drop_insert_here _ _ _ _ Hdeb). constructor; [simpl; lia | done].
    + case_decide.
      * by rewrite drop_S_insert.
      * rewrite (drop_insert_here _ _ _ _ Hcre). constructor; [simpl; lia | done].
Qed.

Lemma step_pending names st st' :
  wf_state st → step names st = Some st' →
  (2 ≤ pending st)%nat ∧ (pending st' < pending st)%nat
  ∧ length (settlements st') = S (length (settlements st)).
Proof.
  intros Hwf Hstep.
  destruct (step_spec _ _ _ Hwf Hstep)
    as (debtor & creditor & Hdeb & Hcre & _ & _ & Hs & Hds & Hcs & Hd & Hc & Hzero & _).
  apply lookup_lt_Some in Hdeb, Hcre. unfold pending.
  rewrite Hs, Hds, Hcs, Hd, Hc, !length_insert, length_app. simpl.
  split_and!; [lia| |lia]. repeat case_decide; lia.
Qed.

(** ** Termination and the number of settlements *)

Lemma resolve_loop_terminates names fuel st :
  wf_state st → (pending st < fuel)%nat →
  ∃ st', resolve_loop fuel names st = Some st'
    ∧ wf_state st'
    ∧ step names st' = None
    ∧ (length (settlements st') ≤ length (settlements st) + (pending st - 1))%nat
    ∧ (step names st = None → st' = st).
Proof.
  revert st. induction fuel as [|fuel IH]; intros st Hwf Hfuel; [lia|].
  simpl. destruct (step names st) as [st1|] eqn:Hstep.
  - destruct (step_pending _ _ _ Hwf Hstep) as (H2 & Hlt & Hlen).
    destruct (step_spec _ _ _ Hwf Hstep) as (_ & _ & _ & _ & _ & _ & _ & _ & _ & _ & _ & _ & Hwf1).
    destruct (IH st1 Hwf1) as (st' & Hrun & Hwf' & Hfin & Hcount & _); [lia|].
    exists st'. split_and!; [done..| |done]. lia.
  - exists st. split_and!; [done..|lia|done].
Qed.

Lemma resolve_loop_more_fuel names fuel fuel' st st' :
  resolve_loop fuel names st = Some st' → (fuel ≤ fuel')%nat →
  resolve_loop fuel' names st = Some st'.
Proof.
  revert fuel' st. induction fuel as [|fuel IH]; intros fuel' st; [done|].
  intros Hrun Hle. destruct fuel' as [|fuel']; [lia|]. simpl in *.
  destruct (step names st); [|done]. apply IH; [done | lia].
Qed.

Lemma initial_state_pending balances :
  pending (initial_state balances) =
    Nat.add (length (filter (λ e : string * Z, e.2 < 0) balances))
            (length (filter (λ e : string * Z, 0 < e.2) balances)).
Proof. unfold pending. simpl. rewrite !sorted_length. lia. Qed.

(** Whatever the fuel above the number of debtors and creditors, the loop
    ends in the same final state. *)
Lemma resolve_debts_fuel_enough balances names :
  ∃ st', wf_state st' ∧ step names st' = None
    ∧ (∀ fuel, (pending (initial_state balances) < fuel)%nat →
         resolve_loop fuel names (initial_state balances) = Some st')
    ∧ resolve_debts balances names = Some (settlements st')
    ∧ (length (settlements st') ≤ pending (initial_state balances) - 1)%nat
    ∧ (step names (initial_state balances) = None → settlements st' = []).
Proof.
  destruct (resolve_loop_terminates names (S (pending (initial_state balances)))
              (initial_state balances) (initial_state_wf _))
    as (st' & Hrun & Hwf & Hfin & Hcount & Hnone); [lia|].
  exists st'. split_and!; [done..| | |done|].
  - intros fuel Hfuel. eapply resolve_loop_more_fuel; [exact Hrun | lia].
  - unfold resolve_debts, resolve_debts_fuel.
    replace (S _) with (S (pending (initial_state balances))); [by rewrite Hrun|].
    unfold pending. simpl. lia.
  - intros Hs. by rewrite (Hnone Hs).
Qed.

(** C2. For every balances mapping, zero-sum or not, [resolve_debts]
    terminates: it returns a list of settlements, the same for every
    amount of fuel above the number of debtors and creditors.  With [d]
    participants of negative and [c] of positive balance it emits at most
    [d + c - 1] settlements (none when [d] or [c] is 0). *)
Theorem resolve_debts_terminates (balances : list (string * Z))
    (names : gmap string string) :
  let d := length (filter (λ e : string * Z, e.2 < 0) balances) in
  let c := length (filter (λ e : string * Z, 0 < e.2) balances) in
  ∃ s, resolve_debts balances names = Some s
    ∧ (∀ fuel, (d + c < fuel)%nat → resolve_debts_fuel fuel balances names = Some s)
    ∧ (length s ≤ d + c - 1)%nat
    ∧ (d = 0%nat ∨ c = 0%nat → s = []).
Proof.
  intros d c.
  destruct (resolve_debts_fuel_enough balances names)
    as (st' & _ & _ & Hfuel & Hres & Hcount & Hnone).
  rewrite initial_state_pending in Hfuel, Hcount. fold d c in Hfuel, Hcount.
  exists (settlements st'). split_and!; [done| |done|].
  - intros fuel Hf. unfold resolve_debts_fuel. by rewrite Hfuel.
  - intros Hdc. apply Hnone. unfold step. simpl.
    destruct Hdc as [Hd|Hc].
    + assert (sorted snd Z.ltb (filter (λ e : string * Z, e.2 < 0) balances) = []) as ->;
        [|done].
      apply length_zero_iff_nil. by rewrite sorted_length.
    + assert (sorted snd (λ a b, Z.ltb b a)
                (filter (λ e : string * Z, 0 < e.2) balances) = []) as ->.
      { apply length_zero_iff_nil. by rewrite sorted_length. }
      by case_match.
Qed.

(** ** Invariants of the loop *)

Lemma resolve_loop_invariant (I : state → Prop) names fuel st st' :
  (∀ st st', wf_state st → I st → step names st = Some st' → I st') →
  wf_state st → I st → resolve_loop fuel names st = Some st' → I st'.
Proof.
  intros Hstep. revert st. induction fuel as [|fuel IH]; intros st Hwf HI; [done|].
  simpl. destruct (step names st) as [st1|] eqn:Hst.
  - apply IH; [|by eapply Hstep].
    by destruct (step_spec _ _ _ Hwf Hst)
      as (_ & _ & _ & _ & _ & _ & _ & _ & _ & _ & _ & _ & ?).
  - by intros [= <-].
Qed.

Lemma resolve_debts_invariant (I : state → Prop) balances names :
  (∀ st st', wf_state st → I st → step names st = Some st' → I st') →
  I (initial_state balances) →
  ∃ st', resolve_debts balances names = Some (settlements st')
    ∧ I st' ∧ wf_state st' ∧ step names st' = None.
Proof.
  intros Hstep Hinit.
  destruct (resolve_debts_fuel_enough balances names)
    as (st' & Hwf & Hfin & Hfuel & Hres & _).
  exists st'. split_and!; [done| |done..].
  eapply resolve_loop_invariant; [exact Hstep | apply initial_state_wf | exact Hinit |].
  apply (Hfuel (S (pending (initial_state balances)))). lia.
Qed.

(** C10. Every settlement [resolve_debts] emits has a strictly positive
    amount, of at least one minor unit: the loop only ever matches a
    debtor entry of balance at most -1 with a creditor entry of balance at
    least 1. *)
Theorem resolve_debts_positive_amounts (balances : list (string * Z))
    (names : gmap string string) :
  ∃ s, resolve_debts balances names = Some s ∧ Forall (λ x, 1 ≤ s_amount x) s.
Proof.
  destruct (resolve_debts_invariant
              (λ st, Forall (λ x, 1 ≤ s_amount x) (settlements st)) balances names)
    as (st' & Hres & Hpos & _).
  - intros st st' Hwf HI Hstep.
    destruct (step_spec _ _ _ Hwf Hstep)
      as (debtor & creditor & _ & _ & Hneg & Hpos & -> & _).
    apply Forall_app. split; [done|]. constructor; [simpl; lia | constructor].
  - constructor.
  - by exists (settlements st').
Qed.

(** ** Display names *)

Lemma display_insert_unknown names p q :
  names !! p = None → display (<[p:="Unknown"]> names) q = display names q.
Proof.
  intros Hp. unfold display. destruct (decide (p = q)) as [->|Hne].
  - by rewrite lookup_insert_eq, Hp.
  - by rewrite lookup_insert_ne.
Qed.

Lemma step_display names names' st :
  (∀ q, display names' q = display names q) → step names' st = step names st.
Proof.
  intros Hd. unfold step.
  destruct (debtors st !! d_idx st) as [debtor|]; [|done].
  destruct (creditors st !! c_idx st) as [creditor|]; [|done].
  by rewrite !Hd.
Qed.

Lemma resolve_loop_display names names' fuel st :
  (∀ q, display names' q = display names q) →
  resolve_loop fuel names' st = resolve_loop fuel names st.
Proof.
  intros Hd. revert st. induction fuel as [|fuel IH]; intros st; [done|].
  simpl. rewrite (step_display names names') by done.
  destruct (step names st); [apply IH | done].
Qed.

(** Giving an identifier that is absent from the names mapping the name
    "Unknown" changes nothing: the settlements are the same. *)
Theorem resolve_debts_unknown_name (balances : list (string * Z))
    (names : gmap string string) (p : string) :
  names !! p = None →
  ∃ s, resolve_debts balances names = Some s
    ∧ resolve_debts balances (<[p:="Unknown"]> names) = Some s.
Proof.
  intros Hp. destruct (resolve_debts_fuel_enough balances names) as (st' & _ & _ & _ & Hres & _).
  exists (settlements st'). split; [done|]. rewrite <-Hres.
  unfold resolve_debts, resolve_debts_fuel. f_equal.
  apply resolve_loop_display. intros q. by apply display_insert_unknown.
Qed.

Lemma resolve_debts_unknown_name_applied :
  ∃ s, resolve_debts [("A", -50); ("B", -30); ("C", 80)] {[ "A" := "Ann" ]} = Some s
    ∧ resolve_debts [("A", -50); ("B", -30); ("C", 80)]
        (<["C":="Unknown"]> {[ "A" := "Ann" ]}) = Some s.
Proof.
  apply (resolve_debts_unknown_name [("A", -50); ("B", -30); ("C", 80)]
           {[ "A" := "Ann" ]} "C").
  by vm_compute.
Defined.

(** ** Idempotence *)

Lemma apply_settlements_snoc names ss s balances :
  apply_settlements names (ss ++ [s]) balances =
    apply_settlement names s <$> apply_settlements names ss balances.
Proof. unfold apply_settlements. by rewrite foldl_app. Qed.

Lemma apply_settlements_keys names ss balances :
  (apply_settlements names ss balances).*1 = balances.*1.
Proof.
  revert balances. induction ss as [|s ss IH]; intros balances; [done|].
  unfold apply_settlements in *. simpl. rewrite IH, <-list_fmap_compose.
  by apply list_fmap_ext.
Qed.

Lemma sign_partition (l : list (string * Z)) :
  l ≡ₚ filter (λ e, e.2 < 0) l ++ filter (λ e, 0 < e.2) l ++ filter (λ e, e.2 = 0) l.
Proof.
  induction l as [|e l IH]; [done|]. rewrite !filter_cons.
  destruct (decide (e.2 < 0)), (decide (0 < e.2)), (decide (e.2 = 0)); try lia.
  - simpl. by constructor.
  - simpl. rewrite <-Permutation_middle. by constructor.
  - rewrite <-(Permutation_middle (filter (λ e, 0 < e.2) l)).
    rewrite <-Permutation_middle. by constructor.
Qed.

Section settle.
Context (names : gmap string string).

(** The display name of an entry. *)
Definition shown (e : string * Z) : string := display names e.1.

Lemma apply_settlement_other s e :
  shown e ≠ s_from s → shown e ≠ s_to s → apply_settlement names s e = e.
Proof.
  intros H1 H2. unfold apply_settlement, shown in *.
  rewrite !decide_False by done. destruct e. simpl. f_equal. lia.
Qed.

Lemma fmap_apply_settlement_id s (l : list (string * Z)) :
  (∀ e, e ∈ l → shown e ≠ s_from s ∧ shown e ≠ s_to s) →
  apply_settlement names s <$> l = l.
Proof.
  intros H. induction l as [|e l IH]; [done|]. csimpl.
  rewrite IH by (intros; apply H; set_solver).
  destruct (H e) as [H1 H2]; [set_solver|]. by rewrite apply_settlement_other.
Qed.

Lemma fmap_apply_settlement_at s (l : list (string * Z)) i x :
  NoDup (shown <$> l) → l !! i = Some x →
  (∀ e, e ∈ l → shown e ≠ shown x → shown e ≠ s_from s ∧ shown e ≠ s_to s) →
  apply_settlement names s <$> l = <[i:=apply_settlement names s x]> l.
Proof.
  intros Hnd Hi Hother. apply list_eq. intros j. rewrite list_lookup_fmap.
  destruct (decide (i = j)) as [<-|Hne].
  - rewrite Hi, list_lookup_insert_eq by (by eapply lookup_lt_Some). done.
  - rewrite list_lookup_insert_ne by done.
    destruct (l !! j) as [e|] eqn:Hj; [|done]. simpl. f_equal.
    destruct (Hother e) as [H1 H2]; [by eapply list_elem_of_lookup_2| |].
    + intros Heq. destruct Hne. apply (NoDup_lookup (shown <$> l) i j (shown x)).
      * done.
      * by rewrite list_lookup_fmap, Hi.
      * rewrite list_lookup_fmap, Hj. simpl. by f_equal.
    + by apply apply_settlement_other.
Qed.

End settle.

Section idempotence.
Context (names : gmap string string) (balances : list (string * Z)).
Hypothesis names_distinct : NoDup (shown names <$> balances).

(** The balances after the settlements made so far are the current
    entries together with the participants that had nothing to settle;
    the entries the pointers have passed are at zero. *)
Definition settled (st : state) : Prop :=
  apply_settlements names (settlements st) balances
    ≡ₚ debtors st ++ creditors st ++ filter (λ e, e.2 = 0) balances
  ∧ Forall (λ e, e.2 = 0) (take (d_idx st) (debtors st))
  ∧ Forall (λ e, e.2 = 0) (take (c_idx st) (creditors st))
  ∧ sum_int (debtors st).*2 + sum_int (creditors st).*2 = sum_int balances.*2.

Lemma sum_int_zero (l : list (string * Z)) : Forall (λ e, e.2 = 0) l → sum_int l.*2 = 0.
Proof.
  induction 1 as [|e l He H IH]; [done|]. csimpl. rewrite sum_int_cons. lia.
Qed.

Lemma sum_int_pos (l : list (string * Z)) :
  Forall (λ e, 0 < e.2) l → l ≠ [] → 0 < sum_int l.*2.
Proof.
  intros Hl Hne. assert (0 ≤ sum_int l.*2 ∧ (l ≠ [] → 0 < sum_int l.*2)) as [_ H]; [|auto].
  clear Hne. induction Hl as [|e l He H IH]; [done|]. csimpl. rewrite sum_int_cons.
  destruct IH as [IH _]. split; [lia|]. intros _. lia.
Qed.

Lemma sum_int_neg (l : list (string * Z)) :
  Forall (λ e, e.2 < 0) l → l ≠ [] → sum_int l.*2 < 0.
Proof.
  intros Hl Hne. assert (sum_int l.*2 ≤ 0 ∧ (l ≠ [] → sum_int l.*2 < 0)) as [_ H]; [|auto].
  clear Hne. induction Hl as [|e l He H IH]; [done|]. csimpl. rewrite sum_int_cons.
  destruct IH as [IH _]. split; [lia|]. intros _. lia.
Qed.

Lemma sum_int_insert_snd (l : list (string * Z)) i x y :
  l !! i = Some x → sum_int (<[i:=y]> l).*2 = sum_int l.*2 - x.2 + y.2.
Proof.
  intros Hi. rewrite list_fmap_insert. apply sum_int_insert.
  by rewrite list_lookup_fmap, Hi.
Qed.

Lemma initial_state_settled : settled (initial_state balances).
Proof using Type.
  unfold settled. simpl. split_and!; [|constructor..|].
  - unfold apply_settlements. simpl. rewrite !sorted_perm. apply sign_partition.
  - rewrite !sorted_perm. rewrite (sign_partition balances) at 3.
    rewrite !fmap_app, !sum_int_app.
    rewrite (sum_int_zero (filter (λ e, e.2 = 0) balances)); [lia|].
    apply Forall_forall. intros e He. by apply list_elem_of_filter in He as [? _].
Qed.

Lemma settled_names_distinct st :
  settled st →
  NoDup (shown names <$> (debtors st ++ creditors st ++ filter (λ e, e.2 = 0) balances)).
Proof using names_distinct.
  intros (Hperm & _). rewrite <-Hperm.
  assert (shown names <$> apply_settlements names (settlements st) balances
          = shown names <$> balances) as ->; [|done].
  assert (∀ l : list (string * Z), shown names <$> l = display names <$> l.*1) as Hshown.
  { intros l. rewrite <-list_fmap_compose. by apply list_fmap_ext. }
  by rewrite !Hshown, apply_settlements_keys.
Qed.

Lemma step_settled st st' :
  wf_state st → settled st → step names st = Some st' → settled st'.
Proof using names_distinct.
  intros Hwf Hset Hstep. pose proof (settled_names_distinct st Hset) as Hnd.
  destruct Hset as (Hperm & Hzd & Hzc & Hsum).
  destruct (step_spec _ _ _ Hwf Hstep)
    as (debtor & creditor & Hdeb & Hcre & Hneg & Hpos & Hs & Hds & Hcs & Hd & Hc & _ & _).
  set (amount := Z.min (- debtor.2) creditor.2) in *.
  set (s := {| s_from := display names debtor.1; s_to := display names creditor.1;
               s_amount := amount |}) in *.
  rewrite !fmap_app in Hnd. apply NoDup_app in Hnd as (Hnd1 & Hdis1 & Hnd).
  apply NoDup_app in Hnd as (Hnd2 & Hdis2 & Hnd3).
  assert (debtor ∈ debtors st) as Hdin by (by eapply list_elem_of_lookup_2).
  assert (creditor ∈ creditors st) as Hcin by (by eapply list_elem_of_lookup_2).
  assert (shown names debtor ≠ shown names creditor) as Hdc.
  { intros Heq. apply (Hdis1 (shown names debtor)); [by apply list_elem_of_fmap_2|].
    apply elem_of_app. left. rewrite Heq. by apply list_elem_of_fmap_2. }
  assert (apply_settlement names s debtor = (debtor.1, debtor.2 + amount)) as Hfd.
  { unfold apply_settlement. simpl. rewrite decide_True by done.
    rewrite decide_False by done. f_equal. lia. }
  assert (apply_settlement names s creditor = (creditor.1, creditor.2 - amount)) as Hfc.
  { unfold apply_settlement. simpl. rewrite decide_False by (by intros ?; apply Hdc).
    rewrite decide_True by done. f_equal. lia. }
  unfold settled. rewrite Hs, Hds, Hcs, Hd, Hc. split_and!.
  - rewrite apply_settlements_snoc, Hperm, !fmap_app.
    rewrite (fmap_apply_settlement_at names s (debtors st) (d_idx st) debtor), Hfd;
      [|done|done|]; last first.
    { intros e He Hne. split; [done|]. simpl. intros Heq.
      change (shown names e = shown names creditor) in Heq.
      apply (Hdis1 (shown names e)); [by apply list_elem_of_fmap_2|].
      apply elem_of_app. left. rewrite Heq. by apply list_elem_of_fmap_2. }
    rewrite (fmap_apply_settlement_at names s (creditors st) (c_idx st) creditor), Hfc;
      [|done|done|]; last first.
    { intros e He Hne. split; [|done]. simpl. intros Heq.
      change (shown names e = shown names debtor) in Heq.
      apply (Hdis1 (shown names debtor)); [by apply list_elem_of_fmap_2|].
      apply elem_of_app. left. rewrite <-Heq. by apply list_elem_of_fmap_2. }
    rewrite fmap_apply_settlement_id; [done|].
    intros e He. simpl. split; intros Heq.
    + change (shown names e = shown names debtor) in Heq.
      apply (Hdis1 (shown names debtor)); [by apply list_elem_of_fmap_2|].
      apply elem_of_app. right. rewrite <-Heq. by apply list_elem_of_fmap_2.
    + change (shown names e = shown names creditor) in Heq.
      apply (Hdis2 (shown names creditor)); [by apply list_elem_of_fmap_2|].
      rewrite <-Heq. by apply list_elem_of_fmap_2.
  - destruct (decide (debtor.2 + amount = 0)) as [Hz|Hz].
    + rewrite (take_S_r _ _ (debtor.1, debtor.2 + amount)); last first.
      { apply list_lookup_insert_eq. by eapply lookup_lt_Some. }
      rewrite take_insert_ge by lia. apply Forall_app. split; [done|].
      by constructor.
    + by rewrite take_insert_ge by lia.
  - destruct (decide (creditor.2 - amount = 0)) as [Hz|Hz].
    + rewrite (take_S_r _ _ (creditor.1, creditor.2 - amount)); last first.
      { apply list_lookup_insert_eq. by eapply lookup_lt_Some. }
      rewrite take_insert_ge by lia. apply Forall_app. split; [done|].
      by constructor.
    + by rewrite take_insert_ge by lia.
  - rewrite (sum_int_insert_snd _ _ debtor), (sum_int_insert_snd _ _ creditor) by done.
    simpl. lia.
Qed.

End idempotence.


Lemma finished_all_zero names balances st :
  sum_int balances.*2 = 0 → wf_state st → settled names balances st →
  step names st = None →
  Forall (λ e, e.2 = 0) (debtors st) ∧ Forall (λ e, e.2 = 0) (creditors st).
Proof.
  intros Hzero [Hneg Hpos] (_ & Hzd & Hzc & Hsum) Hfin. rewrite Hzero in Hsum.
  rewrite <-(take_drop (d_idx st) (debtors st)) in Hsum.
  rewrite <-(take_drop (c_idx st) (creditors st)) in Hsum.
  rewrite !fmap_app, !sum_int_app, (sum_int_zero _ Hzd), (sum_int_zero _ Hzc) in Hsum.
  assert (drop (d_idx st) (debtors st) = [] ∨ drop (c_idx st) (creditors st) = []) as Hend.
  { unfold step in Hfin.
    destruct (debtors st !! d_idx st) eqn:Hd.
    - destruct (creditors st !! c_idx st) eqn:Hc; [done|].
      right. apply drop_ge. by apply lookup_ge_None.
    - left. apply drop_ge. by apply lookup_ge_None. }
  assert (drop (d_idx st) (debtors st) = [] ∧ drop (c_idx st) (creditors st) = [])
    as [Hd Hc].
  { destruct Hend as [Hd|Hc].
    - split; [done|]. rewrite Hd in Hsum. simpl in Hsum. rewrite sum_int_nil in Hsum.
      destruct (drop (c_idx st) (creditors st)) as [|e l] eqn:Hc; [done|].
      pose proof (sum_int_pos _ Hpos ltac:(done)). lia.
    - split; [|done]. rewrite Hc in Hsum. simpl in Hsum. rewrite sum_int_nil in Hsum.
      destruct (drop (d_idx st) (debtors st)) as [|e l] eqn:Hd; [done|].
      pose proof (sum_int_neg _ Hneg ltac:(done)). lia. }
  rewrite <-(take_drop (d_idx st) (debtors st)), Hd, app_nil_r.
  rewrite <-(take_drop (c_idx st) (creditors st)), Hc, app_nil_r. done.
Qed.



(** * The store model: nothing that existed is changed *)

(** ** A small program logic

    [keeps h0 m Q]: run from a store that extends [h0], [m] leaves a store
    that extends [h0] -- every object of [h0] is still there, unchanged --
    and a returned value satisfies [Q].  Along with it goes the invariant
    that a list of references created since [h0] refers only to objects
    created since [h0]. *)

Definition is_new (h0 : gmap loc obj) (l : loc) : Prop := h0 !! l = None.

Definition refs_new (h0 : gmap loc obj) (o : obj) : Prop :=
  match o with ORefs items => Forall (is_new h0) items | _ => True end.

Definition extends (h0 h : gmap loc obj) : Prop :=
  h0 ⊆ h ∧ ∀ l o, is_new h0 l → h !! l = Some o → refs_new h0 o.

Definition keeps (h0 : gmap loc obj) {A} (m : M A) (Q : A → Prop) : Prop :=
  ∀ h, extends h0 h → extends h0 (m h).2 ∧ ∀ a, (m h).1 = Ok a → Q a.

Section logic.
Context (h0 : gmap loc obj).

Lemma extends_refl : extends h0 h0.
Proof. split; [done|]. unfold is_new. intros l o Hl Ho. congruence. Qed.

Lemma keeps_ret {A} (a : A) (Q : A → Prop) : Q a → keeps h0 (mret a) Q.
Proof. intros HQ h Hh. split; [done|]. by intros a' [= <-]. Qed.

Lemma keeps_lift {A} (r : res A) (Q : A → Prop) :
  (∀ a, r = Ok a → Q a) → keeps h0 (lift r) Q.
Proof. intros HQ h Hh. split; [done|]. intros a. apply HQ. Qed.

Lemma keeps_pure {A} (r : res A) : keeps h0 (lift r) (λ _, True).
Proof. by apply keeps_lift. Qed.

Lemma keeps_raise {A} (e : exn) (Q : A → Prop) : keeps h0 (lift (Raise e)) Q.
Proof. by apply keeps_lift. Qed.

Lemma keeps_mono {A} (m : M A) (Q Q' : A → Prop) :
  keeps h0 m Q → (∀ a, Q a → Q' a) → keeps h0 m Q'.
Proof. intros Hm HQ h Hh. destruct (Hm h Hh) as [? ?]. split; auto. Qed.

Lemma keeps_bind {A B} (m : M A) (k : A → M B) (Q : A → Prop) (R : B → Prop) :
  keeps h0 m Q → (∀ a, Q a → keeps h0 (k a) R) → keeps h0 (m ≫= k) R.
Proof.
  intros Hm Hk h Hh. destruct (Hm h Hh) as [Hext HQ].
  unfold mbind, M_bind. destruct (m h) as [[a|e] h1]; simpl in *; [|done].
  by apply Hk; [apply HQ|].
Qed.

Lemma keeps_alloc o : refs_new h0 o → keeps h0 (alloc o) (is_new h0).
Proof.
  intros Ho h [Hsub Hrefs]. unfold alloc. simpl.
  assert (h !! fresh (dom h) = None) as Hfresh.
  { apply not_elem_of_dom, is_fresh. }
  assert (is_new h0 (fresh (dom h))) as Hnew.
  { by eapply lookup_weaken_None. }
  split; [|by intros a [= <-]]. split.
  - by apply insert_subseteq_r.
  - intros l o' Hl. destruct (decide (fresh (dom h) = l)) as [<-|Hne].
    + rewrite lookup_insert_eq. by intros [= <-].
    + rewrite lookup_insert_ne by done. by apply Hrefs.
Qed.

Lemma keeps_store l o :
  is_new h0 l → refs_new h0 o → keeps h0 (store l o) (λ _, True).
Proof.
  intros Hl Ho h [Hsub Hrefs]. unfold store. simpl. split; [|done]. split.
  - by apply insert_subseteq_r.
  - intros l' o' Hl'. destruct (decide (l = l')) as [<-|Hne].
    + rewrite lookup_insert_eq. by intros [= <-].
    + rewrite lookup_insert_ne by done. by apply Hrefs.
Qed.

Lemma keeps_load l : keeps h0 (load l) (λ o, is_new h0 l → refs_new h0 o).
Proof.
  intros h [Hsub Hrefs]. unfold load. destruct (h !! l) as [o|] eqn:Ho; simpl.
  - split; [done|]. intros a [= <-] Hl. by eapply Hrefs.
  - done.
Qed.

Lemma keeps_load_refs l :
  keeps h0 (load_refs l) (λ items, is_new h0 l → Forall (is_new h0) items).
Proof.
  eapply keeps_bind; [apply keeps_load|]. intros o Ho.
  destruct o; try apply keeps_raise. by apply keeps_ret.
Qed.

Lemma keeps_load_split l : keeps h0 (load_split l) (λ _, True).
Proof.
  eapply keeps_bind; [apply keeps_load|]. intros o _.
  destruct o; try apply keeps_raise. by apply keeps_ret.
Qed.

Lemma keeps_load_ints l : keeps h0 (load_ints l) (λ _, True).
Proof.
  eapply keeps_bind; [apply keeps_load|]. intros o _.
  destruct o; try apply keeps_raise. by apply keeps_ret.
Qed.

Lemma keeps_load_fractions l : keeps h0 (load_fractions l) (λ _, True).
Proof.
  eapply keeps_bind; [apply keeps_load|]. intros o _.
  destruct o; try apply keeps_raise. by apply keeps_ret.
Qed.

Lemma keeps_load_balances l : keeps h0 (load_balances l) (λ _, True).
Proof.
  eapply keeps_bind; [apply keeps_load|]. intros o _.
  destruct o; try apply keeps_raise. by apply keeps_ret.
Qed.

Lemma keeps_load_names l : keeps h0 (load_names l) (λ _, True).
Proof.
  eapply keeps_bind; [apply keeps_load|]. intros o _.
  destruct o; try apply keeps_raise. by apply keeps_ret.
Qed.

Lemma keeps_load_entry l : keeps h0 (load_entry l) (λ _, True).
Proof.
  eapply keeps_bind; [apply keeps_load|]. intros o _.
  destruct o; try apply keeps_raise. by apply keeps_ret.
Qed.

Lemma keeps_load_settlements l : keeps h0 (load_settlements l) (λ _, True).
Proof.
  eapply keeps_bind; [apply keeps_load|]. intros o _.
  destruct o; try apply keeps_raise. by apply keeps_ret.
Qed.

Lemma keeps_for_each {A} (body : A → M unit) xs :
  (∀ x, x ∈ xs → keeps h0 (body x) (λ _, True)) →
  keeps h0 (for_each_h body xs) (λ _, True).
Proof.
  induction xs as [|x xs IH]; intros Hbody; simpl; [by apply keeps_ret|].
  eapply keeps_bind; [apply Hbody; left|]. intros _ _. apply IH.
  intros x' Hx'. apply Hbody. by right.
Qed.

Lemma keeps_comprehension {A B} (f : A → M B) xs :
  (∀ x, x ∈ xs → keeps h0 (f x) (λ _, True)) →
  keeps h0 (comprehension_h f xs) (λ _, True).
Proof.
  induction xs as [|x xs IH]; intros Hf; simpl; [by apply keeps_ret|].
  eapply keeps_bind; [apply Hf; left|]. intros y _.
  eapply keeps_bind; [apply IH; intros x' Hx'; apply Hf; by right|]. intros ys _.
  by apply keeps_ret.
Qed.

End logic.

(** ** The two functions keep the store they are given *)

Section frame.
Context (h0 : gmap loc obj).

Ltac start_bind lem := eapply keeps_bind; [apply lem|]; intros.

Lemma keeps_incr_item_h result i :
  is_new h0 result → keeps h0 (incr_item_h result i) (λ _, True).
Proof.
  intros Hnew. unfold incr_item_h.
  start_bind keeps_load_ints. eapply keeps_bind; [apply keeps_pure|]. intros.
  by apply keeps_store.
Qed.

Lemma keeps_setitem_h normalized i x :
  is_new h0 normalized → keeps h0 (setitem_h normalized i x) (λ _, True).
Proof.
  intros Hnew. unfold setitem_h.
  start_bind keeps_load_ints. eapply keeps_bind; [apply keeps_pure|]. intros.
  by apply keeps_store.
Qed.

Lemma keeps__normalize_equal_h count total :
  keeps h0 (_normalize_equal_h count total) (is_new h0).
Proof.
  unfold _normalize_equal_h. eapply keeps_bind; [by apply keeps_alloc|].
  intros result Hnew. eapply keeps_bind.
  - apply keeps_for_each. intros i _. by apply keeps_incr_item_h.
  - intros. by apply keeps_ret.
Qed.

Lemma keeps_largest_remainder_h exact_amounts total :
  keeps h0 (largest_remainder_h exact_amounts total) (is_new h0).
Proof.
  unfold largest_remainder_h.
  eapply keeps_bind; [apply keeps_pure|]. intros base_amounts _.
  eapply keeps_bind; [apply keeps_pure|]. intros fps _.
  eapply keeps_bind; [by apply keeps_alloc|]. intros fractional_parts Hfp.
  eapply keeps_bind.
  { start_bind keeps_load_fractions. by apply keeps_store. }
  intros _ _. eapply keeps_bind; [by apply keeps_alloc|]. intros result Hres.
  eapply keeps_bind.
  - apply keeps_for_each. intros i _. start_bind keeps_load_fractions.
    eapply keeps_bind; [apply keeps_pure|]. intros. by apply keeps_incr_item_h.
  - intros. by apply keeps_ret.
Qed.

Lemma keeps_load_splits refs :
  keeps h0 (comprehension_h load_split refs) (λ _, True).
Proof. apply keeps_comprehension. intros l _. apply keeps_load_split. Qed.

Lemma keeps__normalize_percentage_h stable_splits total :
  keeps h0 (_normalize_percentage_h stable_splits total) (is_new h0).
Proof.
  unfold _normalize_percentage_h. start_bind keeps_load_splits.
  eapply keeps_bind; [apply keeps_pure|]. intros shares _.
  case_match; [apply keeps_raise|].
  eapply keeps_bind; [apply keeps_pure|]. intros. apply keeps_largest_remainder_h.
Qed.

Lemma keeps__normalize_weight_h stable_splits total :
  keeps h0 (_normalize_weight_h stable_splits total) (is_new h0).
Proof.
  unfold _normalize_weight_h. start_bind keeps_load_splits.
  eapply keeps_bind; [apply keeps_pure|]. intros shares _.
  case_match; [apply keeps_raise|].
  eapply keeps_bind; [apply keeps_pure|]. intros. apply keeps_largest_remainder_h.
Qed.

Lemma keeps__normalize_amount_h stable_splits total :
  keeps h0 (_normalize_amount_h stable_splits total) (is_new h0).
Proof.
  unfold _normalize_amount_h. start_bind keeps_load_splits.
  eapply keeps_bind; [apply keeps_pure|]. intros. by apply keeps_alloc.
Qed.

Lemma keeps_normalize_by_type_h share_type stable_splits total :
  keeps h0 (normalize_by_type_h share_type stable_splits total) (is_new h0).
Proof.
  unfold normalize_by_type_h. repeat case_match;
    auto using keeps__normalize_equal_h, keeps__normalize_percentage_h,
      keeps__normalize_weight_h, keeps__normalize_amount_h, keeps_raise.
Qed.

Lemma keeps_normalize_shares_h splits expense_amount :
  keeps h0 (normalize_shares_h splits expense_amount) (is_new h0).
Proof.
  unfold normalize_shares_h. start_bind keeps_load_refs.
  destruct a as [|first rest]; [by apply keeps_alloc|].
  case_decide; [by apply keeps_alloc|].
  start_bind keeps_load_split. start_bind keeps_load_splits.
  case_match; [apply keeps_raise|].
  start_bind keeps_normalize_by_type_h.
  eapply keeps_bind; [by apply keeps_alloc|]. intros normalized Hnew.
  start_bind keeps_load_ints. eapply keeps_bind.
  - apply keeps_for_each. intros [k amount] _.
    eapply keeps_bind; [apply keeps_pure|]. intros. by apply keeps_setitem_h.
  - intros. by apply keeps_ret.
Qed.

Lemma keeps_append_ref l r :
  is_new h0 l → is_new h0 r → keeps h0 (append_ref l r) (λ _, True).
Proof.
  intros Hl Hr. unfold append_ref. start_bind keeps_load_refs.
  apply keeps_store; [done|]. simpl. apply Forall_app. split; [by auto|].
  by constructor.
Qed.

Lemma keeps_load_entries refs :
  keeps h0 (comprehension_h load_entry refs) (λ _, True).
Proof. apply keeps_comprehension. intros l _. apply keeps_load_entry. Qed.

Lemma keeps_sort_entries l lt :
  is_new h0 l → keeps h0 (sort_entries l lt) (λ _, True).
Proof.
  intros Hl. unfold sort_entries. start_bind keeps_load_refs.
  start_bind keeps_load_entries. apply keeps_store; [done|]. simpl.
  apply Forall_forall. intros r Hr. rewrite sorted_perm in Hr.
  apply list_elem_of_fmap in Hr as ([r' e] & -> & Hin). apply elem_of_zip_l in Hin.
  specialize (H Hl). rewrite Forall_forall in H. by apply H.
Qed.

Lemma keeps_step_h debtors creditors settlements participants d_idx c_idx :
  is_new h0 debtors → is_new h0 creditors → is_new h0 settlements →
  keeps h0 (step_h debtors creditors settlements participants d_idx c_idx) (λ _, True).
Proof.
  intros Hd Hc Hs. unfold step_h.
  eapply keeps_bind; [apply keeps_load_refs|]. intros ds Hds.
  eapply keeps_bind; [apply keeps_load_refs|]. intros cs Hcs.
  destruct (ds !! d_idx) as [debtor|] eqn:Hdeb; [|by apply keeps_ret].
  destruct (cs !! c_idx) as [creditor|] eqn:Hcre; [|by apply keeps_ret].
  assert (is_new h0 debtor) as Hnd.
  { specialize (Hds Hd). rewrite Forall_forall in Hds.
    apply Hds. by eapply list_elem_of_lookup_2. }
  assert (is_new h0 creditor) as Hnc.
  { specialize (Hcs Hc). rewrite Forall_forall in Hcs.
    apply Hcs. by eapply list_elem_of_lookup_2. }
  start_bind keeps_load_entry. start_bind keeps_load_entry.
  start_bind keeps_load_names. start_bind keeps_load_settlements.
  eapply keeps_bind; [by apply keeps_store|]. intros _ _.
  start_bind keeps_load_entry.
  eapply keeps_bind; [by apply keeps_store|]. intros _ _.
  start_bind keeps_load_entry.
  eapply keeps_bind; [by apply keeps_store|]. intros _ _.
  start_bind keeps_load_entry. start_bind keeps_load_entry.
  by apply keeps_ret.
Qed.

Lemma keeps_resolve_loop_h fuel debtors creditors settlements participants d_idx c_idx :
  is_new h0 debtors → is_new h0 creditors → is_new h0 settlements →
  keeps h0 (resolve_loop_h fuel debtors creditors settlements participants d_idx c_idx)
    (λ _, True).
Proof.
  intros Hd Hc Hs. revert d_idx c_idx.
  induction fuel as [|fuel IH]; intros d_idx c_idx; simpl; [by apply keeps_ret|].
  eapply keeps_bind; [by apply keeps_step_h|]. intros [[d' c']|] _; [apply IH|].
  by apply keeps_ret.
Qed.

Lemma keeps_resolve_debts_h fuel balances participants :
  keeps h0 (resolve_debts_h fuel balances participants) (λ _, True).
Proof.
  unfold resolve_debts_h.
  eapply keeps_bind; [apply keeps_alloc; constructor|]. intros debtors Hd.
  eapply keeps_bind; [apply keeps_alloc; constructor|]. intros creditors Hc.
  start_bind keeps_load_balances. eapply keeps_bind.
  { apply keeps_for_each. intros [p_id amount] _.
    repeat case_decide.
    - eapply keeps_bind; [by apply keeps_alloc|]. intros e He. by apply keeps_append_ref.
    - eapply keeps_bind; [by apply keeps_alloc|]. intros e He. by apply keeps_append_ref.
    - by apply keeps_ret. }
  intros _ _. eapply keeps_bind; [by apply keeps_sort_entries|]. intros _ _.
  eapply keeps_bind; [by apply keeps_sort_entries|]. intros _ _.
  eapply keeps_bind; [by apply keeps_alloc|]. intros settlements Hs.
  eapply keeps_bind; [by apply keeps_resolve_loop_h|]. intros finished _.
  by apply keeps_ret.
Qed.

End frame.

(** * The store model computes what the value model computes *)

(** [wp m Q h]: running [m] from the store [h] ends in a result and a
    store that satisfy [Q]. *)
Definition wp {A} (m : M A) (Q : res A → gmap loc obj → Prop) (h : gmap loc obj) : Prop :=
  Q (m h).1 (m h).2.

Lemma wp_ret {A} (a : A) Q h : Q (Ok a) h → wp (mret a) Q h.
Proof. done. Qed.

Lemma wp_lift {A} (r : res A) Q h : Q r h → wp (lift r) Q h.
Proof. done. Qed.

Lemma wp_bind {A B} (m : M A) (k : A → M B) Q h :
  wp m (λ r h1, match r with Ok a => wp (k a) Q h1 | Raise e => Q (Raise e) h1 end) h →
  wp (m ≫= k) Q h.
Proof.
  unfold wp, mbind, M_bind. by destruct (m h) as [[a|e] h1].
Qed.

Lemma wp_mono {A} (m : M A) (Q Q' : res A → gmap loc obj → Prop) h :
  wp m Q h → (∀ r h', Q r h' → Q' r h') → wp m Q' h.
Proof. unfold wp. auto. Qed.

Lemma wp_alloc o Q h :
  (∀ l, h !! l = None → Q (Ok l) (<[l:=o]> h)) → wp (alloc o) Q h.
Proof. intros HQ. apply HQ. apply not_elem_of_dom, is_fresh. Qed.

Lemma wp_store l o Q h : Q (Ok tt) (<[l:=o]> h) → wp (store l o) Q h.
Proof. done. Qed.

Lemma wp_load l o Q h : h !! l = Some o → Q (Ok o) h → wp (load l) Q h.
Proof. intros Hl HQ. unfold wp, load. by rewrite Hl. Qed.

Lemma wp_load_refs l x Q h : h !! l = Some (ORefs x) → Q (Ok x) h → wp (load_refs l) Q h.
Proof. intros Hl HQ. apply wp_bind. by eapply wp_load. Qed.

Lemma wp_load_split l x Q h : h !! l = Some (OSplit x) → Q (Ok x) h → wp (load_split l) Q h.
Proof. intros Hl HQ. apply wp_bind. by eapply wp_load. Qed.

Lemma wp_load_ints l x Q h : h !! l = Some (OInts x) → Q (Ok x) h → wp (load_ints l) Q h.
Proof. intros Hl HQ. apply wp_bind. by eapply wp_load. Qed.

Lemma wp_load_fractions l x Q h :
  h !! l = Some (OFractions x) → Q (Ok x) h → wp (load_fractions l) Q h.
Proof. intros Hl HQ. apply wp_bind. by eapply wp_load. Qed.

Lemma wp_load_balances l x Q h :
  h !! l = Some (OBalances x) → Q (Ok x) h → wp (load_balances l) Q h.
Proof. intros Hl HQ. apply wp_bind. by eapply wp_load. Qed.

Lemma wp_load_names l x Q h : h !! l = Some (ONames x) → Q (Ok x) h → wp (load_names l) Q h.
Proof. intros Hl HQ. apply wp_bind. by eapply wp_load. Qed.

Lemma wp_load_entry l x Q h : h !! l = Some (OEntry x) → Q (Ok x) h → wp (load_entry l) Q h.
Proof. intros Hl HQ. apply wp_bind. by eapply wp_load. Qed.

Lemma wp_load_settlements l x Q h :
  h !! l = Some (OSettlements x) → Q (Ok x) h → wp (load_settlements l) Q h.
Proof. intros Hl HQ. apply wp_bind. by eapply wp_load. Qed.

(** Reading a list of objects through their references. *)
Lemma wp_load_all {A} (load_one : loc → M A) (inject : A → obj) refs xs Q h :
  (∀ l x Q h, h !! l = Some (inject x) → Q (Ok x) h → wp (load_one l) Q h) →
  Forall2 (λ r x, h !! r = Some (inject x)) refs xs →
  Q (Ok xs) h → wp (comprehension_h load_one refs) Q h.
Proof.
  intros Hload Hall. revert Q. induction Hall as [|r x refs xs Hr Hall IH]; intros Q HQ.
  - done.
  - simpl. apply wp_bind. eapply Hload; [done|]. apply wp_bind. apply IH. by apply wp_ret.
Qed.

(** ** The increments and the scatter, on a list object *)

Lemma wp_incr_item_h result i items Q h :
  h !! result = Some (OInts items) →
  match incr_item i items with
  | Ok items' => Q (Ok tt) (<[result:=OInts items']> h)
  | Raise e => Q (Raise e) h
  end →
  wp (incr_item_h result i) Q h.
Proof.
  intros Hres HQ. unfold incr_item_h. apply wp_bind. eapply wp_load_ints; [done|].
  apply wp_bind. apply wp_lift. destruct (incr_item i items); [by apply wp_store | done].
Qed.

Lemma wp_setitem_h normalized i x items Q h :
  h !! normalized = Some (OInts items) →
  match setitem items i x with
  | Ok items' => Q (Ok tt) (<[normalized:=OInts items']> h)
  | Raise e => Q (Raise e) h
  end →
  wp (setitem_h normalized i x) Q h.
Proof.
  intros Hres HQ. unfold setitem_h. apply wp_bind. eapply wp_load_ints; [done|].
  apply wp_bind. apply wp_lift. destruct (setitem items i x); [by apply wp_store | done].
Qed.

(** A loop that updates one list object by a step that, on values, is
    [body]: it ends with the object holding what [for_each body] returns,
    or raises what that raises.  [I] is what the step needs of the rest of
    the store. *)
Lemma wp_for_each_on {A} (I : gmap loc obj → Prop) (body_h : A → M unit)
    (body : A → list Z → res (list Z)) l xs items Q h :
  (∀ h items, I h → I (<[l:=OInts items]> h)) →
  (∀ x items Q h, I h → h !! l = Some (OInts items) →
     match body x items with
     | Ok items' => Q (Ok tt) (<[l:=OInts items']> h)
     | Raise e => Q (Raise e) h
     end → wp (body_h x) Q h) →
  I h → h !! l = Some (OInts items) →
  match for_each body xs items with
  | Ok items' => Q (Ok tt) (<[l:=OInts items']> h)
  | Raise e => ∀ items', Q (Raise e) (<[l:=OInts items']> h)
  end →
  wp (for_each_h body_h xs) Q h.
Proof.
  intros HI Hbody. revert items h.
  induction xs as [|x xs IH]; intros items h Hh Hl HQ; simpl in *.
  - apply wp_ret. by rewrite insert_id in HQ.
  - apply wp_bind. eapply Hbody; [done..|].
    destruct (body x items) as [items1|e] eqn:Hx; simpl in HQ.
    + eapply IH; [by apply HI | apply lookup_insert_eq|].
      destruct (for_each body xs items1) as [items'|e].
      * by rewrite insert_insert_eq.
      * intros items'. rewrite insert_insert_eq. apply HQ.
    + specialize (HQ items). by rewrite insert_id in HQ.
Qed.

(** ** The strategies *)

(** What is asked of a computation that stands for the value computation
    [pure]: when [pure] returns a list, a reference to a list object that
    holds it; when [pure] raises, the same exception. *)
Definition ints_result (pure : res (list Z)) (Q : res loc → gmap loc obj → Prop) : Prop :=
  match pure with
  | Ok v => ∀ l h', h' !! l = Some (OInts v) → Q (Ok l) h'
  | Raise e => ∀ h', Q (Raise e) h'
  end.

Lemma wp__normalize_equal_h count T Q h :
  ints_result (_normalize_equal count T) Q → wp (_normalize_equal_h count T) Q h.
Proof.
  unfold _normalize_equal_h, _normalize_equal, ints_result. intros HQ.
  apply wp_bind, wp_alloc. intros result Hnew. apply wp_bind.
  eapply (wp_for_each_on (λ _, True) _ incr_item result); [done| |done|apply lookup_insert_eq|].
  { intros i items Q' h' _ Hl HQ'. by eapply wp_incr_item_h. }
  destruct (for_each incr_item _ _) as [items'|e].
  - apply wp_ret, HQ. apply lookup_insert_eq.
  - intros items'. apply HQ.
Qed.

Lemma wp_largest_remainder_h exact T Q h :
  ints_result (largest_remainder exact T) Q → wp (largest_remainder_h exact T) Q h.
Proof.
  unfold largest_remainder_h, largest_remainder, ints_result. intros HQ.
  apply wp_bind, wp_lift.
  destruct (comprehension math_floor exact) as [bases|e]; simpl in *; [|apply HQ].
  apply wp_bind, wp_lift.
  destruct (fractions exact bases) as [fps|e]; simpl in *; [|apply HQ].
  apply wp_bind, wp_alloc. intros fp Hfp. apply wp_bind, wp_bind.
  eapply wp_load_fractions; [apply lookup_insert_eq|]. apply wp_store.
  rewrite insert_insert_eq. apply wp_bind, wp_alloc. intros result Hres.
  assert (result ≠ fp) as Hne.
  { intros ->. by rewrite lookup_insert_eq in Hres. }
  apply wp_bind.
  eapply (wp_for_each_on
            (λ h, h !! fp = Some (OFractions (sorted fraction_key float_int_lt fps)))
            _ (λ i result, x ← getitem (sorted fraction_key float_int_lt fps) i;
                           incr_item x.1 result) result).
  - intros h' items Hh'. by rewrite lookup_insert_ne.
  - intros i items Q' h' Hh' Hitems HQ'. apply wp_bind.
    eapply wp_load_fractions; [done|]. apply wp_bind, wp_lift.
    destruct (getitem _ i) as [x|e]; simpl in *; [|done].
    by eapply wp_incr_item_h.
  - rewrite lookup_insert_ne by done. apply lookup_insert_eq.
  - apply lookup_insert_eq.
  - destruct (for_each _ _ _) as [items'|e].
    + apply wp_ret, HQ. apply lookup_insert_eq.
    + intros items'. apply HQ.
Qed.

Lemma wp_load_splits refs ss Q h :
  Forall2 (λ r s, h !! r = Some (OSplit s)) refs ss →
  Q (Ok ss) h → wp (comprehension_h load_split refs) Q h.
Proof. apply (wp_load_all load_split OSplit). apply wp_load_split. Qed.

Lemma wp__normalize_percentage_h refs ss T Q h :
  Forall2 (λ r s, h !! r = Some (OSplit s)) refs ss →
  ints_result (_normalize_percentage ss T) Q → wp (_normalize_percentage_h refs T) Q h.
Proof.
  intros Hrefs. unfold _normalize_percentage_h, _normalize_percentage. intros HQ.
  apply wp_bind. eapply wp_load_splits; [done|]. apply wp_bind, wp_lift.
  destruct (comprehension get_share ss) as [shares|e]; simpl in *; [|apply HQ].
  destruct (out_of_tolerance _); [apply wp_lift, HQ|].
  apply wp_bind, wp_lift.
  destruct (percentage_exact_amounts ss T) as [exact|e]; simpl in *; [|apply HQ].
  by apply wp_largest_remainder_h.
Qed.

Lemma wp__normalize_weight_h refs ss T Q h :
  Forall2 (λ r s, h !! r = Some (OSplit s)) refs ss →
  ints_result (_normalize_weight ss T) Q → wp (_normalize_weight_h refs T) Q h.
Proof.
  intros Hrefs. unfold _normalize_weight_h, _normalize_weight. intros HQ.
  apply wp_bind. eapply wp_load_splits; [done|]. apply wp_bind, wp_lift.
  destruct (comprehension get_share ss) as [shares|e]; simpl in *; [|apply HQ].
  destruct (PrimFloat.leb _ _); [apply wp_lift, HQ|].
  apply wp_bind, wp_lift.
  destruct (weight_exact_amounts ss _ T) as [exact|e]; simpl in *; [|apply HQ].
  by apply wp_largest_remainder_h.
Qed.

Lemma wp__normalize_amount_h refs ss T Q h :
  Forall2 (λ r s, h !! r = Some (OSplit s)) refs ss →
  ints_result (_normalize_amount ss T) Q → wp (_normalize_amount_h refs T) Q h.
Proof.
  intros Hrefs. unfold _normalize_amount_h, ints_result. intros HQ.
  apply wp_bind. eapply wp_load_splits; [done|]. apply wp_bind, wp_lift.
  destruct (_normalize_amount ss T) as [amounts|e]; [|apply HQ].
  apply wp_alloc. intros l _. apply HQ, lookup_insert_eq.
Qed.

Lemma wp_normalize_by_type_h ty refs ss T Q h :
  Forall2 (λ r s, h !! r = Some (OSplit s)) refs ss →
  ints_result (normalize_by_type ty ss T) Q → wp (normalize_by_type_h ty refs T) Q h.
Proof.
  intros Hrefs. unfold normalize_by_type_h, normalize_by_type.
  rewrite (Forall2_length _ _ _ Hrefs).
  repeat case_match;
    eauto using wp__normalize_equal_h, wp__normalize_percentage_h,
      wp__normalize_weight_h, wp__normalize_amount_h.
  intros HQ. apply wp_lift, HQ.
Qed.

(** ** [normalize_shares] *)

Lemma insert_sorted_fmap {A B K} (f : A → B) (key : A → K) (key' : B → K) lt x l :
  (∀ x, key' (f x) = key x) →
  f <$> insert_sorted key lt x l = insert_sorted key' lt (f x) (f <$> l).
Proof.
  intros Hkey. induction l as [|y l IH]; [done|]. csimpl. rewrite !Hkey.
  destruct (lt (key y) (key x)); csimpl; by rewrite ?IH.
Qed.

Lemma sorted_fmap {A B K} (f : A → B) (key : A → K) (key' : B → K) lt l :
  (∀ x, key' (f x) = key x) →
  f <$> sorted key lt l = sorted key' lt (f <$> l).
Proof.
  intros Hkey. induction l as [|x l IH]; [done|]. simpl.
  by rewrite (insert_sorted_fmap f key key'), IH.
Qed.

Lemma enumerate_fmap {A B} (f : A → B) (l : list A) :
  (λ x : nat * A, (x.1, f x.2)) <$> enumerate l = enumerate (f <$> l).
Proof.
  apply list_eq. intros i. rewrite list_lookup_fmap.
  destruct (enumerate l !! i) as [[j x]|] eqn:Hi; simpl.
  - apply enumerate_lookup in Hi as [-> Hx]. symmetry. apply enumerate_lookup.
    split; [done|]. by rewrite list_lookup_fmap, Hx.
  - symmetry. apply lookup_ge_None. apply lookup_ge_None in Hi.
    rewrite enumerate_length in Hi. by rewrite enumerate_length, length_fmap.
Qed.

Lemma stable_order_h_splits refs ss :
  length refs = length ss →
  (λ x : nat * (loc * Split), (x.1, x.2.2)) <$> stable_order_h refs ss = stable_order ss.
Proof.
  intros Hlen. unfold stable_order_h, stable_order.
  rewrite (sorted_fmap _ _ (λ x : nat * Split, (participantId x.2, x.1))) by done.
  f_equal. rewrite (enumerate_fmap snd). f_equal. apply snd_zip. lia.
Qed.

Lemma stable_order_h_refs (h : gmap loc obj) refs ss :
  Forall2 (λ r s, h !! r = Some (OSplit s)) refs ss →
  Forall2 (λ r s, h !! r = Some (OSplit s))
    ((λ x : nat * (loc * Split), x.2.1) <$> stable_order_h refs ss)
    (stable_order ss).*2.
Proof.
  intros Hall. rewrite <-(stable_order_h_splits refs ss) by (by eapply Forall2_length).
  rewrite <-list_fmap_compose. apply Forall2_fmap, Forall_Forall2_diag.
  apply Forall_forall. intros [i [r s]] Hin. simpl.
  unfold stable_order_h in Hin. rewrite sorted_perm in Hin.
  apply list_elem_of_lookup in Hin as [k Hk]. apply enumerate_lookup in Hk as [_ Hk].
  apply lookup_zip_with_Some in Hk as (r' & s' & [= <- <-] & Hr & Hs).
  by apply (Forall2_lookup_lr _ _ _ _ _ _ Hall Hr Hs).
Qed.

Lemma for_each_ext {A S} (body body' : A → S → res S) xs s :
  (∀ x s, x ∈ xs → body x s = body' x s) → for_each body xs s = for_each body' xs s.
Proof.
  revert s. induction xs as [|x xs IH]; intros s Hext; [done|]. simpl.
  rewrite Hext by left. destruct (body' x s); simpl; [|done].
  apply IH. intros x' s' Hx'. apply Hext. by right.
Qed.

Lemma scatter_fst {B B'} (stable : list (nat * B)) (stable' : list (nat * B')) sn nz :
  stable.*1 = stable'.*1 → scatter stable sn nz = scatter stable' sn nz.
Proof.
  intros Heq. unfold scatter. apply for_each_ext. intros [k a] nz' _.
  assert (fst <$> stable !! k = fst <$> stable' !! k) as Hk.
  { by rewrite <-!list_lookup_fmap, Heq. }
  unfold getitem. destruct (stable !! k) as [x|], (stable' !! k) as [x'|]; simplify_eq/=; try done.
  by rewrite Hk.
Qed.

(** On a store that holds the list of splits, [normalize_shares_h] returns
    a reference to a list object holding what [normalize_shares] returns
    on the splits, or raises what it raises. *)
Lemma normalize_shares_h_refines (h : gmap loc obj) l refs splits T :
  h !! l = Some (ORefs refs) →
  Forall2 (λ r s, h !! r = Some (OSplit s)) refs splits →
  wp (normalize_shares_h l T)
    (λ r h', match normalize_shares splits T with
             | Ok shares => ∃ l', r = Ok l' ∧ h' !! l' = Some (OInts shares)
             | Raise e => r = Raise e
             end) h.
Proof.
  intros Hl Hrefs. unfold normalize_shares_h. apply wp_bind.
  eapply wp_load_refs; [done|].
  destruct Hrefs as [|r0 first refs rest Hr0 Hrefs].
  { apply wp_alloc. intros l' _. simpl. exists l'. by rewrite lookup_insert_eq. }
  assert (Forall2 (λ r s, h !! r = Some (OSplit s)) (r0 :: refs) (first :: rest)) as Hall
    by (by constructor).
  pose proof (Forall2_length _ _ _ Hall) as Hlen.
  unfold normalize_shares. destruct (decide (T = 0)) as [_|HT].
  { apply wp_alloc. intros l' _. exists l'. by rewrite lookup_insert_eq, Hlen. }
  apply wp_bind. eapply wp_load_split; [done|].
  apply wp_bind. eapply wp_load_splits; [done|].
  destruct (negb (forallb _ (first :: rest))); [by apply wp_lift|].
  apply wp_bind.
  eapply wp_normalize_by_type_h; [by apply stable_order_h_refs|].
  unfold ints_result.
  destruct (normalize_by_type _ _ T) as [sn|e]; simpl; [|done].
  intros lsn h1 Hsn. apply wp_bind, wp_alloc. intros ln Hln.
  assert (lsn ≠ ln) as Hne by (intros ->; congruence).
  apply wp_bind. eapply wp_load_ints; [by rewrite lookup_insert_ne|].
  apply wp_bind.
  eapply (wp_for_each_on (λ _, True) _
            (λ '(stable_index, amount) normalized,
               x ← getitem (stable_order_h (r0 :: refs) (first :: rest)) stable_index;
               setitem normalized x.1 amount) ln);
    [done| |done|apply lookup_insert_eq|].
  { intros [k a] items Q' h' _ Hitems HQ'. apply wp_bind, wp_lift.
    destruct (getitem _ k) as [x|e]; simpl in *; [|done].
    by eapply wp_setitem_h. }
  assert (length refs = length rest) as -> by (simpl in Hlen; lia).
  assert (∀ nz, for_each
            (λ '(stable_index, amount) normalized,
               x ← getitem (stable_order_h (r0 :: refs) (first :: rest)) stable_index;
               setitem normalized x.1 amount)
            (enumerate sn) nz
          = scatter (stable_order (first :: rest)) sn nz) as ->.
  { intros nz.
    change (for_each _ (enumerate sn) nz)
      with (scatter (stable_order_h (r0 :: refs) (first :: rest)) sn nz).
    apply scatter_fst. rewrite <-(stable_order_h_splits (r0 :: refs)) by done.
    by rewrite <-list_fmap_compose. }
  destruct (scatter _ sn _) as [res|e].
  - apply wp_ret. exists ln. by rewrite lookup_insert_eq.
  - done.
Qed.

(** ** [resolve_debts] *)

(** The store holds the state [st] of the loop: the two lists of
    references, the entry dicts they refer to (all distinct), the list of
    settlements, and the names. *)
Definition holds_state (h : gmap loc obj) (debtors_ref creditors_ref settlements_ref
    participants : loc) (names : gmap string string) (st : state) : Prop :=
  ∃ dl cl,
    h !! debtors_ref = Some (ORefs dl)
    ∧ h !! creditors_ref = Some (ORefs cl)
    ∧ h !! settlements_ref = Some (OSettlements (settlements st))
    ∧ h !! participants = Some (ONames names)
    ∧ Forall2 (λ r e, h !! r = Some (OEntry e)) dl (debtors st)
    ∧ Forall2 (λ r e, h !! r = Some (OEntry e)) cl (creditors st)
    ∧ NoDup (dl ++ cl).

Lemma Forall2_entries_insert (h : gmap loc obj) refs es l o :
  Forall2 (λ r e, h !! r = Some (OEntry e)) refs es →
  l ∉ refs →
  Forall2 (λ r e, <[l:=o]> h !! r = Some (OEntry e)) refs es.
Proof.
  intros Hall Hl. induction Hall as [|r e refs es Hr Hall IH]; constructor.
  - rewrite lookup_insert_ne; [done|]. intros ->. apply Hl. left.
  - apply IH. intros Hin. apply Hl. by right.
Qed.

Lemma Forall2_entries_update (h : gmap loc obj) refs es i r e e' :
  Forall2 (λ r e, h !! r = Some (OEntry e)) refs es →
  NoDup refs → refs !! i = Some r → es !! i = Some e →
  Forall2 (λ x y, <[r:=OEntry e']> h !! x = Some (OEntry y)) refs (<[i:=e']> es).
Proof.
  intros Hall Hnd Hr He. apply Forall2_same_length_lookup. split.
  - rewrite length_insert. by eapply Forall2_length.
  - intros j r' e'' Hr' He''. destruct (decide (i = j)) as [<-|Hne].
    + rewrite list_lookup_insert_eq in He'' by (by eapply lookup_lt_Some).
      simplify_eq. apply lookup_insert_eq.
    + rewrite list_lookup_insert_ne in He'' by done.
      rewrite lookup_insert_ne.
      * by apply (Forall2_lookup_lr _ _ _ _ _ _ Hall Hr' He'').
      * intros Heq. subst r'. apply Hne. by eapply NoDup_lookup.
Qed.

Lemma Forall2_entries_not_in (h : gmap loc obj) refs es l o :
  Forall2 (λ r e, h !! r = Some (OEntry e)) refs es →
  h !! l = Some o → (∀ e, o ≠ OEntry e) → l ∉ refs.
Proof.
  intros Hall Hl Ho Hin. apply list_elem_of_lookup in Hin as [i Hi].
  eapply Forall2_lookup_l in Hall as (e & _ & He); [|done]. naive_solver.
Qed.

Lemma step_h_refines h ld lc ls ln names st :
  holds_state h ld lc ls ln names st →
  wp (step_h ld lc ls ln (d_idx st) (c_idx st))
    (λ r h', match step names st with
             | Some st' => r = Ok (Some (d_idx st', c_idx st'))
                           ∧ holds_state h' ld lc ls ln names st'
             | None => r = Ok None ∧ holds_state h' ld lc ls ln names st
             end) h.
Proof.
  intros (dl & cl & Hld & Hlc & Hls & Hln & Hd & Hc & Hnd).
  unfold step_h, step.
  apply wp_bind. eapply wp_load_refs; [done|].
  apply wp_bind. eapply wp_load_refs; [done|].
  destruct (debtors st !! d_idx st) as [debtor|] eqn:Hdeb; last first.
  { assert (dl !! d_idx st = None) as ->.
    { apply lookup_ge_None. apply lookup_ge_None in Hdeb.
      by rewrite (Forall2_length _ _ _ Hd). }
    apply wp_ret. split; [done|]. by exists dl, cl. }
  destruct (creditors st !! c_idx st) as [creditor|] eqn:Hcre; last first.
  { assert (cl !! c_idx st = None) as ->.
    { apply lookup_ge_None. apply lookup_ge_None in Hcre.
      by rewrite (Forall2_length _ _ _ Hc). }
    destruct (dl !! d_idx st); apply wp_ret; (split; [done|]); by exists dl, cl. }
  destruct (Forall2_lookup_r _ _ _ _ _ Hd Hdeb) as (rd & Hrd & Hhd).
  destruct (Forall2_lookup_r _ _ _ _ _ Hc Hcre) as (rc & Hrc & Hhc).
  rewrite Hrd, Hrc.
  apply NoDup_app in Hnd as Hnd'. destruct Hnd' as (Hndd & Hdis & Hndc).
  assert (rd ∈ dl) as Hrdin by (by eapply list_elem_of_lookup_2).
  assert (rc ∈ cl) as Hrcin by (by eapply list_elem_of_lookup_2).
  assert (rd ≠ rc) as Hne by (intros ->; by apply (Hdis rc)).
  assert (ls ≠ rd ∧ ls ≠ rc ∧ ld ≠ rd ∧ ld ≠ rc ∧ lc ≠ rd ∧ lc ≠ rc ∧ ln ≠ rd ∧ ln ≠ rc
          ∧ ls ≠ ld ∧ ls ≠ lc ∧ ls ≠ ln)
    as (? & ? & ? & ? & ? & ? & ? & ? & ? & ? & ?).
  { split_and!; intros ->; congruence. }
  apply wp_bind. eapply wp_load_entry; [done|].
  apply wp_bind. eapply wp_load_entry; [done|].
  apply wp_bind. eapply wp_load_names; [done|].
  apply wp_bind. eapply wp_load_settlements; [done|].
  apply wp_bind, wp_store.
  apply wp_bind. eapply wp_load_entry; [by rewrite lookup_insert_ne|].
  apply wp_bind, wp_store.
  apply wp_bind. eapply wp_load_entry; [by rewrite !lookup_insert_ne|].
  apply wp_bind, wp_store.
  apply wp_bind. eapply wp_load_entry.
  { rewrite lookup_insert_ne by done. apply lookup_insert_eq. }
  apply wp_bind. eapply wp_load_entry; [apply lookup_insert_eq|].
  apply wp_ret. split; [done|].
  set (amount := Z.min (Z.abs debtor.2) creditor.2).
  exists dl, cl. cbn [settlements debtors creditors d_idx c_idx].
  split_and!.
  - by rewrite !lookup_insert_ne.
  - by rewrite !lookup_insert_ne.
  - rewrite !lookup_insert_ne by done. apply lookup_insert_eq.
  - by rewrite !lookup_insert_ne.
  - apply Forall2_entries_insert; [|by intros ?; apply (Hdis rc)].
    apply (Forall2_entries_update _ _ _ _ _ debtor); [|done..].
    apply Forall2_entries_insert; [done|].
    by eapply Forall2_entries_not_in.
  - apply (Forall2_entries_update _ _ _ _ _ creditor); [|done..].
    apply Forall2_entries_insert; [|by intros ?; apply (Hdis rd)].
    apply Forall2_entries_insert; [done|].
    by eapply Forall2_entries_not_in.
  - done.
Qed.

Lemma resolve_loop_h_refines fuel h ld lc ls ln names st :
  holds_state h ld lc ls ln names st →
  wp (resolve_loop_h fuel ld lc ls ln (d_idx st) (c_idx st))
    (λ r h', match resolve_loop fuel names st with
             | Some st' => r = Ok true ∧ holds_state h' ld lc ls ln names st'
             | None => r = Ok false
             end) h.
Proof.
  revert h st. induction fuel as [|fuel IH]; intros h st Hst; simpl; [done|].
  apply wp_bind. eapply wp_mono; [by apply step_h_refines|].
  intros r h'. simpl. destruct (step names st) as [st'|].
  - intros [-> Hst']. by apply IH.
  - by intros [-> Hst'].
Qed.

(** The [for] loop over [balances.items()]: the entries of negative
    balance are appended to [debtors], those of positive balance to
    [creditors], in order. *)
Lemma build_entries_refines items h ld lc dl cl D C Q :
  h !! ld = Some (ORefs dl) → h !! lc = Some (ORefs cl) → ld ≠ lc →
  Forall2 (λ r e, h !! r = Some (OEntry e)) dl D →
  Forall2 (λ r e, h !! r = Some (OEntry e)) cl C →
  NoDup (dl ++ cl) →
  (∀ h' dl' cl',
     h' !! ld = Some (ORefs dl') → h' !! lc = Some (ORefs cl') →
     Forall2 (λ r e, h' !! r = Some (OEntry e)) dl' (D ++ filter (λ e, e.2 < 0) items) →
     Forall2 (λ r e, h' !! r = Some (OEntry e)) cl' (C ++ filter (λ e, 0 < e.2) items) →
     NoDup (dl' ++ cl') →
     (∀ l o, h !! l = Some o → l ≠ ld → l ≠ lc → h' !! l = Some o) →
     Q (Ok tt) h') →
  wp (for_each_h
        (λ '(p_id, amount),
           if decide (amount < 0)
           then e ← alloc (OEntry (p_id, amount)); append_ref ld e
           else if decide (0 < amount)
           then e ← alloc (OEntry (p_id, amount)); append_ref lc e
           else mret tt)
        items) Q h.
Proof.
  revert h dl cl D C.
  induction items as [|[p_id amount] items IH]; intros h dl cl D C Hld Hlc Hne Hd Hc Hnd HQ.
  { simpl. apply wp_ret. apply (HQ h dl cl); rewrite ?filter_nil, ?app_nil_r; auto. }
  cbn [for_each_h]. apply wp_bind. rewrite !filter_cons in HQ. simpl in HQ.
  assert (ld ∉ dl ∧ ld ∉ cl ∧ lc ∉ dl ∧ lc ∉ cl) as (? & ? & ? & ?).
  { split_and!; eapply Forall2_entries_not_in; done. }
  destruct (decide (amount < 0)) as [Hneg|Hneg].
  - rewrite decide_False in HQ by lia.
    apply wp_bind, wp_alloc. intros e He. unfold append_ref.
    assert (e ≠ ld ∧ e ≠ lc) as [? ?] by (split; intros ->; congruence).
    apply wp_bind. eapply wp_load_refs; [by rewrite lookup_insert_ne|]. apply wp_store.
    assert (e ∉ dl ++ cl) as Hfresh.
    { intros [Hin|Hin]%elem_of_app; apply list_elem_of_lookup in Hin as [i Hi].
      - eapply Forall2_lookup_l in Hd as (? & _ & ?); [|done]. congruence.
      - eapply Forall2_lookup_l in Hc as (? & _ & ?); [|done]. congruence. }
    eapply (IH _ (dl ++ [e]) cl (D ++ [(p_id, amount)]) C).
    + apply lookup_insert_eq.
    + by rewrite !lookup_insert_ne.
    + done.
    + apply Forall2_app.
      * apply Forall2_entries_insert; [|done]. apply Forall2_entries_insert; [done|].
        intros Hin. apply Hfresh. apply elem_of_app. by left.
      * constructor; [|constructor]. rewrite lookup_insert_ne by done.
        apply lookup_insert_eq.
    + apply Forall2_entries_insert; [|done]. apply Forall2_entries_insert; [done|].
      intros Hin. apply Hfresh. apply elem_of_app. by right.
    + rewrite <-app_assoc. simpl. rewrite <-Permutation_middle. by constructor.
    + intros h' dl' cl' Hld' Hlc' Hd' Hc' Hnd' Hframe. rewrite <-app_assoc in Hd'.
      apply (HQ h' dl' cl'); [done..|].
      intros l o Hl ? ?. apply Hframe; [|done..].
      rewrite !lookup_insert_ne; [done|congruence|congruence].
  - destruct (decide (0 < amount)) as [Hpos|Hpos].
    + apply wp_bind, wp_alloc. intros e He. unfold append_ref.
      assert (e ≠ ld ∧ e ≠ lc) as [? ?] by (split; intros ->; congruence).
      apply wp_bind. eapply wp_load_refs; [by rewrite lookup_insert_ne|]. apply wp_store.
      assert (e ∉ dl ++ cl) as Hfresh.
      { intros [Hin|Hin]%elem_of_app; apply list_elem_of_lookup in Hin as [i Hi].
        - eapply Forall2_lookup_l in Hd as (? & _ & ?); [|done]. congruence.
        - eapply Forall2_lookup_l in Hc as (? & _ & ?); [|done]. congruence. }
      eapply (IH _ dl (cl ++ [e]) D (C ++ [(p_id, amount)])).
      * by rewrite !lookup_insert_ne.
      * apply lookup_insert_eq.
      * done.
      * apply Forall2_entries_insert; [|done]. apply Forall2_entries_insert; [done|].
        intros Hin. apply Hfresh. apply elem_of_app. by left.
      * apply Forall2_app.
        -- apply Forall2_entries_insert; [|done]. apply Forall2_entries_insert; [done|].
           intros Hin. apply Hfresh. apply elem_of_app. by right.
        -- constructor; [|constructor]. rewrite lookup_insert_ne by done.
           apply lookup_insert_eq.
      * rewrite app_assoc. apply NoDup_app. split; [done|]. split; [|apply NoDup_singleton].
        intros x Hx ->%list_elem_of_singleton. done.
      * intros h' dl' cl' Hld' Hlc' Hd' Hc' Hnd' Hframe. rewrite <-app_assoc in Hc'.
        apply (HQ h' dl' cl'); [done..|].
        intros l o Hl ? ?. apply Hframe; [|done..].
        rewrite !lookup_insert_ne; [done|congruence|congruence].
    + apply wp_ret. by eapply IH.
Qed.

Lemma sort_entries_refines (h : gmap loc obj) l lt refs es Q :
  h !! l = Some (ORefs refs) →
  Forall2 (λ r e, h !! r = Some (OEntry e)) refs es →
  (∀ refs', refs' ≡ₚ refs →
     Forall2 (λ r e, <[l:=ORefs refs']> h !! r = Some (OEntry e)) refs' (sorted snd lt es) →
     Q (Ok tt) (<[l:=ORefs refs']> h)) →
  wp (sort_entries l lt) Q h.
Proof.
  intros Hl Hall HQ. unfold sort_entries.
  apply wp_bind. eapply wp_load_refs; [done|].
  apply wp_bind. eapply (wp_load_all load_entry OEntry); [apply wp_load_entry | done |].
  apply wp_store. pose proof (Forall2_length _ _ _ Hall) as Hlen.
  set (pairs := sorted (λ x : loc * (string * Z), x.2.2) lt (zip refs es)).
  assert (pairs.*1 ≡ₚ refs) as Hperm.
  { unfold pairs. rewrite sorted_perm. rewrite fst_zip by lia. done. }
  apply HQ; [done|].
  assert (sorted snd lt es = pairs.*2) as ->.
  { unfold pairs. rewrite (sorted_fmap snd _ snd) by done. by rewrite snd_zip by lia. }
  apply Forall2_fmap, Forall_Forall2_diag, Forall_forall. intros [r e] Hin.
  unfold pairs in Hin. rewrite sorted_perm in Hin.
  apply list_elem_of_lookup in Hin as [i Hi].
  apply lookup_zip_with_Some in Hi as (r' & e' & [= <- <-] & Hr & He). simpl.
  rewrite lookup_insert_ne; [by apply (Forall2_lookup_lr _ _ _ _ _ _ Hall Hr He)|].
  intros ->. pose proof (Forall2_lookup_lr _ _ _ _ _ _ Hall Hr He). congruence.
Qed.

(** On a store that holds the balances and the names, [resolve_debts_h]
    returns a reference to a list object holding the settlements
    [resolve_debts_fuel] returns, or runs out of fuel when that does. *)
Lemma resolve_debts_h_refines fuel (h : gmap loc obj) lb ln balances names :
  h !! lb = Some (OBalances balances) → h !! ln = Some (ONames names) →
  wp (resolve_debts_h fuel lb ln)
    (λ r h', match resolve_debts_fuel fuel balances names with
             | Some s => ∃ l, r = Ok (Some l) ∧ h' !! l = Some (OSettlements s)
             | None => r = Ok None
             end) h.
Proof.
  intros Hlb Hln. unfold resolve_debts_h.
  apply wp_bind, wp_alloc. intros ld Hld.
  apply wp_bind, wp_alloc. intros lc Hlc.
  assert (ld ≠ lc) as Hne by (intros ->; by rewrite lookup_insert_eq in Hlc).
  assert (lb ≠ ld ∧ ln ≠ ld) as [? ?] by (split; intros ->; congruence).
  assert (lb ≠ lc ∧ ln ≠ lc) as [? ?].
  { split; intros ->; rewrite lookup_insert_ne in Hlc by done; congruence. }
  apply wp_bind. eapply wp_load_balances; [by rewrite !lookup_insert_ne|].
  apply wp_bind.
  eapply (build_entries_refines balances _ ld lc [] [] [] []);
    [by rewrite lookup_insert_ne, lookup_insert_eq | apply lookup_insert_eq | done
    | constructor | constructor | constructor |].
  intros h1 dl cl Hld1 Hlc1 Hd1 Hc1 Hnd1 Hframe1. simpl in Hd1, Hc1.
  assert (h1 !! ln = Some (ONames names)) as Hln1.
  { apply Hframe1; [|done..]. by rewrite !lookup_insert_ne. }
  apply wp_bind. eapply sort_entries_refines; [done..|].
  intros dl' Hdl' Hd2.
  assert (ld ∉ cl) as Hldcl by (by eapply Forall2_entries_not_in).
  assert (lc ∉ dl') as Hlcdl.
  { rewrite Hdl'. by eapply Forall2_entries_not_in. }
  apply wp_bind. eapply sort_entries_refines.
  { by rewrite lookup_insert_ne. }
  { by apply Forall2_entries_insert. }
  intros cl' Hcl' Hc2.
  apply wp_bind, wp_alloc. intros ls Hls.
  assert (ls ≠ lc) as Hlsc by (intros ->; by rewrite lookup_insert_eq in Hls).
  assert (ls ≠ ld) as Hlsd.
  { intros ->. by rewrite lookup_insert_ne, lookup_insert_eq in Hls. }
  assert (ls ≠ ln) as Hlsn.
  { intros ->. rewrite !lookup_insert_ne in Hls by done. congruence. }
  apply wp_bind.
  eapply wp_mono.
  { apply (resolve_loop_h_refines fuel _ ld lc ls ln names (initial_state balances)).
    exists dl', cl'. simpl. split_and!.
    - rewrite !lookup_insert_ne by done. apply lookup_insert_eq.
    - rewrite lookup_insert_ne by done. apply lookup_insert_eq.
    - apply lookup_insert_eq.
    - by rewrite !lookup_insert_ne by done.
    - apply Forall2_entries_insert; [|shelve]. apply Forall2_entries_insert; [done|done].
    - apply Forall2_entries_insert; [done|shelve].
    - by rewrite Hdl', Hcl'. }
  intros r h'. unfold resolve_debts_fuel.
  destruct (resolve_loop fuel names (initial_state balances)) as [st'|]; simpl.
  - intros [-> (dl2 & cl2 & _ & _ & Hs & _)]. apply wp_ret. by exists ls.
  - by intros ->.
  Unshelve.
  + intros Hin. apply list_elem_of_lookup in Hin as [i Hi].
    eapply Forall2_lookup_l in Hd2 as (e & _ & He); [|done].
    rewrite lookup_insert_ne in Hls by done. congruence.
  + intros Hin. apply list_elem_of_lookup in Hin as [i Hi].
    eapply Forall2_lookup_l in Hc2 as (e & _ & He); [|done]. congruence.
Qed.

(** C9. Neither core function mutates its arguments.  On the store model,
    where the splits list, each split, the balances mapping and the names
    mapping are objects of the store passed by reference, every object that
    exists before a call of [normalize_shares_h] or of [resolve_debts_h]
    is still there with the same contents after it, whether the call
    returns or raises and whatever the fuel of the resolver's loop: the
    calls only allocate objects and write to those they allocated (the
    entries of [debtors] and [creditors] are such fresh objects). *)
Theorem arguments_not_mutated :
  (∀ (h : gmap loc obj) (splits : loc) (expense_amount : Z),
     h ⊆ (normalize_shares_h splits expense_amount h).2)
  ∧ (∀ (fuel : nat) (h : gmap loc obj) (balances participants : loc),
       h ⊆ (resolve_debts_h fuel balances participants h).2).
Proof.
  split.
  - intros h splits expense_amount.
    apply (keeps_normalize_shares_h h splits expense_amount h), extends_refl.
  - intros fuel h balances participants.
    apply (keeps_resolve_debts_h h fuel balances participants h), extends_refl.
Qed.

(** A run of the store model: two debts against one credit, one name
    missing.  The call returns the settlements in a new list object and
    the balances dict still holds the balances it was given. *)
Example resolve_debts_h_run :
  let h : gmap loc obj :=
    {[ 0%nat := OBalances [("a", -30); ("b", 50); ("c", -20)];
       1%nat := ONames {[ "a" := "Ann"; "b" := "Bob" ]} ]} in
  let '(r, h') := resolve_debts_h 4 0 1 h in
  (∃ l, r = Ok (Some l)
        ∧ h' !! l = Some (OSettlements
            [ {| s_from := "Ann"; s_to := "Bob"; s_amount := 30 |};
              {| s_from := "Unknown"; s_to := "Bob"; s_amount := 20 |} ]))
  ∧ h' !! 0%nat = Some (OBalances [("a", -30); ("b", 50); ("c", -20)]).
Proof. vm_compute. split; [eexists; split; reflexivity | reflexivity]. Qed.

(** * Further properties of the resolver *)

(** ** How much is settled *)

(** What the debtors owe and what the creditors are due, in total. *)
Definition total_owed (balances : list (string * Z)) : Z :=
  - sum_int (filter (λ e : string * Z, e.2 < 0) balances).*2.

Definition total_due (balances : list (string * Z)) : Z :=
  sum_int (filter (λ e : string * Z, 0 < e.2) balances).*2.

(** The amounts settled so far are what the debtor entries have lost and
    what the creditor entries have lost; the entries behind the pointers
    are at zero. *)
Definition accounted (balances : list (string * Z)) (st : state) : Prop :=
  Forall (λ e, e.2 = 0) (take (d_idx st) (debtors st))
  ∧ Forall (λ e, e.2 = 0) (take (c_idx st) (creditors st))
  ∧ sum_int (s_amount <$> settlements st) - sum_int (debtors st).*2 = total_owed balances
  ∧ sum_int (s_amount <$> settlements st) + sum_int (creditors st).*2 = total_due balances.

Lemma initial_state_accounted balances : accounted balances (initial_state balances).
Proof.
  unfold accounted, total_owed, total_due. simpl.
  split_and!; [constructor..| |]; rewrite sorted_perm, sum_int_nil; lia.
Qed.

Lemma take_zero_step (l : list (string * Z)) i x y :
  l !! i = Some x → Forall (λ e, e.2 = 0) (take i l) →
  Forall (λ e, e.2 = 0) (take (if decide (y.2 = 0) then S i else i) (<[i:=y]> l)).
Proof.
  intros Hi Hz. case_decide as Hy.
  - rewrite (take_S_r _ _ y) by (apply list_lookup_insert_eq; by eapply lookup_lt_Some).
    rewrite take_insert_ge by lia. apply Forall_app. split; [done | by constructor].
  - by rewrite take_insert_ge by lia.
Qed.

Lemma step_accounted balances names st st' :
  wf_state st → accounted balances st → step names st = Some st' → accounted balances st'.
Proof.
  intros Hwf (Hzd & Hzc & Hd & Hc) Hstep.
  destruct (step_spec _ _ _ Hwf Hstep)
    as (debtor & creditor & Hdeb & Hcre & Hneg & Hpos & Hs & Hds & Hcs & Hdi & Hci & _ & _).
  unfold accounted. rewrite Hs, Hds, Hcs, Hdi, Hci. split_and!.
  - by apply (take_zero_step _ _ debtor (debtor.1, _)).
  - by apply (take_zero_step _ _ creditor (creditor.1, _)).
  - rewrite fmap_app, sum_int_app, (sum_int_insert_snd _ _ debtor) by done.
    simpl. rewrite sum_int_cons, sum_int_nil. lia.
  - rewrite fmap_app, sum_int_app, (sum_int_insert_snd _ _ creditor) by done.
    simpl. rewrite sum_int_cons, sum_int_nil. lia.
Qed.

Lemma sum_int_nonneg (l : list (string * Z)) : Forall (λ e, 0 < e.2) l → 0 ≤ sum_int l.*2.
Proof.
  induction 1 as [|e l He H IH]; [done|]. csimpl. rewrite sum_int_cons. lia.
Qed.

Lemma sum_int_nonpos (l : list (string * Z)) : Forall (λ e, e.2 < 0) l → sum_int l.*2 ≤ 0.
Proof.
  induction 1 as [|e l He H IH]; [done|]. csimpl. rewrite sum_int_cons. lia.
Qed.

Lemma split_at_sum (l : list (string * Z)) i :
  Forall (λ e, e.2 = 0) (take i l) → sum_int l.*2 = sum_int (drop i l).*2.
Proof.
  intros Hz. rewrite <-(take_drop i l) at 1.
  rewrite fmap_app, sum_int_app, (sum_int_zero _ Hz). lia.
Qed.

(** The final state of a run: everything matched that could be. *)
Lemma resolve_debts_accounted balances names :
  ∃ s, resolve_debts balances names = Some s
    ∧ sum_int (s_amount <$> s) = Z.min (total_owed balances) (total_due balances)
    ∧ (step names (initial_state balances) = None → s = []).
Proof.
  destruct (resolve_debts_fuel_enough balances names)
    as (st' & Hwf & Hfin & Hfuel & Hres & _ & Hnone).
  assert (accounted balances st') as (Hzd & Hzc & Hd & Hc).
  { eapply (resolve_loop_invariant (accounted balances));
      [ intros ????; by eapply step_accounted | apply initial_state_wf
      | apply initial_state_accounted | ].
    apply (Hfuel (S (pending (initial_state balances)))). lia. }
  exists (settlements st'). split_and!; [done| |done].
  destruct Hwf as [Hneg Hpos].
  rewrite (split_at_sum _ _ Hzd) in Hd. rewrite (split_at_sum _ _ Hzc) in Hc.
  pose proof (sum_int_nonpos _ Hneg). pose proof (sum_int_nonneg _ Hpos).
  unfold step in Hfin.
  destruct (debtors st' !! d_idx st') eqn:Hdl.
  - destruct (creditors st' !! c_idx st') eqn:Hcl; [done|].
    apply lookup_ge_None in Hcl. rewrite (drop_ge (creditors st')) in Hc by done.
    simpl in Hc. rewrite sum_int_nil in Hc. lia.
  - apply lookup_ge_None in Hdl. rewrite (drop_ge (debtors st')) in Hd by done.
    simpl in Hd. rewrite sum_int_nil in Hd. lia.
Qed.

(** X1. The settlements move, in total, the smaller of what is owed and what
    is due: all of the debt when the credit covers it, all of the credit
    otherwise.  For zero-sum balances that is all of both. *)
Theorem resolve_debts_total (balances : list (string * Z)) (names : gmap string string) :
  ∃ s, resolve_debts balances names = Some s
    ∧ sum_int (s_amount <$> s) = Z.min (total_owed balances) (total_due balances).
Proof.
  destruct (resolve_debts_accounted balances names) as (s & Hs & Hsum & _). eauto.
Qed.

Lemma filter_sign_nil_neg (l : list (string * Z)) :
  sum_int (filter (λ e : string * Z, e.2 < 0) l).*2 = 0 → Forall (λ e, 0 ≤ e.2) l.
Proof.
  intros Hsum. apply Forall_forall. intros e He.
  destruct (decide (e.2 < 0)) as [Hneg|]; [|lia].
  assert (e ∈ filter (λ e : string * Z, e.2 < 0) l) as Hin by (by apply list_elem_of_filter).
  assert (sum_int (filter (λ e : string * Z, e.2 < 0) l).*2 < 0); [|lia].
  apply sum_int_neg.
  - apply Forall_forall. intros x Hx. by apply list_elem_of_filter in Hx as [? _].
  - intros Hnil. rewrite Hnil in Hin. by apply elem_of_nil in Hin.
Qed.

Lemma filter_sign_nil_pos (l : list (string * Z)) :
  sum_int (filter (λ e : string * Z, 0 < e.2) l).*2 = 0 → Forall (λ e, e.2 ≤ 0) l.
Proof.
  intros Hsum. apply Forall_forall. intros e He.
  destruct (decide (0 < e.2)) as [Hneg|]; [|lia].
  assert (e ∈ filter (λ e : string * Z, 0 < e.2) l) as Hin by (by apply list_elem_of_filter).
  assert (0 < sum_int (filter (λ e : string * Z, 0 < e.2) l).*2); [|lia].
  apply sum_int_pos.
  - apply Forall_forall. intros x Hx. by apply list_elem_of_filter in Hx as [? _].
  - intros Hnil. rewrite Hnil in Hin. by apply elem_of_nil in Hin.
Qed.

(** X2. No payment is planned exactly when nobody owes or nobody is owed:
    when no balance is negative, or none is positive. *)
Theorem resolve_debts_nil_iff (balances : list (string * Z)) (names : gmap string string) :
  resolve_debts balances names = Some []
  ↔ Forall (λ e, 0 ≤ e.2) balances ∨ Forall (λ e, e.2 ≤ 0) balances.
Proof.
  destruct (resolve_debts_accounted balances names) as (s & Hs & Hsum & Hnone).
  rewrite Hs. split.
  - intros [= ->]. simpl in Hsum. rewrite sum_int_nil in Hsum.
    unfold total_owed, total_due in Hsum.
    assert (sum_int (filter (λ e : string * Z, e.2 < 0) balances).*2 ≤ 0) as H1.
    { apply sum_int_nonpos, Forall_forall. intros x Hx.
      by apply list_elem_of_filter in Hx as [? _]. }
    assert (0 ≤ sum_int (filter (λ e : string * Z, 0 < e.2) balances).*2) as H2.
    { apply sum_int_nonneg, Forall_forall. intros x Hx.
      by apply list_elem_of_filter in Hx as [? _]. }
    destruct (decide (sum_int (filter (λ e : string * Z, e.2 < 0) balances).*2 = 0)).
    + left. by apply filter_sign_nil_neg.
    + right. apply filter_sign_nil_pos. lia.
  - intros Hsign. f_equal. apply Hnone. unfold step. simpl. destruct Hsign as [H|H].
    + assert (filter (λ e : string * Z, e.2 < 0) balances = []) as ->; [|done].
      apply filter_eq_nil. eapply Forall_impl; [exact H|]. simpl. lia.
    + assert (filter (λ e : string * Z, 0 < e.2) balances = []) as ->.
      { apply filter_eq_nil. eapply Forall_impl; [exact H|]. simpl. lia. }
      simpl. by case_match.
Qed.

(** ** Who pays whom *)

(** A settlement between a participant who owes and one who is owed, of
    no more than the first owes and no more than the second is owed. *)
Definition between (balances : list (string * Z)) (names : gmap string string)
    (x : Settlement) : Prop :=
  ∃ d c, d ∈ balances ∧ c ∈ balances ∧ d.2 < 0 ∧ 0 < c.2
    ∧ s_from x = display names d.1 ∧ s_to x = display names c.1
    ∧ s_amount x ≤ - d.2 ∧ s_amount x ≤ c.2.

(** The entries keep their identifiers and only move towards zero. *)
Definition tracks (balances : list (string * Z)) (names : gmap string string)
    (st : state) : Prop :=
  Forall2 (λ e e0, e.1 = e0.1 ∧ e0.2 ≤ e.2) (debtors st) (debtors (initial_state balances))
  ∧ Forall2 (λ e e0, e.1 = e0.1 ∧ e.2 ≤ e0.2) (creditors st)
      (creditors (initial_state balances))
  ∧ Forall (between balances names) (settlements st).

Lemma step_tracks balances names st st' :
  wf_state st → tracks balances names st → step names st = Some st' →
  tracks balances names st'.
Proof.
  intros Hwf (Hd & Hc & Hs) Hstep.
  destruct (step_spec _ _ _ Hwf Hstep)
    as (debtor & creditor & Hdeb & Hcre & Hneg & Hpos & Hs' & Hds & Hcs & _).
  destruct (Forall2_lookup_l _ _ _ _ _ Hd Hdeb) as (d0 & Hd0 & Hid & Hle).
  destruct (Forall2_lookup_l _ _ _ _ _ Hc Hcre) as (c0 & Hc0 & Hic & Hge).
  unfold tracks. rewrite Hs', Hds, Hcs. split_and!.
  - rewrite <-(list_insert_id _ _ _ Hd0). apply Forall2_insert; [done|].
    simpl. split; [done|lia].
  - rewrite <-(list_insert_id _ _ _ Hc0). apply Forall2_insert; [done|].
    simpl. split; [done|lia].
  - apply Forall_app. split; [done|]. constructor; [|constructor].
    exists d0, c0. simpl in Hd0, Hc0.
    apply list_elem_of_lookup_2 in Hd0, Hc0. rewrite sorted_perm in Hd0, Hc0.
    apply list_elem_of_filter in Hd0 as [Hd0 ?], Hc0 as [Hc0 ?].
    simpl. rewrite Hid, Hic. split_and!; [done..|lia|lia].
Qed.

(** X3. Every settlement is from a participant whose balance is negative to
    one whose balance is positive (under their display names), and its
    amount exceeds neither what the payer owes nor what the payee is
    owed: nobody with a balance of zero or more is asked to pay, and
    nobody is asked for more than their debt. *)
Theorem resolve_debts_parties (balances : list (string * Z)) (names : gmap string string) :
  ∃ s, resolve_debts balances names = Some s ∧ Forall (between balances names) s.
Proof.
  destruct (resolve_debts_invariant (tracks balances names) balances names)
    as (st' & Hres & (_ & _ & Hs) & _).
  - intros st st'. apply step_tracks.
  - split_and!; [apply Forall_Forall2_diag, Forall_forall; intros; split; [done|lia]..
                |constructor].
  - eauto.
Qed.

(** ** Largest amounts first *)

Lemma sorted_ascending (l : list (string * Z)) :
  StronglySorted (λ x y, x.2 ≤ y.2) (sorted snd Z.ltb l).
Proof.
  pose proof (sorted_sorted (snd : string * Z → Z) Z.ltb (λ _, True)) as H.
  eapply StronglySorted_mono; [|apply H].
  - intros x y. unfold not_after. lia.
  - intros a b _ _. lia.
  - intros a b c _ _ _. lia.
  - by apply Forall_true.
Qed.

Lemma sorted_descending (l : list (string * Z)) :
  StronglySorted (λ x y, y.2 ≤ x.2) (sorted snd (λ a b, Z.ltb b a) l).
Proof.
  pose proof (sorted_sorted (snd : string * Z → Z) (λ a b, Z.ltb b a) (λ _, True)) as H.
  eapply StronglySorted_mono; [|apply H].
  - intros x y. unfold not_after. lia.
  - intros a b _ _. lia.
  - intros a b c _ _ _. lia.
  - by apply Forall_true.
Qed.

(** The first debtor entry has the lowest balance of all, the first
    creditor entry the highest. *)
Lemma initial_state_heads (balances : list (string * Z)) d c :
  d ∈ balances → d.2 < 0 → c ∈ balances → 0 < c.2 →
  ∃ dmin cmax D C,
    debtors (initial_state balances) = dmin :: D
    ∧ creditors (initial_state balances) = cmax :: C
    ∧ dmin ∈ balances ∧ cmax ∈ balances
    ∧ dmin.2 < 0 ∧ 0 < cmax.2
    ∧ ∀ e, e ∈ balances → dmin.2 ≤ e.2 ≤ cmax.2.
Proof.
  intros Hd Hdn Hc Hcp. simpl.
  pose proof (sorted_ascending (filter (λ e : string * Z, e.2 < 0) balances)) as HsD.
  pose proof (sorted_descending (filter (λ e : string * Z, 0 < e.2) balances)) as HsC.
  pose proof (sorted_perm snd Z.ltb (filter (λ e : string * Z, e.2 < 0) balances)) as HpD.
  pose proof (sorted_perm snd (λ a b, Z.ltb b a)
                (filter (λ e : string * Z, 0 < e.2) balances)) as HpC.
  destruct (sorted snd Z.ltb _) as [|dmin D].
  { apply Permutation_nil_l in HpD.
    assert (d ∈ filter (λ e : string * Z, e.2 < 0) balances) as Hin
      by (by apply list_elem_of_filter).
    rewrite <-HpD in Hin. by apply elem_of_nil in Hin. }
  destruct (sorted snd (λ a b, Z.ltb b a) _) as [|cmax C].
  { apply Permutation_nil_l in HpC.
    assert (c ∈ filter (λ e : string * Z, 0 < e.2) balances) as Hin
      by (by apply list_elem_of_filter).
    rewrite <-HpC in Hin. by apply elem_of_nil in Hin. }
  assert (dmin ∈ filter (λ e : string * Z, e.2 < 0) balances) as Hdmin
    by (rewrite <-HpD; left).
  assert (cmax ∈ filter (λ e : string * Z, 0 < e.2) balances) as Hcmax
    by (rewrite <-HpC; left).
  apply list_elem_of_filter in Hdmin as [? ?], Hcmax as [? ?].
  apply StronglySorted_inv in HsD as [_ HsD], HsC as [_ HsC].
  rewrite Forall_forall in HsD, HsC.
  exists dmin, cmax, D, C. split_and!; [done..|]. intros e He. split.
  - destruct (decide (e.2 < 0)); [|lia].
    assert (e ∈ dmin :: D) as Hin by (rewrite HpD; by apply list_elem_of_filter).
    apply elem_of_cons in Hin as [->|Hin]; [lia | by apply HsD].
  - destruct (decide (0 < e.2)); [|lia].
    assert (e ∈ cmax :: C) as Hin by (rewrite HpC; by apply list_elem_of_filter).
    apply elem_of_cons in Hin as [->|Hin]; [lia | by apply HsC].
Qed.

(** X4. When somebody owes and somebody is owed, the plan starts with the
    largest amounts: its first settlement is from a participant of lowest
    balance to a participant of highest balance, and is the smaller of
    that debt and that credit. *)
Theorem resolve_debts_largest_first (balances : list (string * Z))
    (names : gmap string string) (d c : string * Z) :
  d ∈ balances → d.2 < 0 → c ∈ balances → 0 < c.2 →
  ∃ x rest dmin cmax,
    resolve_debts balances names = Some (x :: rest)
    ∧ dmin ∈ balances ∧ cmax ∈ balances
    ∧ (∀ e, e ∈ balances → dmin.2 ≤ e.2 ≤ cmax.2)
    ∧ s_from x = display names dmin.1
    ∧ s_to x = display names cmax.1
    ∧ s_amount x = Z.min (- dmin.2) cmax.2.
Proof.
  intros Hd Hdn Hc Hcp.
  destruct (initial_state_heads balances d c Hd Hdn Hc Hcp)
    as (dmin & cmax & D & C & HD & HC & Hdmin & Hcmax & Hneg & Hpos & Hext).
  set (x := {| s_from := display names dmin.1; s_to := display names cmax.1;
               s_amount := Z.min (- dmin.2) cmax.2 |}).
  destruct (resolve_debts_invariant
              (λ st, st = initial_state balances ∨ ∃ rest, settlements st = x :: rest)
              balances names) as (st' & Hres & HJ & _ & Hfin).
  - intros st st' Hwf HJ Hstep.
    destruct (step_spec _ _ _ Hwf Hstep)
      as (debtor & creditor & Hdeb & Hcre & _ & _ & Hs & _).
    right. destruct HJ as [->|[rest Hrest]].
    + rewrite HD in Hdeb. rewrite HC in Hcre. simpl in Hdeb, Hcre.
      injection Hdeb as <-. injection Hcre as <-. exists []. by rewrite Hs.
    + rewrite Hs, Hrest. by eexists.
  - by left.
  - destruct HJ as [->|[rest Hrest]].
    + unfold step in Hfin. by rewrite HD, HC in Hfin.
    + exists x, rest, dmin, cmax. rewrite Hres, Hrest. done.
Qed.

Lemma resolve_debts_largest_first_applied :
  ∃ x rest dmin cmax,
    resolve_debts [("a", -10); ("b", 25); ("c", -40); ("d", 25)] ∅ = Some (x :: rest)
    ∧ dmin ∈ [("a", -10); ("b", 25); ("c", -40); ("d", 25)]
    ∧ cmax ∈ [("a", -10); ("b", 25); ("c", -40); ("d", 25)]
    ∧ (∀ e, e ∈ [("a", -10); ("b", 25); ("c", -40); ("d", 25)] → dmin.2 ≤ e.2 ≤ cmax.2)
    ∧ s_from x = display ∅ dmin.1
    ∧ s_to x = display ∅ cmax.1
    ∧ s_amount x = Z.min (- dmin.2) cmax.2.
Proof.
  apply (resolve_debts_largest_first [("a", -10); ("b", 25); ("c", -40); ("d", 25)] ∅
           ("a", -10) ("b", 25)).
  - left.
  - simpl. lia.
  - right. left.
  - simpl. lia.
Defined.

(** * Further properties of the normaliser *)

(** ** The [amount] strategy *)

Lemma explicit_amounts ss (amounts : list Z) :
  Forall2 (λ s a, amount s = Some a) ss amounts →
  amounts = (λ s, default 0 (amount s)) <$> ss.
Proof.
  induction 1 as [|s a ss amounts Ha _ IH]; [done|]. csimpl. by rewrite Ha, IH.
Qed.

(** X5. Explicit amounts that add up to the total are returned as they are,
    each at the position of its split: the canonical reordering inside
    [normalize_shares] is undone in the result. *)
Theorem amount_split_shares (splits : list Split) (T : Z) (amounts : list Z) :
  splits ≠ [] → T ≠ 0 → Forall (λ s, shareType s = "amount") splits →
  Forall2 (λ s a, amount s = Some a) splits amounts → sum_int amounts = T →
  normalize_shares splits T = Ok amounts.
Proof.
  intros Hne HT Hty Ham Hsum. destruct splits as [|first rest]; [done|].
  assert (shareType first = "amount") as Hfirst by (by inversion Hty).
  pose proof (explicit_amounts _ _ Ham) as Heq.
  set (f := λ s : Split, default 0 (amount s)) in *.
  set (sn := f <$> (stable_order (first :: rest)).*2).
  assert (Forall (λ s, amount s = Some (f s)) (first :: rest)) as Hall.
  { apply Forall_forall. intros s Hs. apply list_elem_of_lookup in Hs as [i Hi].
    destruct (Forall2_lookup_l _ _ _ _ _ Ham Hi) as (a & _ & Ha). unfold f. by rewrite Ha. }
  destruct (normalize_shares_scatter first rest T sn) as (res & Hres & Hl & _ & Hpos).
  - done.
  - by rewrite Hfirst.
  - rewrite Hfirst. unfold normalize_by_type. simpl String.eqb. cbv iota.
    apply _normalize_amount_Ok. split.
    + apply Forall2_fmap_r, Forall_Forall2_diag. by rewrite stable_order_snd.
    + unfold sn. by rewrite stable_order_snd, <-Heq.
  - unfold sn. by rewrite !length_fmap, stable_order_length.
  - rewrite Hres. f_equal. apply list_eq. intros i.
    destruct ((first :: rest) !! i) as [s|] eqn:Hi.
    + destruct (stable_order_position _ _ _ Hi) as [k Hk].
      rewrite (Hpos k i s Hk), Heq. unfold sn.
      by rewrite !list_lookup_fmap, Hk, Hi.
    + apply lookup_ge_None in Hi. rewrite !(proj2 (lookup_ge_None _ _)); [done|..].
      * rewrite Heq, length_fmap. lia.
      * lia.
Qed.

Lemma amount_split_shares_applied :
  normalize_shares [amt "b" 70; amt "c" (-20); amt "a" 50] 100 = Ok [70; -20; 50].
Proof.
  apply amount_split_shares; [done | lia | repeat constructor.. | reflexivity].
Defined.

(** ** The [weight] strategy *)



(** ** A share that is not a number *)













(** * Further properties on the store *)

Lemma keeps_resolve_debts_h_new (h0 : gmap loc obj) fuel balances participants :
  keeps h0 (resolve_debts_h fuel balances participants)
    (λ r, match r with Some l => is_new h0 l | None => True end).
Proof.
  unfold resolve_debts_h.
  eapply keeps_bind; [apply keeps_alloc; constructor|]. intros debtors Hd.
  eapply keeps_bind; [apply keeps_alloc; constructor|]. intros creditors Hc.
  eapply keeps_bind; [apply keeps_load_balances|]. intros items _.
  eapply keeps_bind.
  { apply keeps_for_each. intros [p_id amount] _.
    repeat case_decide.
    - eapply keeps_bind; [by apply keeps_alloc|]. intros e He. by apply keeps_append_ref.
    - eapply keeps_bind; [by apply keeps_alloc|]. intros e He. by apply keeps_append_ref.
    - by apply keeps_ret. }
  intros _ _. eapply keeps_bind; [by apply keeps_sort_entries|]. intros _ _.
  eapply keeps_bind; [by apply keeps_sort_entries|]. intros _ _.
  eapply keeps_bind; [by apply keeps_alloc|]. intros settlements Hs.
  eapply keeps_bind; [by apply keeps_resolve_loop_h|]. intros finished _.
  apply keeps_ret. by destruct finished.
Qed.

(** X8. What the two functions return is a new object: the list of shares and
    the list of settlements are at references at which the store held
    nothing before the call, so that no argument, and nothing else the
    caller holds, is aliased by a result. *)
Theorem results_are_new :
  (∀ (h : gmap loc obj) (splits : loc) (expense_amount : Z),
     match (normalize_shares_h splits expense_amount h).1 with
     | Ok shares => h !! shares = None
     | Raise _ => True
     end)
  ∧ (∀ (fuel : nat) (h : gmap loc obj) (balances participants : loc),
       match (resolve_debts_h fuel balances participants h).1 with
       | Ok (Some settlements) => h !! settlements = None
       | _ => True
       end).
Proof.
  split.
  - intros h splits T.
    destruct (keeps_normalize_shares_h h splits T h (extends_refl h)) as [_ H].
    destruct (normalize_shares_h splits T h).1 as [l|]; [by apply H | done].
  - intros fuel h balances participants.
    destruct (keeps_resolve_debts_h_new h fuel balances participants h (extends_refl h))
      as [_ H].
    destruct (resolve_debts_h fuel balances participants h).1 as [[l|]|]; [|done..].
    by apply (H (Some l)).
Qed.

(** * The expenses of a trip

    [verify_and_calculate_trip], from the parsed file to the balances it
    hands to [resolve_debts]: the dicts [participants] and [balances] and
    the loop over the expenses, with the status line the loop prints for
    each expense.  Reading the file and laying out the final report as
    text are not part of the model. *)

(** ** The parsed file

    The keys the code reads with [x[key]] are fields, the key it reads
    with [.get(key, default)] is an [option]; a list the code reads with
    [data.get(key, [])] is the empty list when the key is absent.  An
    amount is an [int] of minor units.  The description of an [Expense]
    is absent or a string; a description that is present and [null] is
    the business of [JsonExpense], at the end of the file. *)

Record Participant := {
  p_id : string;
  p_name : string;
}.

Record Expense := {
  e_id : string;
  e_amount : Z;
  e_paidBy : string;
  e_description : option string;
  e_date : string;
}.

(** An entry of [expenseSplits]: a split dict with its [expenseId]. *)
Record ExpenseSplit := {
  expenseId : string;
  split : Split;
}.

Record Ledger := {
  l_participants : list Participant;
  l_expenses : list Expense;
  l_expenseSplits : list ExpenseSplit;
}.

(** ** Dicts

    A dict with string keys, by its items in iteration order, which is
    the order in which the keys were first inserted. *)

Fixpoint dict_get {V} (k : string) (d : list (string * V)) : option V :=
  match d with
  | [] => None
  | (k', v) :: d' => if decide (k' = k) then Some v else dict_get k d'
  end.

(** [d[k] = v]: in place when the key is there, at the end otherwise. *)
Fixpoint dict_set {V} (k : string) (v : V) (d : list (string * V)) : list (string * V) :=
  match d with
  | [] => [(k, v)]
  | (k', v') :: d' => if decide (k' = k) then (k, v) :: d' else (k', v') :: dict_set k v d'
  end.

(** [k in d] *)
Definition dict_contains {V} (k : string) (d : list (string * V)) : bool :=
  bool_decide (is_Some (dict_get k d)).

(** [d[k]] for reading *)
Definition dict_getitem {V} (d : list (string * V)) (k : string) : res V :=
  match dict_get k d with Some v => Ok v | None => Raise (KeyError k) end.

(** [d[k] += x] and [d[k] -= x], as [d[k] = f(d[k])] *)
Definition dict_modify (f : Z → Z) (k : string) (d : list (string * Z))
    : res (list (string * Z)) :=
  v ← dict_getitem d k; Ok (dict_set k (f v) d).

(** [{p['id']: p['name'] for p in data.get('participants', [])}] *)
Definition participants_dict (data : Ledger) : list (string * string) :=
  foldl (λ d p, dict_set (p_id p) (p_name p) d) [] (l_participants data).

(** [{p_id: 0 for p_id in participants}] *)
Definition initial_balances (participants : list (string * string)) : list (string * Z) :=
  foldl (λ d p_id, dict_set p_id 0 d) [] participants.*1.

(** The dict of names as [resolve_debts] looks it up. *)
Definition names_of (participants : list (string * string)) : gmap string string :=
  list_to_map participants.

(** ** The loop over the expenses *)

(** The status at the end of a printed line: OK, DIFF with the delta, or
    ERROR with the exception [normalize_shares] raised. *)
Inductive status :=
  | StatusOK
  | StatusDiff (delta : Z)
  | StatusError (e : exn).

Record line := {
  date_short : string;
  desc : string;
  share_type : string;
  line_status : status;
}.

(** The variables the loop updates, and what it has printed. *)
Record trip := {
  t_balances : list (string * Z);
  total_trip_cost : Z;
  printed : list line;
}.

(** The inner loop over [enumerate(splits)]: [calculated_split_total]
    and [split_details]. *)
Definition split_details_loop (splits : list Split) (normalized_amounts : list Z)
    : res (Z * list (string * Z)) :=
  for_each
    (λ '(i, split) '(calculated_split_total, split_details),
       this_share ← getitem normalized_amounts i;
       Ok (calculated_split_total + this_share,
           split_details ++ [(participantId split, this_share)]))
    (enumerate splits) (0, []).

(** The updates of [balances] for a valid expense. *)
Definition update_balances (paid_by : string) (amount : Z)
    (split_details : list (string * Z)) (balances : list (string * Z))
    : res (list (string * Z)) :=
  balances ← (if dict_contains paid_by balances
              then dict_modify (λ v, v + amount) paid_by balances
              else Ok balances);
  for_each
    (λ '(p_id, share_amount) balances,
       if dict_contains p_id balances
       then dict_modify (λ v, v - share_amount) p_id balances
       else Ok balances)
    split_details balances.

(** The body of the loop, for one expense whose description is absent or
    a string (see [process_json_expense] for one that is [null]).  The
    first ten characters of the date are the first ten bytes, as in
    Python for a date written in ASCII. *)
Definition process_expense (data : Ledger) (expense : Expense) (st : trip) : res trip :=
  let exp_id := e_id expense in
  let amount := e_amount expense in
  let paid_by := e_paidBy expense in
  let desc := default "Unknown" (e_description expense) in
  let date_short := String.substring 0 10 (e_date expense) in
  let total_trip_cost := total_trip_cost st + amount in
  let splits :=
    split <$> filter (λ s, expenseId s = exp_id) (l_expenseSplits data) in
  match splits with
  | [] =>
    Ok {| t_balances := t_balances st; total_trip_cost := total_trip_cost;
          printed := printed st |}
  | first :: _ =>
    let share_type := shareType first in
    let print status :=
      printed st ++ [{| date_short := date_short; desc := desc;
                        share_type := share_type; line_status := status |}] in
    match normalize_shares splits amount with
    | Raise e =>
      Ok {| t_balances := t_balances st; total_trip_cost := total_trip_cost;
            printed := print (StatusError e) |}
    | Ok normalized_amounts =>
      '(calculated_split_total, split_details) ←
        split_details_loop splits normalized_amounts;
      let delta := amount - calculated_split_total in
      if decide (delta = 0)
      then
        balances ← update_balances paid_by amount split_details (t_balances st);
        Ok {| t_balances := balances; total_trip_cost := total_trip_cost;
              printed := print StatusOK |}
      else
        Ok {| t_balances := t_balances st; total_trip_cost := total_trip_cost;
              printed := print (StatusDiff delta) |}
    end
  end.

Definition process_expenses (data : Ledger) : res trip :=
  for_each (process_expense data) (l_expenses data)
    {| t_balances := initial_balances (participants_dict data);
       total_trip_cost := 0; printed := [] |}.

(** ** Dicts: reading after writing *)

Lemma dict_get_set_eq {V} k (v : V) d : dict_get k (dict_set k v d) = Some v.
Proof.
  induction d as [|[k' v'] d IH]; simpl.
  - by rewrite decide_True.
  - destruct (decide (k' = k)) as [->|Hne]; simpl.
    + by rewrite decide_True.
    + by rewrite decide_False.
Qed.

Lemma dict_get_set_ne {V} k k' (v : V) d :
  k ≠ k' → dict_get k' (dict_set k v d) = dict_get k' d.
Proof.
  intros Hne. induction d as [|[k1 v1] d IH]; simpl.
  - by rewrite decide_False.
  - destruct (decide (k1 = k)) as [->|Hne1]; simpl.
    + by rewrite !decide_False.
    + by rewrite IH.
Qed.

Lemma dict_get_keys {V} k (d : list (string * V)) : is_Some (dict_get k d) ↔ k ∈ d.*1.
Proof.
  induction d as [|[k' v'] d IH]; simpl.
  - split; [by intros [? ?] | by intros ?%elem_of_nil].
  - rewrite elem_of_cons, <-IH. destruct (decide (k' = k)) as [->|Hne].
    + split; [by left | by eexists].
    + split; [by right | by intros [->|?]].
Qed.

Lemma dict_contains_keys {V} k (d : list (string * V)) :
  dict_contains k d = true ↔ k ∈ d.*1.
Proof. unfold dict_contains. by rewrite bool_decide_eq_true, dict_get_keys. Qed.

Lemma dict_set_keys {V} k (v : V) d : k ∈ d.*1 → (dict_set k v d).*1 = d.*1.
Proof.
  induction d as [|[k' v'] d IH]; simpl; [by intros ?%elem_of_nil|].
  intros Hin. destruct (decide (k' = k)) as [->|Hne]; [done|]. csimpl.
  rewrite IH; [done|]. by apply elem_of_cons in Hin as [->|?].
Qed.

Lemma dict_set_keys_new {V} k (v : V) d : k ∉ d.*1 → (dict_set k v d).*1 = d.*1 ++ [k].
Proof.
  induction d as [|[k' v'] d IH]; simpl; [done|].
  intros Hin. apply not_elem_of_cons in Hin as [? ?].
  rewrite decide_False by done. csimpl. by rewrite IH.
Qed.

Lemma dict_set_sum k v v' (d : list (string * Z)) :
  dict_get k d = Some v → sum_int (dict_set k v' d).*2 = sum_int d.*2 - v + v'.
Proof.
  induction d as [|[k1 v1] d IH]; simpl; [done|].
  destruct (decide (k1 = k)) as [->|Hne]; csimpl; rewrite !sum_int_cons.
  - intros [= ->]. lia.
  - intros Hget. rewrite IH by done. lia.
Qed.

Lemma names_of_lookup (participants : list (string * string)) k :
  names_of participants !! k = dict_get k participants.
Proof.
  unfold names_of. induction participants as [|[k' v'] d IH]; simpl; [done|].
  destruct (decide (k' = k)) as [->|Hne].
  - by rewrite lookup_insert_eq.
  - by rewrite lookup_insert_ne.
Qed.

Lemma dict_modify_Ok f k (d : list (string * Z)) :
  k ∈ d.*1 →
  ∃ v, dict_get k d = Some v ∧ dict_modify f k d = Ok (dict_set k (f v) d).
Proof.
  intros Hin. apply dict_get_keys in Hin as [v Hv]. exists v. split; [done|].
  unfold dict_modify, dict_getitem. by rewrite Hv.
Qed.

(** ** Loops *)

Lemma for_each_invariant {A S} (I : S → Prop) (body : A → S → res S) xs s s' :
  (∀ x s s', x ∈ xs → I s → body x s = Ok s' → I s') →
  I s → for_each body xs s = Ok s' → I s'.
Proof.
  revert s. induction xs as [|x xs IH]; simpl; intros s Hbody HI.
  - by intros [= <-].
  - intros Hrun. apply bind_Ok in Hrun as (s1 & H1 & Hrun).
    eapply IH; [|by eapply Hbody; [left|..]|done].
    intros ????. eapply Hbody. by right.
Qed.

Lemma for_each_returns {A S} (I : S → Prop) (body : A → S → res S) xs s :
  (∀ x s, x ∈ xs → I s → ∃ s', body x s = Ok s' ∧ I s') →
  I s → ∃ s', for_each body xs s = Ok s' ∧ I s'.
Proof.
  revert s. induction xs as [|x xs IH]; simpl; intros s Hbody HI; [by eauto|].
  destruct (Hbody x s) as (s1 & H1 & HI1); [by left | done |]. rewrite H1. simpl.
  apply IH; [|done]. intros ????. apply Hbody; [by right | done].
Qed.

(** ** The result of [normalize_shares] has one share per split *)

Lemma scatter_length {B} (stable : list (nat * B)) vs nz res :
  scatter stable vs nz = Ok res → length res = length nz.
Proof.
  unfold scatter. apply (for_each_invariant (λ l, length l = length nz)); [|done].
  intros [k a] l l' _ Hl Hrun. apply bind_Ok in Hrun as (x & _ & Hset).
  apply setitem_Ok in Hset as [_ ->]. by rewrite length_insert.
Qed.

Lemma normalize_shares_length splits T shares :
  normalize_shares splits T = Ok shares → length shares = length splits.
Proof.
  unfold normalize_shares. destruct splits as [|first rest]; [by intros [= <-]|].
  case_decide; [intros [= <-]; simpl; by rewrite length_replicate|].
  case_match; [done|]. intros Hrun. apply bind_Ok in Hrun as (sn & _ & Hsc).
  apply scatter_length in Hsc. rewrite Hsc. apply length_replicate.
Qed.

(** ** One expense *)

Lemma split_details_loop_from (splits : list Split) (norm : list Z) off acc det :
  length norm = (off + length splits)%nat →
  for_each
    (λ '(i, split) '(calculated_split_total, split_details),
       this_share ← getitem norm i;
       Ok (calculated_split_total + this_share,
           split_details ++ [(participantId split, this_share)]))
    (zip (seq off (length splits)) splits) (acc, det)
  = Ok (acc + sum_int (drop off norm),
        det ++ zip (participantId <$> splits) (drop off norm)).
Proof.
  revert off acc det. induction splits as [|s splits IH]; intros off acc det Hlen.
  - simpl in *. rewrite drop_ge by lia. by rewrite sum_int_nil, Z.add_0_r, app_nil_r.
  - simpl in Hlen. destruct (lookup_lt_is_Some_2 norm off) as [x Hx]; [lia|].
    rewrite (drop_lookup_head _ _ _ Hx). cbn [length seq zip zip_with for_each].
    rewrite (proj2 (getitem_Ok norm off x) Hx). cbn [mbind res_bind].
    rewrite IH by (simpl; lia). rewrite sum_int_cons. csimpl.
    rewrite <-app_assoc. simpl. f_equal. f_equal. lia.
Qed.

Lemma split_details_loop_spec (splits : list Split) (norm : list Z) :
  length norm = length splits →
  split_details_loop splits norm
  = Ok (sum_int norm, zip (participantId <$> splits) norm).
Proof.
  intros Hlen. unfold split_details_loop, enumerate.
  rewrite (split_details_loop_from splits norm 0 0 []) by done.
  by rewrite drop_0.
Qed.

(** What the updates for a valid expense do to a balances dict: the keys
    stay, a known payer gains the amount, and every known participant of
    a split loses that split's share. *)
Definition share_of (k : string) (split_details : list (string * Z)) : Z :=
  sum_int (filter (λ d : string * Z, d.1 = k) split_details).*2.

Lemma debit_details_spec (split_details balances : list (string * Z)) :
  ∃ b,
    for_each
      (λ '(p_id, share_amount) balances,
         if dict_contains p_id balances
         then dict_modify (λ v, v - share_amount) p_id balances
         else Ok balances)
      split_details balances = Ok b
    ∧ b.*1 = balances.*1
    ∧ (∀ k, dict_get k b = (λ v, v - share_of k split_details) <$> dict_get k balances)
    ∧ sum_int b.*2 = sum_int balances.*2
        - sum_int (filter (λ d : string * Z, d.1 ∈ balances.*1) split_details).*2.
Proof.
  revert balances. induction split_details as [|[p sh] details IH]; intros balances.
  - exists balances. simpl. split_and!; [done..| |].
    + intros k. unfold share_of. simpl. rewrite sum_int_nil.
      destruct (dict_get k balances); simpl; [f_equal; lia | done].
    + rewrite sum_int_nil. lia.
  - cbn [for_each]. destruct (dict_contains p balances) eqn:Hc.
    + apply dict_contains_keys in Hc.
      destruct (dict_modify_Ok (λ v, v - sh) p balances Hc) as (v & Hv & ->).
      cbn [mbind res_bind].
      destruct (IH (dict_set p (v - sh) balances)) as (b & Hrun & Hk & Hget & Hsum).
      rewrite dict_set_keys in Hk, Hsum by done.
      exists b. split_and!; [done..| |].
      * intros k. rewrite Hget. unfold share_of. rewrite filter_cons. simpl.
        destruct (decide (p = k)) as [->|Hne].
        -- rewrite dict_get_set_eq, Hv. csimpl. rewrite sum_int_cons. f_equal. lia.
        -- by rewrite dict_get_set_ne.
      * rewrite Hsum, (dict_set_sum _ _ _ _ Hv), filter_cons. simpl.
        rewrite decide_True by done. csimpl. rewrite sum_int_cons. lia.
    + cbn [mbind res_bind].
      destruct (IH balances) as (b & Hrun & Hk & Hget & Hsum).
      assert (p ∉ balances.*1) as Hnin.
      { intros Hin. apply dict_contains_keys in Hin. congruence. }
      exists b. split_and!; [done..| |].
      * intros k. rewrite Hget. unfold share_of. rewrite filter_cons. simpl.
        destruct (decide (p = k)) as [->|Hne]; [|done].
        assert (dict_get k balances = None) as ->; [|done].
        apply eq_None_not_Some. by rewrite dict_get_keys.
      * rewrite Hsum, filter_cons. simpl. by rewrite decide_False.
Qed.

Lemma update_balances_spec paid_by amount (split_details balances : list (string * Z)) :
  ∃ b,
    update_balances paid_by amount split_details balances = Ok b
    ∧ b.*1 = balances.*1
    ∧ (∀ k, dict_get k b =
         (λ v, v + (if decide (paid_by = k) then amount else 0)
                 - share_of k split_details) <$> dict_get k balances)
    ∧ sum_int b.*2 = sum_int balances.*2
        + (if decide (paid_by ∈ balances.*1) then amount else 0)
        - sum_int (filter (λ d : string * Z, d.1 ∈ balances.*1) split_details).*2.
Proof.
  unfold update_balances. destruct (dict_contains paid_by balances) eqn:Hc.
  - apply dict_contains_keys in Hc.
    destruct (dict_modify_Ok (λ v, v + amount) paid_by balances Hc) as (v & Hv & ->).
    cbn [mbind res_bind].
    destruct (debit_details_spec split_details (dict_set paid_by (v + amount) balances))
      as (b & Hrun & Hk & Hget & Hsum).
    rewrite dict_set_keys in Hk, Hsum by done.
    exists b. split_and!; [done..| |].
    + intros k. rewrite Hget. destruct (decide (paid_by = k)) as [->|Hne].
      * rewrite dict_get_set_eq, Hv. done.
      * rewrite dict_get_set_ne by done. destruct (dict_get k balances); simpl; [|done].
        f_equal. lia.
    + rewrite Hsum, (dict_set_sum _ _ _ _ Hv), decide_True by done. lia.
  - cbn [mbind res_bind].
    destruct (debit_details_spec split_details balances) as (b & Hrun & Hk & Hget & Hsum).
    assert (paid_by ∉ balances.*1) as Hnin.
    { intros Hin. apply dict_contains_keys in Hin. congruence. }
    exists b. split_and!; [done..| |].
    + intros k. rewrite Hget. destruct (decide (paid_by = k)) as [->|Hne].
      * assert (dict_get k balances = None) as ->; [|done].
        apply eq_None_not_Some. by rewrite dict_get_keys.
      * destruct (dict_get k balances); simpl; [|done]. f_equal. lia.
    + rewrite Hsum, decide_False by done. lia.
Qed.

(** The splits of an expense; its shares, when the loop accepts it (there
    are splits, [normalize_shares] returns and the shares add up to the
    amount); and what it then does to the balance of participant [k]. *)
Definition splits_of (data : Ledger) (expense : Expense) : list Split :=
  split <$> filter (λ s, expenseId s = e_id expense) (l_expenseSplits data).

Definition accepted (data : Ledger) (expense : Expense) : option (list Z) :=
  match splits_of data expense with
  | [] => None
  | _ :: _ =>
    match normalize_shares (splits_of data expense) (e_amount expense) with
    | Ok shares =>
        if decide (sum_int shares = e_amount expense) then Some shares else None
    | Raise _ => None
    end
  end.

Definition expense_effect (data : Ledger) (expense : Expense) (k : string) : Z :=
  match accepted data expense with
  | Some shares =>
      (if decide (e_paidBy expense = k) then e_amount expense else 0)
      - share_of k (zip (participantId <$> splits_of data expense) shares)
  | None => 0
  end.

(** The line printed for an expense that has splits. *)
Definition expense_status (data : Ledger) (expense : Expense) : status :=
  match normalize_shares (splits_of data expense) (e_amount expense) with
  | Ok shares =>
      if decide (sum_int shares = e_amount expense) then StatusOK
      else StatusDiff (e_amount expense - sum_int shares)
  | Raise e => StatusError e
  end.

Lemma process_expense_spec data expense st :
  ∃ st',
    process_expense data expense st = Ok st'
    ∧ total_trip_cost st' = total_trip_cost st + e_amount expense
    ∧ (t_balances st').*1 = (t_balances st).*1
    ∧ (∀ k, dict_get k (t_balances st') =
         (λ v, v + expense_effect data expense k) <$> dict_get k (t_balances st))
    ∧ sum_int (t_balances st').*2 = sum_int (t_balances st).*2 +
        match accepted data expense with
        | Some shares =>
            (if decide (e_paidBy expense ∈ (t_balances st).*1)
             then e_amount expense else 0)
            - sum_int (filter (λ d : string * Z, d.1 ∈ (t_balances st).*1)
                         (zip (participantId <$> splits_of data expense) shares)).*2
        | None => 0
        end
    ∧ line_status <$> printed st' =
        (line_status <$> printed st) ++
          match splits_of data expense with
          | [] => []
          | _ :: _ => [expense_status data expense]
          end.
Proof.
  assert (∀ o : option Z, o = (λ v, v + 0) <$> o) as Hid.
  { intros [v|]; simpl; [f_equal; lia | done]. }
  unfold process_expense, expense_effect, accepted, expense_status.
  fold (splits_of data expense).
  destruct (splits_of data expense) as [|first rest] eqn:Hsplits.
  { eexists. split; [done|]. simpl. split_and!; [done..| |lia|by rewrite app_nil_r].
    intros k. apply Hid. }
  destruct (normalize_shares (first :: rest) (e_amount expense)) as [shares|e] eqn:Hnorm.
  2:{ eexists. split; [done|]. simpl. split_and!; [done..| |lia|by rewrite fmap_app].
      intros k. apply Hid. }
  rewrite split_details_loop_spec by (by eapply normalize_shares_length).
  cbn [mbind res_bind].
  destruct (decide (e_amount expense - sum_int shares = 0)) as [Hz|Hnz].
  - rewrite !(decide_True (P := sum_int shares = e_amount expense)) by lia.
    destruct (update_balances_spec (e_paidBy expense) (e_amount expense)
                (zip (participantId <$> first :: rest) shares) (t_balances st))
      as (b & -> & Hk & Hget & Hsum).
    eexists. split; [done|]. cbn [t_balances total_trip_cost printed].
    split_and!; [done..| |lia|by rewrite fmap_app].
    intros k. rewrite Hget. destruct (dict_get k (t_balances st)); [|done].
    cbn [fmap option_fmap option_map]. f_equal. lia.
  - rewrite !(decide_False (P := sum_int shares = e_amount expense)) by lia.
    eexists. split; [done|]. cbn [t_balances total_trip_cost printed].
    split_and!; [done..| |lia|by rewrite fmap_app].
    intros k. apply Hid.
Qed.

(** ** The whole loop *)

Lemma process_loop_spec data (es : list Expense) st :
  ∃ st',
    for_each (process_expense data) es st = Ok st'
    ∧ total_trip_cost st' = total_trip_cost st + sum_int (e_amount <$> es)
    ∧ (t_balances st').*1 = (t_balances st).*1
    ∧ (∀ k, dict_get k (t_balances st') =
         (λ v, v + sum_int ((λ e, expense_effect data e k) <$> es))
           <$> dict_get k (t_balances st))
    ∧ line_status <$> printed st' =
        (line_status <$> printed st) ++
          (expense_status data <$> filter (λ e, splits_of data e ≠ []) es).
Proof.
  revert st. induction es as [|e es IH]; intros st.
  - exists st. simpl. split_and!; [done| |done| |by rewrite app_nil_r].
    + rewrite sum_int_nil. lia.
    + intros k. rewrite sum_int_nil. destruct (dict_get k (t_balances st)); simpl; [|done].
      f_equal. lia.
  - destruct (process_expense_spec data e st) as (st1 & Hrun1 & Ht1 & Hk1 & Hg1 & _ & Hp1).
    destruct (IH st1) as (st' & Hrun & Ht & Hk & Hg & Hp).
    exists st'. cbn [for_each]. rewrite Hrun1. cbn [mbind res_bind].
    split_and!; [done|..].
    + rewrite Ht, Ht1. csimpl. rewrite sum_int_cons. lia.
    + by rewrite Hk, Hk1.
    + intros k. rewrite Hg, Hg1. csimpl. rewrite sum_int_cons.
      destruct (dict_get k (t_balances st)); simpl; [|done]. f_equal. lia.
    + rewrite Hp, Hp1, <-app_assoc. f_equal. rewrite filter_cons.
      destruct (splits_of data e) eqn:Hs.
      * by rewrite decide_False by (by intros []).
      * by rewrite decide_True by done.
Qed.

(** ** The dicts [participants] and [balances] *)

Lemma dict_set_new {V} k (v : V) d : k ∉ d.*1 → dict_set k v d = d ++ [(k, v)].
Proof.
  induction d as [|[k' v'] d IH]; simpl; [done|].
  intros Hin. apply not_elem_of_cons in Hin as [? ?].
  rewrite decide_False by done. by rewrite IH.
Qed.

(** The keys of a dict built by successive assignments are the keys
    assigned, each at the place of its first assignment. *)
Definition first_occurrences (ks : list string) : list string :=
  reverse (remove_dups (reverse ks)).

Lemma first_occurrences_snoc ks k :
  first_occurrences (ks ++ [k]) =
    if decide (k ∈ first_occurrences ks) then first_occurrences ks
    else first_occurrences ks ++ [k].
Proof.
  unfold first_occurrences. rewrite reverse_app. simpl.
  destruct (decide_rel elem_of k (reverse ks)) as [Hin|Hin].
  - rewrite decide_True; [done|]. by rewrite elem_of_reverse, elem_of_remove_dups.
  - rewrite decide_False; [by rewrite reverse_cons|].
    by rewrite elem_of_reverse, elem_of_remove_dups.
Qed.

Lemma first_occurrences_elem ks k : k ∈ first_occurrences ks ↔ k ∈ ks.
Proof.
  unfold first_occurrences. by rewrite elem_of_reverse, elem_of_remove_dups, elem_of_reverse.
Qed.

Lemma first_occurrences_NoDup ks : NoDup (first_occurrences ks).
Proof. unfold first_occurrences. rewrite reverse_Permutation. apply NoDup_remove_dups. Qed.

Lemma participants_dict_keys data :
  (participants_dict data).*1 = first_occurrences (p_id <$> l_participants data).
Proof.
  unfold participants_dict.
  induction (l_participants data) as [|p ps IH] using rev_ind; [done|].
  rewrite foldl_app, fmap_app. change (p_id <$> [p]) with [p_id p].
  rewrite first_occurrences_snoc, <-IH. cbn [foldl].
  case_decide as Hin.
  - by apply dict_set_keys.
  - by apply dict_set_keys_new.
Qed.

Lemma initial_balances_spec (participants : list (string * string)) :
  NoDup participants.*1 →
  initial_balances participants = (λ k, (k, 0)) <$> participants.*1.
Proof.
  unfold initial_balances.
  induction participants.*1 as [|k ks IH] using rev_ind; [done|].
  intros Hnd. apply NoDup_app in Hnd as (Hnd & Hdis & _).
  rewrite foldl_app, fmap_app. simpl. rewrite IH by done.
  apply dict_set_new. rewrite <-list_fmap_compose. simpl. rewrite list_fmap_id.
  intros Hin. apply (Hdis k Hin). left.
Qed.

Lemma initial_balances_keys data :
  (initial_balances (participants_dict data)).*1 =
    first_occurrences (p_id <$> l_participants data).
Proof.
  rewrite initial_balances_spec.
  - rewrite <-list_fmap_compose. simpl. by rewrite list_fmap_id, participants_dict_keys.
  - rewrite participants_dict_keys. apply first_occurrences_NoDup.
Qed.

Lemma initial_balances_get data k :
  k ∈ p_id <$> l_participants data →
  dict_get k (initial_balances (participants_dict data)) = Some 0.
Proof.
  intros Hin. apply first_occurrences_elem in Hin.
  rewrite <-participants_dict_keys in Hin.
  rewrite initial_balances_spec
    by (rewrite participants_dict_keys; apply first_occurrences_NoDup).
  induction (participants_dict data).*1 as [|k' ks IH]; [by apply elem_of_nil in Hin|].
  simpl. destruct (decide (k' = k)); [done|]. apply IH.
  by apply elem_of_cons in Hin as [->|?].
Qed.

Lemma initial_balances_sum data :
  sum_int (initial_balances (participants_dict data)).*2 = 0.
Proof.
  rewrite initial_balances_spec
    by (rewrite participants_dict_keys; apply first_occurrences_NoDup).
  apply sum_int_zero, Forall_fmap, Forall_true. done.
Qed.

(** ** What the loop computes *)

(** X10. The balances have one entry per participant identifier of the file,
    in the order in which the identifiers are first listed, whatever the
    expenses are: no expense adds an entry (an unknown payer or split
    participant is passed over) and none removes one. *)
Theorem process_expenses_keys (data : Ledger) :
  ∃ st, process_expenses data = Ok st
    ∧ (t_balances st).*1 = first_occurrences (p_id <$> l_participants data)
    ∧ NoDup (t_balances st).*1.
Proof.
  destruct (process_loop_spec data (l_expenses data)
              {| t_balances := initial_balances (participants_dict data);
                 total_trip_cost := 0; printed := [] |})
    as (st & Hrun & _ & Hk & _).
  exists st. simpl in Hk. rewrite Hk, initial_balances_keys.
  split_and!; [done..|]. apply first_occurrences_NoDup.
Qed.

(** X11. The balance of a participant after the loop is the sum, over the
    expenses the loop accepts (those with splits whose shares
    [normalize_shares] returns and that add up to the amount), of the
    amount when the participant paid, less the shares of the splits that
    name the participant.  The other expenses contribute nothing. *)
Theorem process_expenses_balance (data : Ledger) :
  ∃ st, process_expenses data = Ok st
    ∧ ∀ k, k ∈ p_id <$> l_participants data →
        dict_get k (t_balances st) =
          Some (sum_int ((λ e, expense_effect data e k) <$> l_expenses data)).
Proof.
  destruct (process_loop_spec data (l_expenses data)
              {| t_balances := initial_balances (participants_dict data);
                 total_trip_cost := 0; printed := [] |})
    as (st & Hrun & _ & _ & Hg & _).
  exists st. split; [done|]. intros k Hk. rewrite Hg. simpl.
  by rewrite initial_balances_get.
Qed.

(** ** Shares that add up *)

Lemma normalize_shares_sum_cases first rest T shares :
  normalize_shares (first :: rest) T = Ok shares →
  sum_int shares = T
  ∨ ((shareType first = "percentage" ∨ shareType first = "weight") ∧ T < sum_int shares).
Proof.
  intros Hres. destruct (decide (T = 0)) as [->|HT].
  { unfold normalize_shares in Hres. rewrite decide_True in Hres by done.
    injection Hres as <-. left. rewrite sum_int_cons, sum_int_replicate. lia. }
  destruct (decide (Forall (λ s, shareType s = shareType first) (first :: rest)))
    as [Hty|Hty]; [|by rewrite normalize_shares_mixed in Hres].
  pose proof Hres as Hres'. rewrite normalize_shares_unfold in Hres' by done.
  apply bind_Ok in Hres' as (sn & Hsn & _).
  apply normalize_by_type_sum in Hsn as Hsum; last first.
  { intros Hnil. apply (f_equal length) in Hnil.
    by rewrite length_fmap, stable_order_length in Hnil. }
  destruct Hsum as [Hlen Hsum]. rewrite length_fmap, stable_order_length in Hlen.
  destruct (normalize_shares_scatter first rest T sn) as (res & Hres2 & Hl & Hs & _);
    [done..|].
  assert (res = shares) as -> by congruence.
  rewrite Hs. destruct Hsum as [Hsum|(exact & bases & _ & Hkind & _ & Hlt & ->)];
    [by left | by right].
Qed.

(** X12. The loop prints one line for each expense that has splits, in order
    (an expense without splits is passed over in silence): OK, DIFF with
    the difference between the amount and the sum of the shares, or
    ERROR with the exception.  A DIFF is only ever printed for an expense
    of type [percentage] or [weight], and its difference is negative: the
    shares [normalize_shares] returns never add up to less than the
    amount, and for the other types they always add up to it. *)
Theorem process_expenses_lines (data : Ledger) :
  ∃ st, process_expenses data = Ok st
    ∧ line_status <$> printed st =
        expense_status data <$> filter (λ e, splits_of data e ≠ []) (l_expenses data)
    ∧ ∀ e first delta,
        head (splits_of data e) = Some first →
        expense_status data e = StatusDiff delta →
        (shareType first = "percentage" ∨ shareType first = "weight") ∧ delta < 0.
Proof.
  destruct (process_loop_spec data (l_expenses data)
              {| t_balances := initial_balances (participants_dict data);
                 total_trip_cost := 0; printed := [] |})
    as (st & Hrun & _ & _ & _ & Hp).
  exists st. split_and!; [done..|].
  intros e first delta Hfirst. unfold expense_status.
  destruct (splits_of data e) as [|first' rest]; [done|]. injection Hfirst as ->.
  destruct (normalize_shares _ _) as [shares|] eqn:Hnorm; [|done].
  case_decide as Hsum; [done|]. intros [= <-].
  destruct (normalize_shares_sum_cases _ _ _ _ Hnorm) as [?|[Hkind Hlt]]; [done|].
  split; [done|lia].
Qed.

(** ** Balances that cancel *)

(** Every payer and every participant of a split is listed among the
    participants of the file. *)
Definition all_known (data : Ledger) : Prop :=
  Forall (λ e, e_paidBy e ∈ p_id <$> l_participants data) (l_expenses data)
  ∧ Forall (λ s, participantId (split s) ∈ p_id <$> l_participants data)
      (l_expenseSplits data).

Lemma filter_all {A} (P : A → Prop) `{∀ x, Decision (P x)} (l : list A) :
  Forall P l → filter P l = l.
Proof.
  induction 1 as [|x l Hx _ IH]; [done|]. by rewrite filter_cons, decide_True, IH.
Qed.

Lemma accepted_Some data e shares :
  accepted data e = Some shares →
  normalize_shares (splits_of data e) (e_amount e) = Ok shares
  ∧ sum_int shares = e_amount e.
Proof.
  unfold accepted. destruct (splits_of data e); [done|].
  destruct (normalize_shares _ _); [|done]. case_decide; [|done]. by intros [= <-].
Qed.

Lemma process_expense_cancels data e st st' :
  e_paidBy e ∈ (t_balances st).*1 →
  Forall (λ s, participantId (split s) ∈ (t_balances st).*1) (l_expenseSplits data) →
  process_expense data e st = Ok st' →
  (t_balances st').*1 = (t_balances st).*1
  ∧ sum_int (t_balances st').*2 = sum_int (t_balances st).*2.
Proof.
  intros Hpaid Hsplits Hrun.
  destruct (process_expense_spec data e st) as (st1 & Hrun1 & _ & Hk & _ & Hsum & _).
  assert (st1 = st') as -> by congruence. split; [done|]. rewrite Hsum.
  destruct (accepted data e) as [shares|] eqn:Hacc; [|lia].
  apply accepted_Some in Hacc as [Hnorm Hshares].
  apply normalize_shares_length in Hnorm. rewrite decide_True by done.
  rewrite filter_all.
  - rewrite snd_zip by (rewrite length_fmap; lia). lia.
  - apply Forall_forall. intros [p sh] Hin. apply elem_of_zip_l in Hin. simpl.
    apply list_elem_of_fmap in Hin as (s & -> & Hs). unfold splits_of in Hs.
    apply list_elem_of_fmap in Hs as (es & -> & Hes).
    apply list_elem_of_filter in Hes as [_ Hes].
    rewrite Forall_forall in Hsplits. by apply Hsplits.
Qed.

Lemma process_expenses_cancel data st :
  all_known data → process_expenses data = Ok st →
  (t_balances st).*1 = (participants_dict data).*1 ∧ sum_int (t_balances st).*2 = 0.
Proof.
  intros [Hpaid Hsplits] Hrun. unfold process_expenses in Hrun.
  assert (∀ k, k ∈ p_id <$> l_participants data → k ∈ (participants_dict data).*1) as Hin.
  { intros k Hk. rewrite participants_dict_keys. by apply first_occurrences_elem. }
  eapply (for_each_invariant
            (λ st, (t_balances st).*1 = (participants_dict data).*1
                   ∧ sum_int (t_balances st).*2 = 0)); [| |exact Hrun].
  - intros e s s' He [Hk Hs] Hstep.
    destruct (process_expense_cancels data e s s') as [Hk' Hs']; [..|done|].
    + rewrite Hk. apply Hin. rewrite Forall_forall in Hpaid. by apply Hpaid.
    + rewrite Hk. eapply Forall_impl; [exact Hsplits|]. intros x. apply Hin.
    + by rewrite Hk', Hs'.
  - simpl. split; [|apply initial_balances_sum].
    by rewrite initial_balances_keys, participants_dict_keys.
Qed.

(** X13. When every payer and every participant of a split is listed in the
    file, the balances after the loop add up to zero: what the payers of
    the accepted expenses are owed is what the participants of their
    splits owe. *)
Theorem process_expenses_zero_sum (data : Ledger) :
  all_known data →
  ∃ st, process_expenses data = Ok st ∧ sum_int (t_balances st).*2 = 0.
Proof.
  intros Hknown.
  destruct (process_loop_spec data (l_expenses data)
              {| t_balances := initial_balances (participants_dict data);
                 total_trip_cost := 0; printed := [] |})
    as (st & Hrun & _).
  exists st. split; [done|]. by apply (process_expenses_cancel data st).
Qed.

(** A ledger of three participants and three expenses: one split
    equally, one by percentage, one without splits. *)
Definition sample_ledger : Ledger :=
  {| l_participants :=
       [ {| p_id := "a"; p_name := "Ann" |}; {| p_id := "b"; p_name := "Bob" |};
         {| p_id := "c"; p_name := "Cy" |} ];
     l_expenses :=
       [ {| e_id := "e1"; e_amount := 100; e_paidBy := "a";
            e_description := Some "Dinner"; e_date := "2024-05-01T19:00:00Z" |};
         {| e_id := "e2"; e_amount := 90; e_paidBy := "b";
            e_description := None; e_date := "2024-05-02" |};
         {| e_id := "e3"; e_amount := 7; e_paidBy := "c";
            e_description := Some "Tip"; e_date := "2024-05-03" |} ];
     l_expenseSplits :=
       [ {| expenseId := "e1"; split := eql "c" |};
         {| expenseId := "e2"; split := pct "a" 50 |};
         {| expenseId := "e1"; split := eql "a" |};
         {| expenseId := "e2"; split := pct "c" 50 |};
         {| expenseId := "e1"; split := eql "b" |} ] |}.

Lemma process_expenses_zero_sum_applied :
  ∃ st, process_expenses sample_ledger = Ok st ∧ sum_int (t_balances st).*2 = 0.
Proof.
  apply process_expenses_zero_sum.
  split; apply (bool_decide_unpack _); by vm_compute.
Defined.

(** ** From the file to the plan *)

Lemma dict_get_elem {V} k (v : V) d : NoDup d.*1 → (k, v) ∈ d → dict_get k d = Some v.
Proof.
  induction d as [|[k' v'] d IH]; simpl; [by intros _ ?%elem_of_nil|].
  intros Hnd Hin. apply NoDup_cons in Hnd as [Hk' Hnd].
  apply elem_of_cons in Hin as [[= -> ->]|Hin].
  - by rewrite decide_True.
  - rewrite decide_False; [by apply IH|]. intros ->. apply Hk'.
    by apply (list_elem_of_fmap_2 fst) in Hin.
Qed.

Lemma display_names_of (participants : list (string * string)) :
  NoDup participants.*1 →
  display (names_of participants) <$> participants.*1 = participants.*2.
Proof.
  intros Hnd. rewrite <-list_fmap_compose. apply Forall_fmap_ext, Forall_forall.
  intros [k v] Hin. simpl. unfold display.
  by rewrite names_of_lookup, (dict_get_elem k v).
Qed.

Lemma resolve_debts_clears (balances : list (string * Z)) (names : gmap string string) :
  NoDup (display names <$> balances.*1) → sum_int balances.*2 = 0 →
  ∃ s, resolve_debts balances names = Some s
    ∧ Forall (λ e, e.2 = 0) (apply_settlements names s balances).
Proof.
  intros Hnd Hzero.
  assert (NoDup (shown names <$> balances)) as Hnd'.
  { replace (shown names <$> balances) with (display names <$> balances.*1); [done|].
    rewrite <-list_fmap_compose. by apply list_fmap_ext. }
  destruct (resolve_debts_invariant (settled names balances) balances names)
    as (st' & Hres & Hset & Hwf & Hfin).
  { intros st st' Hwf Hset Hstep. by eapply step_settled. }
  { apply initial_state_settled. }
  destruct (finished_all_zero _ _ _ Hzero Hwf Hset Hfin) as [Hd Hc].
  exists (settlements st'). split; [done|].
  destruct Hset as (Hperm & _). rewrite Hperm. rewrite !Forall_app. split_and!; [done..|].
  apply Forall_forall. intros e He. by apply list_elem_of_filter in He as [? _].
Qed.

(** X14. When every payer and every participant of a split is listed in the
    file and no two listed participants share a display name, the plan
    [resolve_debts] makes from the balances of the loop settles them:
    carrying out its settlements leaves every balance at zero. *)
Theorem trip_plan_settles (data : Ledger) :
  all_known data → NoDup (participants_dict data).*2 →
  ∃ st s,
    process_expenses data = Ok st
    ∧ resolve_debts (t_balances st) (names_of (participants_dict data)) = Some s
    ∧ Forall (λ e, e.2 = 0)
        (apply_settlements (names_of (participants_dict data)) s (t_balances st)).
Proof.
  intros Hknown Hnames.
  destruct (process_loop_spec data (l_expenses data)
              {| t_balances := initial_balances (participants_dict data);
                 total_trip_cost := 0; printed := [] |})
    as (st & Hrun & _).
  destruct (process_expenses_cancel data st Hknown Hrun) as [Hk Hsum].
  destruct (resolve_debts_clears (t_balances st) (names_of (participants_dict data)))
    as (s & Hs & Hzero); [|done|by exists st, s].
  rewrite Hk, display_names_of; [done|].
  rewrite participants_dict_keys. apply first_occurrences_NoDup.
Qed.

Lemma trip_plan_settles_applied :
  ∃ st s,
    process_expenses sample_ledger = Ok st
    ∧ resolve_debts (t_balances st) (names_of (participants_dict sample_ledger)) = Some s
    ∧ Forall (λ e, e.2 = 0)
        (apply_settlements (names_of (participants_dict sample_ledger)) s (t_balances st)).
Proof.
  apply trip_plan_settles.
  - split; apply (bool_decide_unpack _); by vm_compute.
  - apply (bool_decide_unpack _). by vm_compute.
Defined.

(** * Balances that do not cancel *)

Lemma entries_signs (l : list (string * Z)) i (P : string * Z → Prop) :
  Forall (λ e, e.2 = 0) (take i l) → Forall P (drop i l) →
  ∀ e, e ∈ l → e.2 = 0 ∨ P e.
Proof.
  intros Hz HP e He. rewrite <-(take_drop i l) in He.
  rewrite Forall_forall in Hz, HP.
  apply elem_of_app in He as [He|He]; [left; by apply Hz | right; by apply HP].
Qed.

(** X15. Whatever the balances add up to, and provided that no two
    participants share a display name (so that a settlement tells who
    pays and who is paid): carrying out the settlements moves every
    balance towards zero and never past it, and afterwards nobody owes
    anything or nobody is owed anything. *)
Theorem resolve_debts_towards_zero (balances : list (string * Z))
    (names : gmap string string) :
  NoDup (display names <$> balances.*1) →
  ∃ s, resolve_debts balances names = Some s
    ∧ Forall2 (λ e e', e'.1 = e.1 ∧ (e.2 ≤ e'.2 ≤ 0 ∨ 0 ≤ e'.2 ≤ e.2))
        balances (apply_settlements names s balances)
    ∧ (Forall (λ e, 0 ≤ e.2) (apply_settlements names s balances)
       ∨ Forall (λ e, e.2 ≤ 0) (apply_settlements names s balances)).
Proof.
  intros Hnd.
  assert (NoDup (shown names <$> balances)) as Hnd'.
  { replace (shown names <$> balances) with (display names <$> balances.*1); [done|].
    rewrite <-list_fmap_compose. by apply list_fmap_ext. }
  destruct (resolve_debts_invariant
              (λ st, tracks balances names st ∧ settled names balances st) balances names)
    as (st' & Hres & [(Htd & Htc & _) (Hperm & Hzd & Hzc & _)] & [Hneg Hpos] & Hfin).
  { intros st st' Hwf [Ht Hs] Hstep. split; [by eapply step_tracks | by eapply step_settled]. }
  { split; [|apply initial_state_settled].
    split_and!; [apply Forall_Forall2_diag, Forall_forall; intros; split; [done|lia]..
                |constructor]. }
  exists (settlements st'). split; [done|].
  set (after := apply_settlements names (settlements st') balances) in *.
  assert (∀ e, e ∈ debtors st' → ∃ e0, e0 ∈ balances ∧ e0.1 = e.1 ∧ e0.2 ≤ e.2 ≤ 0) as HA.
  { intros e He.
    assert (e.2 = 0 ∨ e.2 < 0) as Hsign
      by (by apply (entries_signs (debtors st') (d_idx st') (λ e, e.2 < 0))).
    apply list_elem_of_lookup in He as [i Hi].
    destruct (Forall2_lookup_l _ _ _ _ _ Htd Hi) as (e0 & He0 & Hid & Hle).
    exists e0. simpl in He0. apply list_elem_of_lookup_2 in He0.
    rewrite sorted_perm in He0. apply list_elem_of_filter in He0 as [? ?].
    split_and!; [done | done | lia | lia]. }
  assert (∀ e, e ∈ creditors st' → ∃ e0, e0 ∈ balances ∧ e0.1 = e.1 ∧ 0 ≤ e.2 ≤ e0.2) as HB.
  { intros e He.
    assert (e.2 = 0 ∨ 0 < e.2) as Hsign
      by (by apply (entries_signs (creditors st') (c_idx st') (λ e, 0 < e.2))).
    apply list_elem_of_lookup in He as [i Hi].
    destruct (Forall2_lookup_l _ _ _ _ _ Htc Hi) as (e0 & He0 & Hid & Hle).
    exists e0. simpl in He0. apply list_elem_of_lookup_2 in He0.
    rewrite sorted_perm in He0. apply list_elem_of_filter in He0 as [? ?].
    split_and!; [done | done | lia | lia]. }
  split.
  - apply Forall2_same_length_lookup. split.
    { rewrite <-(length_fmap fst balances), <-(length_fmap fst after).
      unfold after. by rewrite apply_settlements_keys. }
    intros i e e' He He'.
    assert (e'.1 = e.1) as Hkey.
    { pose proof (apply_settlements_keys names (settlements st') balances) as Hk.
      apply (f_equal (λ l, l !! i)) in Hk. rewrite !list_lookup_fmap in Hk.
      fold after in Hk. rewrite He, He' in Hk. by injection Hk. }
    split; [done|].
    assert (∃ e0, e0 ∈ balances ∧ e0.1 = e'.1 ∧ (e0.2 ≤ e'.2 ≤ 0 ∨ 0 ≤ e'.2 ≤ e0.2))
      as (e0 & Hin0 & Hid0 & Hb).
    { apply list_elem_of_lookup_2 in He'. rewrite Hperm in He'.
      apply elem_of_app in He' as [Hin|Hin].
      - destruct (HA _ Hin) as (e0 & ? & ? & ?). exists e0. auto.
      - apply elem_of_app in Hin as [Hin|Hin].
        + destruct (HB _ Hin) as (e0 & ? & ? & ?). exists e0. auto.
        + apply list_elem_of_filter in Hin as [Hz Hin]. exists e'.
          split_and!; [done..|]. left. lia. }
    assert (e0 = e) as ->; [|done].
    apply (elem_of_key_unique (shown names) balances); [done | done | |].
    + by eapply list_elem_of_lookup_2.
    + unfold shown. by rewrite Hid0, Hkey.
  - unfold step in Hfin.
    assert (length (debtors st') ≤ d_idx st' ∨ length (creditors st') ≤ c_idx st')%nat
      as [Hend|Hend].
    { destruct (debtors st' !! d_idx st') eqn:Hd; [|left; by apply lookup_ge_None].
      destruct (creditors st' !! c_idx st') eqn:Hc; [done|right; by apply lookup_ge_None]. }
    + left. rewrite take_ge in Hzd by done. rewrite Hperm, !Forall_app. split_and!.
      * eapply Forall_impl; [exact Hzd|]. simpl. lia.
      * apply Forall_forall. intros e He. destruct (HB _ He) as (e0 & ? & ? & ?). lia.
      * apply Forall_forall. intros e He. apply list_elem_of_filter in He as [? _]. lia.
    + right. rewrite take_ge in Hzc by done. rewrite Hperm, !Forall_app. split_and!.
      * apply Forall_forall. intros e He. destruct (HA _ He) as (e0 & ? & ? & ?). lia.
      * eapply Forall_impl; [exact Hzc|]. simpl. lia.
      * apply Forall_forall. intros e He. apply list_elem_of_filter in He as [? _]. lia.
Qed.

Lemma resolve_debts_towards_zero_applied :
  ∃ s, resolve_debts [("a", -50); ("b", 20); ("c", -30); ("d", 40)] {[ "a" := "Ann"; "b" := "Bob"; "c" := "Cy" ]} = Some s
    ∧ Forall2 (λ e e', e'.1 = e.1 ∧ (e.2 ≤ e'.2 ≤ 0 ∨ 0 ≤ e'.2 ≤ e.2))
        [("a", -50); ("b", 20); ("c", -30); ("d", 40)]
        (apply_settlements {[ "a" := "Ann"; "b" := "Bob"; "c" := "Cy" ]} s [("a", -50); ("b", 20); ("c", -30); ("d", 40)])
    ∧ (Forall (λ e, 0 ≤ e.2)
         (apply_settlements {[ "a" := "Ann"; "b" := "Bob"; "c" := "Cy" ]} s [("a", -50); ("b", 20); ("c", -30); ("d", 40)])
       ∨ Forall (λ e, e.2 ≤ 0)
           (apply_settlements {[ "a" := "Ann"; "b" := "Bob"; "c" := "Cy" ]} s [("a", -50); ("b", 20); ("c", -30); ("d", 40)])).
Proof.
  apply (resolve_debts_towards_zero [("a", -50); ("b", 20); ("c", -30); ("d", 40)]
           {[ "a" := "Ann"; "b" := "Bob"; "c" := "Cy" ]}).
  apply (bool_decide_unpack _). by vm_compute.
Defined.

(** * Names are labels *)

(** A names mapping that shows every participant of [balances] under its
    own identifier, and a settlement among identifiers shown under the
    names of [names]. *)
Definition own_names (balances : list (string * Z)) : gmap string string :=
  list_to_map ((λ e : string * Z, (e.1, e.1)) <$> balances).

Definition relabel (names : gmap string string) (x : Settlement) : Settlement :=
  {| s_from := display names (s_from x); s_to := display names (s_to x);
     s_amount := s_amount x |}.

Definition labelled (names : gmap string string) (st : state) : state :=
  {| debtors := debtors st; creditors := creditors st;
     d_idx := d_idx st; c_idx := c_idx st;
     settlements := relabel names <$> settlements st |}.

Lemma display_own_names (balances : list (string * Z)) k :
  k ∈ balances.*1 → display (own_names balances) k = k.
Proof.
  unfold display, own_names. induction balances as [|[k' v] b IH]; simpl.
  - by intros ?%elem_of_nil.
  - intros Hin. destruct (decide (k' = k)) as [->|Hne].
    + by rewrite lookup_insert_eq.
    + rewrite lookup_insert_ne by done. apply IH.
      by apply elem_of_cons in Hin as [->|?].
Qed.

(** The entries are shown under their own identifiers. *)
Definition self_shown (ids : gmap string string) (st : state) : Prop :=
  Forall (λ e, display ids e.1 = e.1) (debtors st)
  ∧ Forall (λ e, display ids e.1 = e.1) (creditors st).

Lemma step_labelled names ids st :
  self_shown ids st →
  step names (labelled names st) = labelled names <$> step ids st
  ∧ ∀ st', step ids st = Some st' → self_shown ids st'.
Proof.
  intros [Hd Hc]. unfold step. cbn [labelled debtors creditors d_idx c_idx settlements].
  destruct (debtors st !! d_idx st) as [debtor|] eqn:Hdeb; [|done].
  destruct (creditors st !! c_idx st) as [creditor|] eqn:Hcre; [|done].
  assert (display ids debtor.1 = debtor.1) as Hid.
  { rewrite Forall_forall in Hd. apply Hd. by eapply list_elem_of_lookup_2. }
  assert (display ids creditor.1 = creditor.1) as Hic.
  { rewrite Forall_forall in Hc. apply Hc. by eapply list_elem_of_lookup_2. }
  split.
  - cbn [fmap option_fmap option_map]. unfold labelled. simpl. f_equal. f_equal.
    rewrite fmap_app. simpl. unfold relabel at 2. simpl. by rewrite Hid, Hic.
  - intros st' [= <-]. split; simpl; by apply Forall_insert.
Qed.

Lemma resolve_loop_labelled names ids fuel st :
  self_shown ids st →
  resolve_loop fuel names (labelled names st) = labelled names <$> resolve_loop fuel ids st.
Proof.
  revert st. induction fuel as [|fuel IH]; intros st Hst; [done|]. simpl.
  destruct (step_labelled names ids st Hst) as [-> Hnext].
  destruct (step ids st) as [st1|]; simpl; [|done]. by apply IH, Hnext.
Qed.

(** X16. The plan is made among the identifiers, and the names mapping only
    labels it: for any names mapping, [resolve_debts] returns the plan it
    returns when every participant is shown under its own identifier,
    with each identifier replaced by its display name.  Who pays whom,
    and how much, does not depend on the names. *)
Theorem resolve_debts_names_label (balances : list (string * Z))
    (names : gmap string string) :
  ∃ s, resolve_debts balances (own_names balances) = Some s
    ∧ resolve_debts balances names = Some (relabel names <$> s)
    ∧ Forall (λ x, s_from x ∈ balances.*1 ∧ s_to x ∈ balances.*1) s.
Proof.
  destruct (resolve_debts_invariant (tracks balances (own_names balances))
              balances (own_names balances)) as (st' & Hres & (_ & _ & Hs) & _).
  { intros st st'. apply step_tracks. }
  { split_and!; [apply Forall_Forall2_diag, Forall_forall; intros; split; [done|lia]..
                |constructor]. }
  exists (settlements st'). split_and!; [done| |].
  - unfold resolve_debts, resolve_debts_fuel in *.
    set (fuel := S _) in *.
    assert (labelled names (initial_state balances) = initial_state balances) as <- by done.
    rewrite (resolve_loop_labelled names (own_names balances)).
    + destruct (resolve_loop fuel (own_names balances) (initial_state balances)); [|done].
      simpl in *. by injection Hres as ->.
    + split; simpl; apply Forall_forall; intros e He; rewrite sorted_perm in He;
        apply list_elem_of_filter in He as [_ He]; apply display_own_names;
        by apply (list_elem_of_fmap_2 fst) in He.
  - eapply Forall_impl; [exact Hs|]. intros x (d & c & Hd & Hc & _ & _ & -> & -> & _).
    apply (list_elem_of_fmap_2 fst) in Hd, Hc. by rewrite !display_own_names.
Qed.

(** ** Absent names *)

Lemma resolve_debts_relabel (balances : list (string * Z)) (names : gmap string string)
    (plan : list Settlement) :
  resolve_debts balances (own_names balances) = Some plan →
  resolve_debts balances names = Some (relabel names <$> plan).
Proof.
  unfold resolve_debts, resolve_debts_fuel. set (fuel := S _). intros Hplan.
  assert (labelled names (initial_state balances) = initial_state balances) as <- by done.
  rewrite (resolve_loop_labelled names (own_names balances)).
  - destruct (resolve_loop fuel (own_names balances) (initial_state balances)); [|done].
    simpl in *. by injection Hplan as ->.
  - split; simpl; apply Forall_forall; intros e He; rewrite sorted_perm in He;
      apply list_elem_of_filter in He as [_ He]; apply display_own_names;
      by apply (list_elem_of_fmap_2 fst) in He.
Qed.

(** C7. An identifier that is absent from the names mapping never makes
    [resolve_debts] fail, and costs no settlement.  For every balances
    mapping there is the plan among identifiers (the settlements returned
    when every participant is shown under its own identifier): each of
    its settlements is from one identifier of the balances to another,
    for at least one unit, and together they move the smaller of what is
    owed and what is due.  For every names mapping, [resolve_debts]
    returns that plan, settlement for settlement and with the same
    amounts, each identifier replaced by its display name and by the
    literal "Unknown" where the names mapping has none.  So with debts of
    50 and 30 against a credit of 80 and only the first debtor named,
    both settlements are returned, three of their four parties shown as
    "Unknown". *)
Theorem resolve_debts_unknown_emitted :
  (∀ (balances : list (string * Z)) (names : gmap string string),
     ∃ plan,
       resolve_debts balances (own_names balances) = Some plan
       ∧ Forall (λ x, s_from x ∈ balances.*1 ∧ s_to x ∈ balances.*1 ∧ 1 ≤ s_amount x) plan
       ∧ sum_int (s_amount <$> plan) = Z.min (total_owed balances) (total_due balances)
       ∧ resolve_debts balances names =
           Some ((λ x, {| s_from := default "Unknown" (names !! s_from x);
                          s_to := default "Unknown" (names !! s_to x);
                          s_amount := s_amount x |}) <$> plan))
  ∧ resolve_debts [("A", -50); ("B", -30); ("C", 80)] {[ "A" := "Ann" ]}
    = Some [ {| s_from := "Ann"; s_to := "Unknown"; s_amount := 50 |};
             {| s_from := "Unknown"; s_to := "Unknown"; s_amount := 30 |} ].
Proof.
  split; [|by vm_compute]. intros balances names.
  destruct (resolve_debts_accounted balances (own_names balances)) as (plan & Hplan & Hsum & _).
  exists plan. split_and!; [done| |done|by apply resolve_debts_relabel].
  destruct (resolve_debts_invariant
              (λ st, tracks balances (own_names balances) st
                     ∧ Forall (λ x, 1 ≤ s_amount x) (settlements st))
              balances (own_names balances)) as (st' & Hres & [(_ & _ & Hs) Hpos] & _).
  - intros st st' Hwf [Ht Hp] Hstep. split; [by eapply step_tracks|].
    destruct (step_spec _ _ _ Hwf Hstep)
      as (debtor & creditor & _ & _ & Hneg & Hpos & -> & _).
    apply Forall_app. split; [done|]. constructor; [simpl; lia | constructor].
  - split; [|constructor].
    split_and!; [apply Forall_Forall2_diag, Forall_forall; intros; split; [done|lia]..
                |constructor].
  - assert (plan = settlements st') as -> by congruence.
    apply Forall_forall. intros x Hx. rewrite Forall_forall in Hs, Hpos.
    destruct (Hs x Hx) as (d & c & Hd & Hc & _ & _ & -> & -> & _).
    apply (list_elem_of_fmap_2 fst) in Hd, Hc.
    rewrite !display_own_names by done. split_and!; [done..|]. by apply Hpos.
Qed.

(** * More on the dicts of a trip *)

Lemma foldl_dict_set_other (ps : list Participant) (d : list (string * string)) k :
  k ∉ p_id <$> ps →
  dict_get k (foldl (λ d p, dict_set (p_id p) (p_name p) d) d ps) = dict_get k d.
Proof.
  revert d. induction ps as [|p ps IH]; intros d Hk; [done|].
  csimpl in Hk. apply not_elem_of_cons in Hk as [Hne Hk].
  simpl. rewrite IH by done. by apply dict_get_set_ne.
Qed.

(** X17. A participant identifier that the file lists more than once is shown
    under the name of its last listing (while its balance keeps the place
    of the first): the name of a listing is the name displayed whenever
    no later listing has the same identifier. *)
Theorem participants_dict_last_name (data : Ledger) (ps1 ps2 : list Participant)
    (p : Participant) :
  l_participants data = ps1 ++ p :: ps2 → p_id p ∉ p_id <$> ps2 →
  dict_get (p_id p) (participants_dict data) = Some (p_name p)
  ∧ display (names_of (participants_dict data)) (p_id p) = p_name p.
Proof.
  intros Hps Hlast.
  assert (dict_get (p_id p) (participants_dict data) = Some (p_name p)) as Hget.
  { unfold participants_dict. rewrite Hps, foldl_app. simpl.
    rewrite foldl_dict_set_other by done. apply dict_get_set_eq. }
  split; [done|]. unfold display. by rewrite names_of_lookup, Hget.
Qed.

Lemma participants_dict_last_name_applied :
  dict_get "a"
    (participants_dict
       {| l_participants :=
            [ {| p_id := "a"; p_name := "Ann" |}; {| p_id := "b"; p_name := "Bob" |};
              {| p_id := "a"; p_name := "Al" |} ];
          l_expenses := []; l_expenseSplits := [] |}) = Some "Al"
  ∧ display
      (names_of
         (participants_dict
            {| l_participants :=
                 [ {| p_id := "a"; p_name := "Ann" |}; {| p_id := "b"; p_name := "Bob" |};
                   {| p_id := "a"; p_name := "Al" |} ];
               l_expenses := []; l_expenseSplits := [] |})) "a" = "Al".
Proof.
  apply (participants_dict_last_name
           {| l_participants :=
                [ {| p_id := "a"; p_name := "Ann" |}; {| p_id := "b"; p_name := "Bob" |};
                  {| p_id := "a"; p_name := "Al" |} ];
              l_expenses := []; l_expenseSplits := [] |}
           [ {| p_id := "a"; p_name := "Ann" |}; {| p_id := "b"; p_name := "Bob" |} ] []
           {| p_id := "a"; p_name := "Al" |}).
  - reflexivity.
  - apply (bool_decide_unpack _). by vm_compute.
Defined.

(** * The order of the expenses *)

Lemma dict_ext (d1 d2 : list (string * Z)) :
  NoDup d1.*1 → d1.*1 = d2.*1 → (∀ k, dict_get k d1 = dict_get k d2) → d1 = d2.
Proof.
  revert d2. induction d1 as [|[k v] d1 IH]; intros [|[k2 v2] d2] Hnd Hk Hget;
    simplify_eq/=; [done|].
  apply NoDup_cons in Hnd as [Hnin Hnd].
  pose proof (Hget k2) as Hv. rewrite !decide_True in Hv by done. injection Hv as ->.
  f_equal. apply IH; [done..|]. intros k. specialize (Hget k).
  destruct (decide (k2 = k)) as [->|Hne]; [|done].
  assert (dict_get k d1 = None) as ->.
  { apply eq_None_not_Some. by rewrite dict_get_keys. }
  symmetry. apply eq_None_not_Some. rewrite dict_get_keys. congruence.
Qed.

(** X18. The balances and the total trip cost do not depend on the order in
    which the file lists the expenses; only the order of the printed
    lines does. *)
Theorem process_expenses_order (ps : list Participant) (es es' : list Expense)
    (ss : list ExpenseSplit) :
  es ≡ₚ es' →
  ∃ st st',
    process_expenses {| l_participants := ps; l_expenses := es; l_expenseSplits := ss |}
      = Ok st
    ∧ process_expenses {| l_participants := ps; l_expenses := es'; l_expenseSplits := ss |}
        = Ok st'
    ∧ t_balances st = t_balances st'
    ∧ total_trip_cost st = total_trip_cost st'.
Proof.
  intros Hperm.
  set (data := {| l_participants := ps; l_expenses := es; l_expenseSplits := ss |}).
  set (data' := {| l_participants := ps; l_expenses := es'; l_expenseSplits := ss |}).
  destruct (process_loop_spec data es
              {| t_balances := initial_balances (participants_dict data);
                 total_trip_cost := 0; printed := [] |})
    as (st & Hrun & Ht & Hk & Hg & _).
  destruct (process_loop_spec data' es'
              {| t_balances := initial_balances (participants_dict data');
                 total_trip_cost := 0; printed := [] |})
    as (st' & Hrun' & Ht' & Hk' & Hg' & _).
  exists st, st'. split_and!; [done..| |].
  - simpl in *. apply dict_ext.
    + rewrite Hk, (initial_balances_keys data). apply first_occurrences_NoDup.
    + by rewrite Hk, Hk'.
    + intros k. rewrite Hg, Hg'.
      change (participants_dict data') with (participants_dict data).
      assert (sum_int ((λ e, expense_effect data e k) <$> es)
              = sum_int ((λ e, expense_effect data' e k) <$> es')) as ->; [|done].
      by rewrite Hperm.
  - rewrite Ht, Ht'. simpl. by rewrite Hperm.
Qed.

Lemma process_expenses_order_applied :
  ∃ st st',
    process_expenses
      {| l_participants := l_participants sample_ledger;
         l_expenses := l_expenses sample_ledger;
         l_expenseSplits := l_expenseSplits sample_ledger |} = Ok st
    ∧ process_expenses
        {| l_participants := l_participants sample_ledger;
           l_expenses := reverse (l_expenses sample_ledger);
           l_expenseSplits := l_expenseSplits sample_ledger |} = Ok st'
    ∧ t_balances st = t_balances st'
    ∧ total_trip_cost st = total_trip_cost st'.
Proof.
  apply process_expenses_order. symmetry. apply reverse_Permutation.
Defined.

(** * Shares that are not negative *)

(** ** Signs of floats *)

(** Not below zero: a zero of either sign, a positive number or [+inf]
    (and, for convenience, a NaN, which no share is computed from). *)
Definition nonneg_sf (x : spec_float) : Prop :=
  match x with
  | S754_finite s _ _ | S754_infinity s => s = false
  | _ => True
  end.

(** The sign bit is clear. *)
Definition plus_sf (x : spec_float) : Prop :=
  match x with
  | S754_finite s _ _ | S754_infinity s | S754_zero s => s = false
  | S754_nan => True
  end.

Lemma plus_nonneg x : plus_sf x → nonneg_sf x.
Proof. by destruct x. Qed.

Lemma binary_round_aux_plus mx ex lx : plus_sf (binary_round_aux prec emax false mx ex lx).
Proof.
  unfold binary_round_aux.
  destruct (shr_fexp prec emax mx ex lx) as [mrs' e'].
  destruct (shr_fexp prec emax _ e' loc_Exact) as [mrs'' e''].
  destruct (shr_m mrs'') as [|m|m]; [done| |done]. by case_match.
Qed.

Lemma binary_round_plus mx ex : plus_sf (binary_round prec emax false mx ex).
Proof.
  unfold binary_round. destruct (shl_align _ _ _) as [mz ez].
  apply binary_round_aux_plus.
Qed.

Lemma binary_normalize_plus m e : 0 ≤ m → plus_sf (binary_normalize prec emax m e false).
Proof. destruct m; simpl; [done | intros _; apply binary_round_plus | lia]. Qed.

Lemma SFmul_nonneg x y :
  nonneg_sf x → nonneg_sf y → nonneg_sf (SFmul prec emax x y).
Proof.
  destruct x as [sx|sx| |sx mx ex], y as [sy|sy| |sy my ey]; simpl; try done;
    try (by intros -> ->); try (by intros ->); try (by intros _ ->).
  intros -> ->. apply plus_nonneg, binary_round_aux_plus.
Qed.

Lemma SFdiv_nonneg x y :
  nonneg_sf x → plus_sf y → nonneg_sf (SFdiv prec emax x y).
Proof.
  destruct x as [sx|sx| |sx mx ex], y as [sy|sy| |sy my ey]; simpl; try done;
    try (by intros -> ->); try (by intros ->); try (by intros _ ->).
  intros -> ->. destruct (SFdiv_core_binary _ _ _ _ _ _) as [[mz ez] lz].
  apply plus_nonneg, binary_round_aux_plus.
Qed.

Lemma SF2Prim_plus x : plus_sf x → plus_sf (Prim2SF (SF2Prim x)).
Proof.
  destruct x as [[]|[]| |s m e]; intros Hx; try done. simpl in Hx. subst s.
  unfold SF2Prim, Z.ldexp. rewrite ldshiftexp_spec, of_uint63_spec.
  pose proof (binary_normalize_plus
                (Uint63Axioms.to_Z (Uint63Axioms.of_Z (Z.pos m))) 0) as Hn.
  pose proof (Uint63.to_Z_bounded (Uint63Axioms.of_Z (Z.pos m))) as Hb.
  specialize (Hn ltac:(lia)).
  destruct (binary_normalize _ _ _ _ _) as [| | |s' m' e']; simpl; [done..|].
  simpl in Hn. subst s'. apply binary_round_plus.
Qed.

Lemma float_of_int_plus z f : 0 ≤ z → float_of_int z = Ok f → plus_sf (Prim2SF f).
Proof.
  unfold float_of_int. intros Hz. case_match; [done|]. intros [= <-].
  by apply SF2Prim_plus, binary_normalize_plus.
Qed.

(** [0 <= x] and [not (x <= 0)], read on the representation. *)
Lemma leb_zero_nonneg x : PrimFloat.leb 0 x = true → nonneg_sf (Prim2SF x).
Proof.
  rewrite leb_spec. change (Prim2SF 0) with (S754_zero false).
  by destruct (Prim2SF x) as [s|[]| |[] m e].
Qed.

Lemma not_leb_zero_plus x : PrimFloat.leb x 0 = false → plus_sf (Prim2SF x).
Proof.
  rewrite leb_spec. change (Prim2SF 0) with (S754_zero false).
  by destruct (Prim2SF x) as [s|[]| |[] m e].
Qed.

Lemma math_floor_nonneg x b : nonneg_sf (Prim2SF x) → math_floor x = Ok b → 0 ≤ b.
Proof.
  unfold math_floor. destruct (Prim2SF x) as [s|s| |s m e]; simpl; try done.
  - by intros _ [= <-].
  - intros -> [= <-]. simpl. by apply Z.shiftl_nonneg.
Qed.

(** ** From the exact amounts to the shares *)

Lemma exact_amounts_nonneg ss (d : float) T exact :
  comprehension
    (λ s, x ← get_share s; t ← float_of_int T;
          Ok (PrimFloat.mul (PrimFloat.div x d) t)) ss = Ok exact →
  0 ≤ T → plus_sf (Prim2SF d) →
  Forall (λ s, ∀ x, share s = Some x → PrimFloat.leb 0 x = true) ss →
  Forall (λ y, nonneg_sf (Prim2SF y)) exact.
Proof.
  intros Hex HT Hd Hss. apply comprehension_Ok in Hex.
  induction Hex as [|s y ss exact Hy _ IH]; [constructor|].
  apply Forall_cons in Hss as [Hs Hss]. constructor; [|by apply IH].
  unfold get_share in Hy. destruct (share s) as [x|] eqn:Hx; [|done]. simpl in Hy.
  destruct (float_of_int T) as [t|] eqn:Ht; [|done]. injection Hy as <-.
  rewrite mul_spec, div_spec. apply SFmul_nonneg.
  - apply SFdiv_nonneg; [by apply leb_zero_nonneg, Hs | done].
  - by eapply plus_nonneg, float_of_int_plus.
Qed.

Lemma incr_nonneg js l l' :
  for_each incr_item js l = Ok l' → Forall (λ v, 0 ≤ v) l → Forall (λ v, 0 ≤ v) l'.
Proof.
  intros Hrun Hl. eapply (for_each_invariant (Forall (λ v, 0 ≤ v))); [|exact Hl|exact Hrun].
  intros j s s' _ Hs Hstep. apply incr_item_Ok in Hstep as (v & Hv & ->).
  apply Forall_insert; [done|]. rewrite Forall_lookup in Hs. specialize (Hs _ _ Hv).
  simpl in Hs. lia.
Qed.

Lemma largest_remainder_nonneg exact T sn :
  largest_remainder exact T = Ok sn →
  Forall (λ y, nonneg_sf (Prim2SF y)) exact → Forall (λ v, 0 ≤ v) sn.
Proof.
  intros Hrun Hex. apply largest_remainder_Ok in Hrun as (bases & fp & Hb & _ & _ & Hrun).
  eapply incr_nonneg; [exact Hrun|]. apply comprehension_Ok in Hb. clear Hrun.
  induction Hb as [|y b exact bases Hy _ IH]; [constructor|].
  apply Forall_cons in Hex as [Hy' Hex]. constructor; [|by apply IH].
  by eapply math_floor_nonneg.
Qed.

Lemma scatter_nonneg {B} (stable : list (nat * B)) sn nz res :
  scatter stable sn nz = Ok res →
  Forall (λ v, 0 ≤ v) sn → Forall (λ v, 0 ≤ v) nz → Forall (λ v, 0 ≤ v) res.
Proof.
  intros Hrun Hsn Hnz. unfold scatter in Hrun.
  eapply (for_each_invariant (Forall (λ v, 0 ≤ v))); [|exact Hnz|exact Hrun].
  intros [k a] l l' Hin Hl Hstep. apply bind_Ok in Hstep as (x & _ & Hset).
  apply setitem_Ok in Hset as [_ ->]. apply Forall_insert; [done|].
  apply elem_of_zip_r in Hin. rewrite Forall_forall in Hsn. by apply Hsn.
Qed.

(** X19. With a total that is not negative and no percentage or weight below
    zero, no share that [normalize_shares] returns for an [equal],
    [percentage] or [weight] list is negative.  (The shares of an
    [amount] list are the amounts the file gives, of whatever sign.) *)
Theorem shares_not_negative (splits : list Split) (T : Z) (shares : list Z) :
  0 ≤ T →
  Forall (λ s, shareType s ≠ "amount") splits →
  Forall (λ s, ∀ x, share s = Some x → PrimFloat.leb 0 x = true) splits →
  normalize_shares splits T = Ok shares →
  Forall (λ v, 0 ≤ v) shares.
Proof.
  intros HT Hty Hsh Hres. destruct splits as [|first rest].
  { injection Hres as <-. constructor. }
  destruct (decide (T = 0)) as [->|HT0].
  { unfold normalize_shares in Hres. rewrite decide_True in Hres by done.
    injection Hres as <-. constructor; [done|]. by apply Forall_replicate. }
  destruct (decide (Forall (λ s, shareType s = shareType first) (first :: rest)))
    as [Hsame|Hsame]; [|by rewrite normalize_shares_mixed in Hres].
  rewrite normalize_shares_unfold in Hres by done.
  apply bind_Ok in Hres as (sn & Hsn & Hsc).
  eapply scatter_nonneg; [exact Hsc| |by apply Forall_replicate].
  set (ss := (stable_order (first :: rest)).*2) in *.
  assert (Forall (λ s, ∀ x, share s = Some x → PrimFloat.leb 0 x = true) ss) as Hss.
  { unfold ss. by rewrite stable_order_snd. }
  assert (shareType first ≠ "amount") as Hna by (by inversion Hty).
  unfold normalize_by_type in Hsn.
  destruct (String.eqb_spec (shareType first) "equal") as [_|_].
  { unfold _normalize_equal in Hsn. eapply incr_nonneg; [exact Hsn|].
    apply Forall_replicate. apply Z.div_pos; [lia|].
    unfold ss. rewrite length_fmap, stable_order_length. simpl. lia. }
  destruct (String.eqb_spec (shareType first) "percentage") as [_|_].
  { unfold _normalize_percentage in Hsn. apply bind_Ok in Hsn as (xs & _ & Hsn).
    case_match; [done|]. apply bind_Ok in Hsn as (exact & Hex & Hsn).
    eapply largest_remainder_nonneg; [exact Hsn|].
    by eapply exact_amounts_nonneg. }
  destruct (String.eqb_spec (shareType first) "weight") as [_|_].
  { unfold _normalize_weight in Hsn. apply bind_Ok in Hsn as (xs & _ & Hsn).
    case_match eqn:Hw; [done|]. apply bind_Ok in Hsn as (exact & Hex & Hsn).
    eapply largest_remainder_nonneg; [exact Hsn|].
    eapply exact_amounts_nonneg; [exact Hex | lia | by apply not_leb_zero_plus | done]. }
  by destruct (String.eqb_spec (shareType first) "amount").
Qed.

Lemma shares_not_negative_applied :
  normalize_shares [wgt "b" 1; wgt "a" 1; wgt "c" 0] 25 = Ok [12; 13; 0]
  ∧ Forall (λ v, 0 ≤ v) [12; 13; 0].
Proof.
  split; [by vm_compute|].
  apply (shares_not_negative [wgt "b" 1; wgt "a" 1; wgt "c" 0] 25 [12; 13; 0]).
  - lia.
  - by repeat constructor.
  - repeat constructor; by intros x [= <-].
  - by vm_compute.
Defined.

(** * The order of the balances *)

Lemma sorted_entries_unique (lt : Z → Z → bool) (R : relation (string * Z))
    (l l' : list (string * Z)) :
  (∀ x y, R x y → R y x → x.2 = y.2) →
  (∀ l, StronglySorted R (sorted snd lt l)) →
  NoDup l.*2 → l ≡ₚ l' → sorted snd lt l = sorted snd lt l'.
Proof.
  intros Hanti Hsorted Hnd Hperm. apply (StronglySorted_unique_strong R).
  - intros x1 x2 Hx1 Hx2 H12 H21. rewrite sorted_perm in Hx1, Hx2.
    rewrite <-Hperm in Hx2. apply (elem_of_key_unique snd l); [done..|]. by apply Hanti.
  - apply Hsorted.
  - apply Hsorted.
  - by rewrite !sorted_perm.
Qed.

Lemma NoDup_filter_snd (P : string * Z → Prop) `{∀ x, Decision (P x)}
    (l : list (string * Z)) :
  NoDup l.*2 → NoDup (filter P l).*2.
Proof.
  intros Hnd. eapply sublist_NoDup; [exact Hnd|]. apply fmap_sublist, sublist_filter.
Qed.

(** X20. When no two participants have the same balance, the plan does not
    depend on the order in which the balances dict lists them: for two
    orders of the same items, [resolve_debts] returns the same
    settlements.  (Among equal balances, the order of the dict decides
    who is matched first.) *)
Theorem resolve_debts_order_invariant (balances balances' : list (string * Z))
    (names : gmap string string) :
  NoDup balances.*2 → balances ≡ₚ balances' →
  resolve_debts balances names = resolve_debts balances' names.
Proof.
  intros Hnd Hperm.
  assert (initial_state balances = initial_state balances') as Hinit.
  { unfold initial_state. f_equal.
    - apply (sorted_entries_unique Z.ltb (λ x y, x.2 ≤ y.2)).
      + intros x y. lia.
      + apply sorted_ascending.
      + by apply NoDup_filter_snd.
      + by rewrite Hperm.
    - apply (sorted_entries_unique (λ a b, Z.ltb b a) (λ x y, y.2 ≤ x.2)).
      + intros x y. lia.
      + apply sorted_descending.
      + by apply NoDup_filter_snd.
      + by rewrite Hperm. }
  unfold resolve_debts, resolve_debts_fuel. by rewrite Hinit.
Qed.

Lemma resolve_debts_order_invariant_applied :
  resolve_debts [("a", -50); ("b", 20); ("c", -10); ("d", 40)] ∅
  = resolve_debts [("d", 40); ("c", -10); ("b", 20); ("a", -50)] ∅.
Proof.
  apply resolve_debts_order_invariant.
  - apply (bool_decide_unpack _). by vm_compute.
  - symmetry. apply (reverse_Permutation [("a", -50); ("b", 20); ("c", -10); ("d", 40)]).
Defined.

(** * Expenses as the file gives them

    In JSON the description of an expense can be absent, a string, or
    [null], which Python reads as [None].  [.get('description',
    'Unknown')] then returns [None] (the key is there), and a line
    printed with [{desc:<25}] raises a [TypeError]: [None] takes no
    format width. *)

Inductive description :=
  | DescriptionAbsent
  | DescriptionNull
  | DescriptionText (text : string).

Record JsonExpense := {
  je_id : string;
  je_amount : Z;
  je_paidBy : string;
  je_description : description;
  je_date : string;
}.

Record JsonLedger := {
  jl_participants : list Participant;
  jl_expenses : list JsonExpense;
  jl_expenseSplits : list ExpenseSplit;
}.

(** [expense.get('description', 'Unknown')]; [None] is Python's [None]. *)
Definition get_description (expense : JsonExpense) : option string :=
  match je_description expense with
  | DescriptionAbsent => Some "Unknown"
  | DescriptionNull => None
  | DescriptionText text => Some text
  end.

(** [print(f"{date_short} | {desc:<25} | {share_type:<10} | {status}")] *)
Definition print_line (date_short : string) (desc : option string) (share_type : string)
    (status : status) (printed : list line) : res (list line) :=
  match desc with
  | Some desc =>
      Ok (printed ++ [{| date_short := date_short; desc := desc;
                         share_type := share_type; line_status := status |}])
  | None => Raise TypeError
  end.

(** The body of the loop, for one expense. *)
Definition process_json_expense (data : JsonLedger) (expense : JsonExpense) (st : trip)
    : res trip :=
  let exp_id := je_id expense in
  let amount := je_amount expense in
  let paid_by := je_paidBy expense in
  let desc := get_description expense in
  let date_short := String.substring 0 10 (je_date expense) in
  let total_trip_cost := total_trip_cost st + amount in
  let splits :=
    split <$> filter (λ s, expenseId s = exp_id) (jl_expenseSplits data) in
  match splits with
  | [] =>
    Ok {| t_balances := t_balances st; total_trip_cost := total_trip_cost;
          printed := printed st |}
  | first :: _ =>
    let share_type := shareType first in
    match normalize_shares splits amount with
    | Raise e =>
      printed ← print_line date_short desc share_type (StatusError e) (printed st);
      Ok {| t_balances := t_balances st; total_trip_cost := total_trip_cost;
            printed := printed |}
    | Ok normalized_amounts =>
      '(calculated_split_total, split_details) ←
        split_details_loop splits normalized_amounts;
      let delta := amount - calculated_split_total in
      let is_valid := bool_decide (delta = 0) in
      printed ← print_line date_short desc share_type
                  (if is_valid then StatusOK else StatusDiff delta) (printed st);
      if is_valid
      then
        balances ← update_balances paid_by amount split_details (t_balances st);
        Ok {| t_balances := balances; total_trip_cost := total_trip_cost;
              printed := printed |}
      else
        Ok {| t_balances := t_balances st; total_trip_cost := total_trip_cost;
              printed := printed |}
    end
  end.

(** The file with every description absent or a string, a [null] one
    taken as absent. *)
Definition typed_expense (expense : JsonExpense) : Expense :=
  {| e_id := je_id expense; e_amount := je_amount expense;
     e_paidBy := je_paidBy expense;
     e_description :=
       match je_description expense with
       | DescriptionText text => Some text
       | _ => None
       end;
     e_date := je_date expense |}.

Definition typed_ledger (data : JsonLedger) : Ledger :=
  {| l_participants := jl_participants data;
     l_expenses := typed_expense <$> jl_expenses data;
     l_expenseSplits := jl_expenseSplits data |}.

Definition process_json_expenses (data : JsonLedger) : res trip :=
  for_each (process_json_expense data) (jl_expenses data)
    {| t_balances := initial_balances (participants_dict (typed_ledger data));
       total_trip_cost := 0; printed := [] |}.

(** An expense that stops the loop: it has splits, so that a line is
    printed for it, and its description is [null]. *)
Definition null_described (data : JsonLedger) (expense : JsonExpense) : Prop :=
  je_description expense = DescriptionNull
  ∧ splits_of (typed_ledger data) (typed_expense expense) ≠ [].

#[global] Instance description_eq_dec : EqDecision description.
Proof. solve_decision. Defined.

#[global] Instance null_described_dec data expense : Decision (null_described data expense).
Proof. unfold null_described. apply _. Defined.






(** A file that stops the loop, and the same file with the description
    left out. *)
Example process_json_expenses_null :
  process_json_expenses
    {| jl_participants := [ {| p_id := "a"; p_name := "Ann" |} ];
       jl_expenses :=
         [ {| je_id := "e1"; je_amount := 10; je_paidBy := "a";
              je_description := DescriptionNull; je_date := "2024-05-01" |} ];
       jl_expenseSplits := [ {| expenseId := "e1"; split := eql "a" |} ] |}
  = Raise TypeError
  ∧ process_json_expenses
      {| jl_participants := [ {| p_id := "a"; p_name := "Ann" |} ];
         jl_expenses :=
           [ {| je_id := "e1"; je_amount := 10; je_paidBy := "a";
                je_description := DescriptionAbsent; je_date := "2024-05-01" |} ];
         jl_expenseSplits := [ {| expenseId := "e1"; split := eql "a" |} ] |}
    = Ok {| t_balances := [("a", 0)]; total_trip_cost := 10;
            printed := [ {| date_short := "2024-05-01"; desc := "Unknown";
                            share_type := "equal"; line_status := StatusOK |} ] |}.
Proof. split; by vm_compute. Qed.
